(** * Railway station navigation: route materializer and position simulator

    A shallow embedding of the geometry utilities, the route materializer
    and the walking simulator of the navigation app
    ([src/lib/station-data.ts], [src/components/station-map.tsx],
    [src/hooks/use-speech-synthesis.ts]).

    Modelling conventions.
    - A JavaScript [number] is read as a real number: [+ - * / Math.sqrt
      Math.sin Math.cos] are the real operations.  Rounding of binary64,
      NaN and the infinities are outside the model.
    - The station points are JavaScript objects shared by reference between
      the global table [mockStationLayout.points] and every materialized
      path.  The table is the store (a list), a reference is an index into
      it, and a path ([StationPoint[]] in the source) is a list of
      references.  Writing [p.cumulativeDistance] updates the store.
    - Calls to the voice announcer are recorded in a log.
    - React state and refs are fields of one record; a handler is a function
      on that record. *)

From Stdlib Require Import Reals Lra Lia ZArith.
From stdpp Require Import base option list strings gmap.

#[local] Open Scope R_scope.

(** ** Data model ([src/lib/station-data.ts]) *)

Record LatLng := mkLatLng { lat : R; lng : R }.

Inductive PointType := gate | platform | poi | path_node.

Module StationPoint.
Record t := mk {
  id : string;
  name : option string;
  type : PointType;
  x : R;
  y : R;
  latLng : option LatLng;
  cumulativeDistance : option R
}.

(** [p.cumulativeDistance = d] *)
Definition set_cumulativeDistance (d : R) (p : t) : t :=
  mk (id p) (name p) (type p) (x p) (y p) (latLng p) (Some d).
End StationPoint.

Module PathInstruction.
Record t := mk {
  id : string;
  text : string;
  hindiText : string;
  from : string;
  to : string;
  path_nodes : option (list string);
  distance : option R;
  cumulativeDistanceToTarget : option R
}.

(** [inst.cumulativeDistanceToTarget = d] *)
Definition set_cumulativeDistanceToTarget (d : R) (i : t) : t :=
  mk (id i) (text i) (hindiText i) (from i) (to i) (path_nodes i)
     (distance i) (Some d).
End PathInstruction.

Record StationLayout := mkLayout {
  points : list StationPoint.t;
  paths : gmap string (list PathInstruction.t)
}.

Record PNRDetails := mkPNR {
  pnr : string;
  trainNumber : string;
  platformNumber : string;
  coachDetails : string;
  destinationPlatformId : string
}.

Inductive Language := en_US | hi_IN.

(** ** Geometry utilities *)

(** [getDistanceBetweenPoints] *)
Definition getDistanceBetweenPoints (p1 p2 : StationPoint.t) : R :=
  let dx := StationPoint.x p2 - StationPoint.x p1 in
  let dy := StationPoint.y p2 - StationPoint.y p1 in
  sqrt (dx * dx + dy * dy).

(** [getIntermediateLatLng] *)
Definition getIntermediateLatLng (start end_ : LatLng) (fraction : R) : LatLng :=
  let lat' := lat start + (lat end_ - lat start) * fraction in
  let lng' := lng start + (lng end_ - lng start) * fraction in
  mkLatLng lat' lng'.

(** [Math.atan2(y, x)] on real arguments, by quadrant; [atan2 0 0 = 0]. *)
Definition atan2 (y x : R) : R :=
  if Rlt_dec 0 x then atan (y / x)
  else if Rlt_dec x 0 then
    (if Rle_dec 0 y then atan (y / x) + PI else atan (y / x) - PI)
  else if Rlt_dec 0 y then PI / 2
  else if Rlt_dec y 0 then - (PI / 2)
  else 0.

(** Rounding towards zero, as the quotient of JavaScript's [%] does. *)
Definition trunc (r : R) : Z :=
  if Rle_dec 0 r then Int_part r else (- Int_part (- r))%Z.

(** JavaScript's remainder [a % b]: [a - b * trunc (a / b)]. *)
Definition js_rem (a b : R) : R := a - b * IZR (trunc (a / b)).

Definition toRadians (deg : R) : R := deg * PI / 180.
Definition toDegrees (rad : R) : R := rad * 180 / PI.

(** [calculateBearing] *)
Definition calculateBearing (lat1 lng1 lat2 lng2 : R) : R :=
  let phi1 := toRadians lat1 in
  let phi2 := toRadians lat2 in
  let dlambda := toRadians (lng2 - lng1) in
  let y := sin dlambda * cos phi2 in
  let x := cos phi1 * sin phi2 - sin phi1 * cos phi2 * cos dlambda in
  let theta := atan2 y x in
  js_rem (toDegrees theta + 360) 360.

(** ** The station topology table *)

Definition STATION_CENTER_LAT : R := 28.6435.
Definition STATION_CENTER_LNG : R := 77.2222.

(** [getLatLngFromOffset] *)
Definition getLatLngFromOffset (xOffset yOffset : R) : LatLng :=
  let latConv := 1 / 111000 in
  let lngConv := 1 / (111000 * cos (STATION_CENTER_LAT * PI / 180)) in
  let lat' := STATION_CENTER_LAT + yOffset * latConv * -1 in
  let lng' := STATION_CENTER_LNG + xOffset * lngConv in
  mkLatLng lat' lng'.

(** A row of [rawStationPoints]: no [latLng], no [cumulativeDistance]. *)
Definition rawPoint (i : string) (n : option string) (ty : PointType) (px py : R)
  : StationPoint.t := StationPoint.mk i n ty px py None None.

Definition rawStationPoints : list StationPoint.t := [
  rawPoint "gate-a" (Some "Entry Gate A") gate 50 250;
  rawPoint "gate-b" (Some "Entry Gate B") gate 450 250;
  rawPoint "platform-1" (Some "Platform 1") platform 250 50;
  rawPoint "platform-2" (Some "Platform 2") platform 250 100;
  rawPoint "platform-3" (Some "Platform 3") platform 250 150;
  rawPoint "platform-4" (Some "Platform 4") platform 250 200;
  rawPoint "waiting-hall" (Some "Waiting Hall") poi 150 300;
  rawPoint "escalator-1" (Some "Escalator 1") poi 200 250;
  rawPoint "stairs-1" (Some "Stairs 1") poi 300 250;
  rawPoint "node-ga-1" (Some "Node GA-1") path_node 70 250;
  rawPoint "node-ga-2" (Some "Node GA-2") path_node 100 250;
  rawPoint "node-ga-wh-1" (Some "Node GA-WH-1") path_node 135 290;
  rawPoint "node-wh-e1-1" (Some "Node WH-E1-1") path_node 175 275;
  rawPoint "node-e1-p1-1" (Some "Node E1-P1-1") path_node 190 210;
  rawPoint "node-e1-p1-2" (Some "Node E1-P1-2") path_node 230 65;
  rawPoint "node-e1-p2-1" (Some "Node E1-P2-1") path_node 200 175;
  rawPoint "node-e1-p2-2" (None) path_node 225 125;
  rawPoint "node-wh-s1-1" (Some "Node WH-S1-1") path_node 260 290;
  rawPoint "node-s1-p3-1" (Some "Node S1-P3-1") path_node 310 215;
  rawPoint "node-s1-p3-2" (None) path_node 280 165;
  rawPoint "node-s1-p4-1" (Some "Node S1-P4-1") path_node 300 200;
  rawPoint "node-s1-p4-2" (None) path_node 275 225;
  rawPoint "node-gb-1" (Some "Node GB-1") path_node 430 250;
  rawPoint "node-gb-s1-1" (Some "Node GB-S1-1") path_node 350 250
].

(** A row of an authored route: [distance] given, no
    [cumulativeDistanceToTarget] yet. *)
Definition instruction (i txt hindi src dst : string)
    (nodes : option (list string)) (d : R) : PathInstruction.t :=
  PathInstruction.mk i txt hindi src dst nodes (Some d) None.

Definition route_gate_a_platform_1 : list PathInstruction.t := [
  instruction "inst1"
    "Walk straight from Entry Gate A for 20 meters."
    "प्रवेश द्वार ए से 20 मीटर सीधा चलें।"
    "gate-a" "node-ga-2" (Some ["node-ga-1"]) 20;
  instruction "inst2"
    "Turn right towards Waiting Hall."
    "प्रतीक्षा कक्ष की ओर दाहिने मुड़ें।"
    "node-ga-2" "waiting-hall" (Some ["node-ga-wh-1"]) 30;
  instruction "inst3"
    "Walk straight towards Escalator 1."
    "एस्केलेटर 1 की ओर सीधा चलें।"
    "waiting-hall" "escalator-1" (Some ["node-wh-e1-1"]) 40;
  instruction "inst4"
    "Use Escalator 1 to reach Platform 1."
    "प्लेटफॉर्म 1 तक पहुंचने के लिए एस्केलेटर 1 का उपयोग करें।"
    "escalator-1" "platform-1" (Some ["node-e1-p1-1"; "node-e1-p1-2"]) 50
].

Definition route_gate_a_platform_2 : list PathInstruction.t := [
  instruction "inst1"
    "Walk straight from Entry Gate A for 20 meters."
    "प्रवेश द्वार ए से 20 मीटर सीधा चलें।"
    "gate-a" "node-ga-2" (Some ["node-ga-1"]) 20;
  instruction "inst2"
    "Turn right towards Waiting Hall."
    "प्रतीक्षा कक्ष की ओर दाहिने मुड़ें।"
    "node-ga-2" "waiting-hall" (Some ["node-ga-wh-1"]) 30;
  instruction "inst3"
    "Walk straight towards Escalator 1."
    "एस्केलेटर 1 की ओर सीधा चलें।"
    "waiting-hall" "escalator-1" (Some ["node-wh-e1-1"]) 40;
  instruction "inst4"
    "Use Escalator 1 to reach Platform 2."
    "प्लेटफॉर्म 2 तक पहुंचने के लिए एस्केलेटर 1 का उपयोग करें।"
    "escalator-1" "platform-2" (Some ["node-e1-p2-1"; "node-e1-p2-2"]) 50
].

Definition route_gate_a_platform_3 : list PathInstruction.t := [
  instruction "inst1"
    "Walk straight from Entry Gate A for 20 meters."
    "प्रवेश द्वार ए से 20 मीटर सीधा चलें।"
    "gate-a" "node-ga-2" (Some ["node-ga-1"]) 20;
  instruction "inst2"
    "Turn right towards Waiting Hall."
    "प्रतीक्षा कक्ष की ओर दाहिने मुड़ें।"
    "node-ga-2" "waiting-hall" (Some ["node-ga-wh-1"]) 30;
  instruction "inst3"
    "Walk past Escalator 1 and turn right towards Stairs 1."
    "एस्केलेटर 1 से आगे बढ़ें और सीढ़ियों 1 की ओर दाहिने मुड़ें।"
    "waiting-hall" "stairs-1" (Some ["node-wh-s1-1"]) 40;
  instruction "inst4"
    "Use Stairs 1 to reach Platform 3."
    "प्लेटफॉर्म 3 तक पहुंचने के लिए सीढ़ियों 1 का उपयोग करें।"
    "stairs-1" "platform-3" (Some ["node-s1-p3-1"; "node-s1-p3-2"]) 50
].

Definition route_gate_a_platform_4 : list PathInstruction.t := [
  instruction "inst1"
    "Walk straight from Entry Gate A for 20 meters."
    "प्रवेश द्वार ए से 20 मीटर सीधा चलें।"
    "gate-a" "node-ga-2" (Some ["node-ga-1"]) 20;
  instruction "inst2"
    "Turn right towards Waiting Hall."
    "प्रतीक्षा कक्ष की ओर दाहिने मुड़ें।"
    "node-ga-2" "waiting-hall" (Some ["node-ga-wh-1"]) 30;
  instruction "inst3"
    "Walk past Escalator 1 and turn right towards Stairs 1."
    "एस्केलेटर 1 से आगे बढ़ें और सीढ़ियों 1 की ओर दाहिने मुड़ें।"
    "waiting-hall" "stairs-1" (Some ["node-wh-s1-1"]) 40;
  instruction "inst4"
    "Use Stairs 1 to reach Platform 4."
    "प्लेटफॉर्म 4 तक पहुंचने के लिए सीढ़ियों 1 का उपयोग करें।"
    "stairs-1" "platform-4" (Some ["node-s1-p4-1"; "node-s1-p4-2"]) 50
].

Definition route_gate_b_platform_1 : list PathInstruction.t := [
  instruction "inst1"
    "Walk straight from Entry Gate B for 20 meters."
    "प्रवेश द्वार बी से 20 मीटर सीधा चलें।"
    "gate-b" "node-gb-s1-1" (Some ["node-gb-1"]) 20;
  instruction "inst2"
    "Turn left towards Stairs 1."
    "सीढ़ियों 1 की ओर बाएं मुड़ें।"
    "node-gb-s1-1" "stairs-1" None 30;
  instruction "inst3"
    "Walk past Stairs 1 and turn left towards Escalator 1."
    "सीढ़ियों 1 से आगे बढ़ें और एस्केलेटर 1 की ओर बाएं मुड़ें।"
    "stairs-1" "escalator-1" (Some ["node-wh-e1-1"]) 40;
  instruction "inst4"
    "Use Escalator 1 to reach Platform 1."
    "प्लेटफॉर्म 1 तक पहुंचने के लिए एस्केलेटर 1 का उपयोग करें।"
    "escalator-1" "platform-1" (Some ["node-e1-p1-1"; "node-e1-p1-2"]) 50
].

Definition route_gate_b_platform_2 : list PathInstruction.t := [
  instruction "inst1"
    "Walk straight from Entry Gate B for 20 meters."
    "प्रवेश द्वार बी से 20 मीटर सीधा चलें।"
    "gate-b" "node-gb-s1-1" (Some ["node-gb-1"]) 20;
  instruction "inst2"
    "Turn left towards Stairs 1."
    "सीढ़ियों 1 की ओर बाएं मुड़ें।"
    "node-gb-s1-1" "stairs-1" None 30;
  instruction "inst3"
    "Walk past Stairs 1 and turn left towards Escalator 1."
    "सीढ़ियों 1 से आगे बढ़ें और एस्केलेटर 1 की ओर बाएं मुड़ें।"
    "stairs-1" "escalator-1" (Some ["node-wh-e1-1"]) 40;
  instruction "inst4"
    "Use Escalator 1 to reach Platform 2."
    "प्लेटफॉर्म 2 तक पहुंचने के लिए एस्केलेटर 1 का उपयोग करें।"
    "escalator-1" "platform-2" (Some ["node-e1-p2-1"; "node-e1-p2-2"]) 50
].

Definition route_gate_b_platform_3 : list PathInstruction.t := [
  instruction "inst1"
    "Walk straight from Entry Gate B for 20 meters."
    "प्रवेश द्वार बी से 20 मीटर सीधा चलें।"
    "gate-b" "node-gb-s1-1" (Some ["node-gb-1"]) 20;
  instruction "inst2"
    "Turn left towards Stairs 1."
    "सीढ़ियों 1 की ओर बाएं मुड़ें।"
    "node-gb-s1-1" "stairs-1" None 30;
  instruction "inst3"
    "Use Stairs 1 to reach Platform 3."
    "प्लेटफॉर्म 3 तक पहुंचने के लिए सीढ़ियों 1 का उपयोग करें।"
    "stairs-1" "platform-3" (Some ["node-s1-p3-1"; "node-s1-p3-2"]) 50
].

Definition route_gate_b_platform_4 : list PathInstruction.t := [
  instruction "inst1"
    "Walk straight from Entry Gate B for 20 meters."
    "प्रवेश द्वार बी से 20 मीटर सीधा चलें।"
    "gate-b" "node-gb-s1-1" (Some ["node-gb-1"]) 20;
  instruction "inst2"
    "Turn left towards Stairs 1."
    "सीढ़ियों 1 की ओर बाएं मुड़ें।"
    "node-gb-s1-1" "stairs-1" None 30;
  instruction "inst3"
    "Use Stairs 1 to reach Platform 4."
    "प्लेटफॉर्म 4 तक पहुंचने के लिए सीढ़ियों 1 का उपयोग करें।"
    "stairs-1" "platform-4" (Some ["node-s1-p4-1"; "node-s1-p4-2"]) 50
].

(** [mockStationLayout] *)
Definition mockStationLayout : StationLayout := {|
  points :=
    map (fun point =>
           StationPoint.mk (StationPoint.id point) (StationPoint.name point)
             (StationPoint.type point) (StationPoint.x point) (StationPoint.y point)
             (Some (getLatLngFromOffset (StationPoint.x point) (StationPoint.y point)))
             (StationPoint.cumulativeDistance point))
        rawStationPoints;
  paths := list_to_map [
    ("gate-a-platform-1", route_gate_a_platform_1);
    ("gate-a-platform-2", route_gate_a_platform_2);
    ("gate-a-platform-3", route_gate_a_platform_3);
    ("gate-a-platform-4", route_gate_a_platform_4);
    ("gate-b-platform-1", route_gate_b_platform_1);
    ("gate-b-platform-2", route_gate_b_platform_2);
    ("gate-b-platform-3", route_gate_b_platform_3);
    ("gate-b-platform-4", route_gate_b_platform_4)
  ]
|}.

Definition mockPNRData : list PNRDetails := [
  mkPNR "1234567890" "12001" "1" "S1, Seat 45" "platform-1";
  mkPNR "0987654321" "12002" "3" "A2, Seat 12" "platform-3";
  mkPNR "1122334455" "12003" "2" "B5, Seat 23" "platform-2";
  mkPNR "5544332211" "12004" "4" "C1, Seat 05" "platform-4"
].

(** [getPNRDetails] *)
Definition getPNRDetails (p : string) : option PNRDetails :=
  find (fun data => bool_decide (pnr data = p)) mockPNRData.

(** ** Route materializer ([src/components/station-map.tsx]) *)

(** What a dangling reference would read.  The references handed out by
    [getPointById] are indices of the table, so it is never read on a
    materialized path. *)
#[global] Instance StationPoint_inhabited : Inhabited StationPoint.t :=
  populate (StationPoint.mk EmptyString None path_node 0 0 None None).

(** [getPointById]: [points.find (p => p.id === id)], as a reference to the
    first object of the table with that id. *)
Definition getPointById (store : list StationPoint.t) (i : string) : option nat :=
  fst <$> list_find (fun p => StationPoint.id p = i) store.

(** [if (p) points.push(p)] *)
Definition push (o : option nat) (pts : list nat) : list nat :=
  match o with
  | Some r => pts ++ [r]
  | None => pts
  end.

(** The body of [instructions.forEach] that collects the points of one
    instruction: its path nodes, then its target. *)
Definition collectInstruction (store : list StationPoint.t) (pts : list nat)
    (instruction : PathInstruction.t) : list nat :=
  let pts1 :=
    match PathInstruction.path_nodes instruction with
    | Some nodes =>
        fold_left (fun acc nodeId => push (getPointById store nodeId) acc) nodes pts
    | None => pts
    end in
  push (getPointById store (PathInstruction.to instruction)) pts1.

Definition collectPoints (store : list StationPoint.t)
    (instructions : list PathInstruction.t) (entryGateId : string) : list nat :=
  fold_left (collectInstruction store) instructions
    (push (getPointById store entryGateId) []).

(** The loop [for (let i = 0; i < points.length; i++)]: [prev] is
    [points[i - 1]] (absent at [i = 0]), [cur] is
    [currentCumulativeDistance] before the iteration, [pts] the points from
    index [i] on. *)
Fixpoint assignCumulative (prev : option nat) (cur : R) (pts : list nat)
    (store : list StationPoint.t) : list StationPoint.t :=
  match pts with
  | [] => store
  | r :: rest =>
      let cur' :=
        match prev with
        | Some q => cur + getDistanceBetweenPoints (store !!! q) (store !!! r)
        | None => cur
        end in
      assignCumulative (Some r) cur' rest
        (alter (StationPoint.set_cumulativeDistance cur') r store)
  end.

(** The body of the second [instructions.forEach]. *)
Definition annotateInstruction (store : list StationPoint.t) (pts : list nat)
    (inst : PathInstruction.t) : PathInstruction.t :=
  match find (fun r => bool_decide (StationPoint.id (store !!! r)
                                    = PathInstruction.to inst)) pts with
  | Some targetPoint =>
      match StationPoint.cumulativeDistance (store !!! targetPoint) with
      | Some d => PathInstruction.set_cumulativeDistanceToTarget d inst
      | None => inst
      end
  | None => inst
  end.

(** What a call leaves behind: the returned array of references, the table
    after the writes to its points, and the instruction objects after the
    writes to them. *)
Record Materialized := mkMaterialized {
  mat_points : list nat;
  mat_store : list StationPoint.t;
  mat_instructions : list PathInstruction.t
}.

(** [generatePathPointsForMap]; [entryGateId] is [string | null], and
    [!entryGateId] holds for [null] and for the empty string. *)
Definition generatePathPointsForMap (store : list StationPoint.t)
    (instructions : list PathInstruction.t) (entryGateId : option string)
  : Materialized :=
  match entryGateId with
  | None => mkMaterialized [] store instructions
  | Some g =>
      if bool_decide (g = EmptyString) then mkMaterialized [] store instructions
      else
        let pts := collectPoints store instructions g in
        let store' := assignCumulative None 0 pts store in
        mkMaterialized pts store'
          (map (annotateInstruction store' pts) instructions)
  end.

(** A point without its annotation: what the materializer never writes. *)
Definition unannotated (p : StationPoint.t) : StationPoint.t :=
  StationPoint.mk (StationPoint.id p) (StationPoint.name p) (StationPoint.type p)
    (StationPoint.x p) (StationPoint.y p) (StationPoint.latLng p) None.

(** [p.cumulativeDistance] read through a reference. *)
Definition cumulativeOf (store : list StationPoint.t) (r : nat) : option R :=
  StationPoint.cumulativeDistance (store !!! r).

(** The ids of a path, in order. *)
Definition idsOf (store : list StationPoint.t) (pts : list nat) : list string :=
  map (fun r => StationPoint.id (store !!! r)) pts.

(** The call in [handleEntryGateSelect]:
    [generatePathPointsForMap(mockStationLayout.paths[pathKey], gateId)],
    with its writes landing in the global table. *)
Definition materializeRoute (layout : StationLayout) (pathKey gateId : string)
  : option (list nat * StationLayout) :=
  match paths layout !! pathKey with
  | Some instructions =>
      let m := generatePathPointsForMap (points layout) instructions (Some gateId) in
      Some (mat_points m,
            mkLayout (mat_store m) (<[pathKey := mat_instructions m]> (paths layout)))
  | None => None
  end.

(** ** The navigation component ([RailwayNavigation]) *)

(** The calls made to the voice announcer returned by [useSpeechSynthesis]. *)
Inductive SpeechCall :=
  | Speak (text : string) (lang : Language)
  | CancelSpeech.

(** What the callback handed to [setInterval] closes over: the values of
    the render in which [startSimulation] was created. *)
Record Timer := mkTimer {
  timer_pathPointsForMap : list nat;
  timer_pathInstructions : list PathInstruction.t;
  timer_language : Language;
  timer_pnrDetails : option PNRDetails
}.

(** The component's [useState] cells, its [useRef] cells, the global table
    [mockStationLayout] and the log of announcer calls. *)
Record App := mkApp {
  pnrDetails : option PNRDetails;
  selectedEntryGateId : option string;
  pathInstructions : list PathInstruction.t;
  pathPointsForMap : list nat;
  error : option string;
  infoMessage : option string;
  userPosition : option LatLng;
  userBearing : option R;
  currentInstructionIndex : nat;
  isSimulating : bool;
  language : Language;
  liveLocationEnabled : bool;
  actualUserLatLng : option LatLng;
  geolocationError : option string;
  watchIdRef : option unit;
  simulationIntervalRef : option Timer;
  totalDistanceTraveledRef : R;
  currentInstructionIdxRef : nat;
  layout : StationLayout;
  speechLog : list SpeechCall
}.

Definition set_pnrDetails (v : option PNRDetails) (s : App) : App :=
  mkApp v (selectedEntryGateId s) (pathInstructions s) (pathPointsForMap s)
    (error s) (infoMessage s) (userPosition s) (userBearing s)
    (currentInstructionIndex s) (isSimulating s) (language s)
    (liveLocationEnabled s) (actualUserLatLng s) (geolocationError s)
    (watchIdRef s) (simulationIntervalRef s) (totalDistanceTraveledRef s)
    (currentInstructionIdxRef s) (layout s) (speechLog s).

Definition set_selectedEntryGateId (v : option string) (s : App) : App :=
  mkApp (pnrDetails s) v (pathInstructions s) (pathPointsForMap s) (error s)
    (infoMessage s) (userPosition s) (userBearing s)
    (currentInstructionIndex s) (isSimulating s) (language s)
    (liveLocationEnabled s) (actualUserLatLng s) (geolocationError s)
    (watchIdRef s) (simulationIntervalRef s) (totalDistanceTraveledRef s)
    (currentInstructionIdxRef s) (layout s) (speechLog s).

Definition set_pathInstructions (v : list PathInstruction.t) (s : App) : App :=
  mkApp (pnrDetails s) (selectedEntryGateId s) v (pathPointsForMap s)
    (error s) (infoMessage s) (userPosition s) (userBearing s)
    (currentInstructionIndex s) (isSimulating s) (language s)
    (liveLocationEnabled s) (actualUserLatLng s) (geolocationError s)
    (watchIdRef s) (simulationIntervalRef s) (totalDistanceTraveledRef s)
    (currentInstructionIdxRef s) (layout s) (speechLog s).

Definition set_pathPointsForMap (v : list nat) (s : App) : App :=
  mkApp (pnrDetails s) (selectedEntryGateId s) (pathInstructions s) v
    (error s) (infoMessage s) (userPosition s) (userBearing s)
    (currentInstructionIndex s) (isSimulating s) (language s)
    (liveLocationEnabled s) (actualUserLatLng s) (geolocationError s)
    (watchIdRef s) (simulationIntervalRef s) (totalDistanceTraveledRef s)
    (currentInstructionIdxRef s) (layout s) (speechLog s).

Definition set_error (v : option string) (s : App) : App :=
  mkApp (pnrDetails s) (selectedEntryGateId s) (pathInstructions s)
    (pathPointsForMap s) v (infoMessage s) (userPosition s) (userBearing s)
    (currentInstructionIndex s) (isSimulating s) (language s)
    (liveLocationEnabled s) (actualUserLatLng s) (geolocationError s)
    (watchIdRef s) (simulationIntervalRef s) (totalDistanceTraveledRef s)
    (currentInstructionIdxRef s) (layout s) (speechLog s).

Definition set_infoMessage (v : option string) (s : App) : App :=
  mkApp (pnrDetails s) (selectedEntryGateId s) (pathInstructions s)
    (pathPointsForMap s) (error s) v (userPosition s) (userBearing s)
    (currentInstructionIndex s) (isSimulating s) (language s)
    (liveLocationEnabled s) (actualUserLatLng s) (geolocationError s)
    (watchIdRef s) (simulationIntervalRef s) (totalDistanceTraveledRef s)
    (currentInstructionIdxRef s) (layout s) (speechLog s).

Definition set_userPosition (v : option LatLng) (s : App) : App :=
  mkApp (pnrDetails s) (selectedEntryGateId s) (pathInstructions s)
    (pathPointsForMap s) (error s) (infoMessage s) v (userBearing s)
    (currentInstructionIndex s) (isSimulating s) (language s)
    (liveLocationEnabled s) (actualUserLatLng s) (geolocationError s)
    (watchIdRef s) (simulationIntervalRef s) (totalDistanceTraveledRef s)
    (currentInstructionIdxRef s) (layout s) (speechLog s).

Definition set_userBearing (v : option R) (s : App) : App :=
  mkApp (pnrDetails s) (selectedEntryGateId s) (pathInstructions s)
    (pathPointsForMap s) (error s) (infoMessage s) (userPosition s) v
    (currentInstructionIndex s) (isSimulating s) (language s)
    (liveLocationEnabled s) (actualUserLatLng s) (geolocationError s)
    (watchIdRef s) (simulationIntervalRef s) (totalDistanceTraveledRef s)
    (currentInstructionIdxRef s) (layout s) (speechLog s).

Definition set_currentInstructionIndex (v : nat) (s : App) : App :=
  mkApp (pnrDetails s) (selectedEntryGateId s) (pathInstructions s)
    (pathPointsForMap s) (error s) (infoMessage s) (userPosition s)
    (userBearing s) v (isSimulating s) (language s) (liveLocationEnabled s)
    (actualUserLatLng s) (geolocationError s) (watchIdRef s)
    (simulationIntervalRef s) (totalDistanceTraveledRef s)
    (currentInstructionIdxRef s) (layout s) (speechLog s).

Definition set_isSimulating (v : bool) (s : App) : App :=
  mkApp (pnrDetails s) (selectedEntryGateId s) (pathInstructions s)
    (pathPointsForMap s) (error s) (infoMessage s) (userPosition s)
    (userBearing s) (currentInstructionIndex s) v (language s)
    (liveLocationEnabled s) (actualUserLatLng s) (geolocationError s)
    (watchIdRef s) (simulationIntervalRef s) (totalDistanceTraveledRef s)
    (currentInstructionIdxRef s) (layout s) (speechLog s).

Definition set_language (v : Language) (s : App) : App :=
  mkApp (pnrDetails s) (selectedEntryGateId s) (pathInstructions s)
    (pathPointsForMap s) (error s) (infoMessage s) (userPosition s)
    (userBearing s) (currentInstructionIndex s) (isSimulating s) v
    (liveLocationEnabled s) (actualUserLatLng s) (geolocationError s)
    (watchIdRef s) (simulationIntervalRef s) (totalDistanceTraveledRef s)
    (currentInstructionIdxRef s) (layout s) (speechLog s).

Definition set_liveLocationEnabled (v : bool) (s : App) : App :=
  mkApp (pnrDetails s) (selectedEntryGateId s) (pathInstructions s)
    (pathPointsForMap s) (error s) (infoMessage s) (userPosition s)
    (userBearing s) (currentInstructionIndex s) (isSimulating s)
    (language s) v (actualUserLatLng s) (geolocationError s) (watchIdRef s)
    (simulationIntervalRef s) (totalDistanceTraveledRef s)
    (currentInstructionIdxRef s) (layout s) (speechLog s).

Definition set_actualUserLatLng (v : option LatLng) (s : App) : App :=
  mkApp (pnrDetails s) (selectedEntryGateId s) (pathInstructions s)
    (pathPointsForMap s) (error s) (infoMessage s) (userPosition s)
    (userBearing s) (currentInstructionIndex s) (isSimulating s)
    (language s) (liveLocationEnabled s) v (geolocationError s)
    (watchIdRef s) (simulationIntervalRef s) (totalDistanceTraveledRef s)
    (currentInstructionIdxRef s) (layout s) (speechLog s).

Definition set_geolocationError (v : option string) (s : App) : App :=
  mkApp (pnrDetails s) (selectedEntryGateId s) (pathInstructions s)
    (pathPointsForMap s) (error s) (infoMessage s) (userPosition s)
    (userBearing s) (currentInstructionIndex s) (isSimulating s)
    (language s) (liveLocationEnabled s) (actualUserLatLng s) v
    (watchIdRef s) (simulationIntervalRef s) (totalDistanceTraveledRef s)
    (currentInstructionIdxRef s) (layout s) (speechLog s).

Definition set_watchIdRef (v : option unit) (s : App) : App :=
  mkApp (pnrDetails s) (selectedEntryGateId s) (pathInstructions s)
    (pathPointsForMap s) (error s) (infoMessage s) (userPosition s)
    (userBearing s) (currentInstructionIndex s) (isSimulating s)
    (language s) (liveLocationEnabled s) (actualUserLatLng s)
    (geolocationError s) v (simulationIntervalRef s)
    (totalDistanceTraveledRef s) (currentInstructionIdxRef s) (layout s)
    (speechLog s).

Definition set_simulationIntervalRef (v : option Timer) (s : App) : App :=
  mkApp (pnrDetails s) (selectedEntryGateId s) (pathInstructions s)
    (pathPointsForMap s) (error s) (infoMessage s) (userPosition s)
    (userBearing s) (currentInstructionIndex s) (isSimulating s)
    (language s) (liveLocationEnabled s) (actualUserLatLng s)
    (geolocationError s) (watchIdRef s) v (totalDistanceTraveledRef s)
    (currentInstructionIdxRef s) (layout s) (speechLog s).

Definition set_totalDistanceTraveledRef (v : R) (s : App) : App :=
  mkApp (pnrDetails s) (selectedEntryGateId s) (pathInstructions s)
    (pathPointsForMap s) (error s) (infoMessage s) (userPosition s)
    (userBearing s) (currentInstructionIndex s) (isSimulating s)
    (language s) (liveLocationEnabled s) (actualUserLatLng s)
    (geolocationError s) (watchIdRef s) (simulationIntervalRef s) v
    (currentInstructionIdxRef s) (layout s) (speechLog s).

Definition set_currentInstructionIdxRef (v : nat) (s : App) : App :=
  mkApp (pnrDetails s) (selectedEntryGateId s) (pathInstructions s)
    (pathPointsForMap s) (error s) (infoMessage s) (userPosition s)
    (userBearing s) (currentInstructionIndex s) (isSimulating s)
    (language s) (liveLocationEnabled s) (actualUserLatLng s)
    (geolocationError s) (watchIdRef s) (simulationIntervalRef s)
    (totalDistanceTraveledRef s) v (layout s) (speechLog s).

Definition set_layout (v : StationLayout) (s : App) : App :=
  mkApp (pnrDetails s) (selectedEntryGateId s) (pathInstructions s)
    (pathPointsForMap s) (error s) (infoMessage s) (userPosition s)
    (userBearing s) (currentInstructionIndex s) (isSimulating s)
    (language s) (liveLocationEnabled s) (actualUserLatLng s)
    (geolocationError s) (watchIdRef s) (simulationIntervalRef s)
    (totalDistanceTraveledRef s) (currentInstructionIdxRef s) v
    (speechLog s).

Definition set_speechLog (v : list SpeechCall) (s : App) : App :=
  mkApp (pnrDetails s) (selectedEntryGateId s) (pathInstructions s)
    (pathPointsForMap s) (error s) (infoMessage s) (userPosition s)
    (userBearing s) (currentInstructionIndex s) (isSimulating s)
    (language s) (liveLocationEnabled s) (actualUserLatLng s)
    (geolocationError s) (watchIdRef s) (simulationIntervalRef s)
    (totalDistanceTraveledRef s) (currentInstructionIdxRef s) (layout s) v.

#[global] Instance PNRDetails_eq_dec : EqDecision PNRDetails.
Proof. solve_decision. Defined.

(** [speak] and [cancel] of [useSpeechSynthesis], as seen by the component. *)
Definition speak (text : string) (lang : Language) (s : App) : App :=
  set_speechLog (speechLog s ++ [Speak text lang]) s.

Definition cancelSpeech (s : App) : App :=
  set_speechLog (speechLog s ++ [CancelSpeech]) s.

(** [language === "en-US" ? inst.text : inst.hindiText] *)
Definition instructionText (lang : Language) (inst : PathInstruction.t) : string :=
  match lang with
  | en_US => PathInstruction.text inst
  | hi_IN => PathInstruction.hindiText inst
  end.

(** The template literal spoken at the destination; [pnrDetails?.f] of an
    absent record prints as [undefined]. *)
Definition destinationMessage (lang : Language) (details : option PNRDetails)
  : string :=
  let field f := match details with Some d => f d | None => "undefined" end in
  match lang with
  | en_US =>
      String.append "You have reached Platform "
        (String.append (field platformNumber)
           (String.append ", Coach " (String.append (field coachDetails) ".")))
  | hi_IN =>
      String.append "आप प्लेटफॉर्म "
        (String.append (field platformNumber)
           (String.append ", कोच "
              (String.append (field coachDetails) " पर पहुंच गए हैं।")))
  end.

Definition simulationSpeed : R := 2.
Definition simulationIntervalDuration : R := 50.

(** [distanceToAdvance], the same on every tick. *)
Definition distanceToAdvance : R :=
  simulationSpeed * (simulationIntervalDuration / 1000).

(** [cancelSimulation] *)
Definition cancelSimulation (s : App) : App :=
  let s1 :=
    match simulationIntervalRef s with
    | Some _ => set_simulationIntervalRef None s
    | None => s
    end in
  set_userBearing None (cancelSpeech (set_isSimulating false s1)).

(** [pathPointsForMap[0]?.latLng || null] *)
Definition firstLatLng (store : list StationPoint.t) (pts : list nat)
  : option LatLng :=
  match pts with
  | r :: _ => StationPoint.latLng (store !!! r)
  | [] => None
  end.

(** The branch [segmentLength > 0 ? distanceInThisSegment / segmentLength : 0]. *)
Definition fractionOf (traveled segmentStartDist segmentEndDist : R) : R :=
  let distanceInThisSegment := traveled - segmentStartDist in
  let segmentLength := segmentEndDist - segmentStartDist in
  if Rlt_dec 0 segmentLength then distanceInThisSegment / segmentLength else 0.

(** The segment search of the timer callback: the first pair of consecutive
    points whose cumulative distances enclose [traveled], with the fraction
    travelled inside it. *)
Fixpoint locateSegment (store : list StationPoint.t) (pts : list nat)
    (traveled : R) : option (nat * nat * R) :=
  match pts with
  | p1 :: rest =>
      match rest with
      | p2 :: _ =>
          let segmentStartDist := default 0 (cumulativeOf store p1) in
          let segmentEndDist := default 0 (cumulativeOf store p2) in
          if Rge_dec traveled segmentStartDist then
            if Rle_dec traveled segmentEndDist then
              Some (p1, p2, fractionOf traveled segmentStartDist segmentEndDist)
            else locateSegment store rest traveled
          else locateSegment store rest traveled
      | [] => None
      end
  | [] => None
  end.

(** [pathPointsForMap[pathPointsForMap.length - 1]?.cumulativeDistance || 0] *)
Definition totalPathLength (store : list StationPoint.t) (pts : list nat) : R :=
  default 0 (last pts ≫= cumulativeOf store).

(** The position and bearing update of a tick. *)
Definition moveUser (store : list StationPoint.t) (pts : list nat) (s : App) : App :=
  match locateSegment store pts (totalDistanceTraveledRef s) with
  | Some (p1, p2, fractionInSegment) =>
      match StationPoint.latLng (store !!! p1), StationPoint.latLng (store !!! p2) with
      | Some a, Some b =>
          set_userBearing (Some (calculateBearing (lat a) (lng a) (lat b) (lng b)))
            (set_userPosition (Some (getIntermediateLatLng a b fractionInSegment)) s)
      | _, _ => s
      end
  | None => s
  end.

(** The instruction check of a tick. *)
Definition advanceInstruction (t : Timer) (s : App) : App :=
  match timer_pathInstructions t !! currentInstructionIdxRef s with
  | Some currentInstruction =>
      match PathInstruction.cumulativeDistanceToTarget currentInstruction with
      | Some target =>
          if Rge_dec (totalDistanceTraveledRef s) target then
            let idx := S (currentInstructionIdxRef s) in
            let s1 := set_currentInstructionIndex idx
                        (set_currentInstructionIdxRef idx s) in
            match timer_pathInstructions t !! idx with
            | Some next => speak (instructionText (timer_language t) next)
                             (timer_language t) s1
            | None => s1
            end
          else s
      | None => s
      end
  | None => s
  end.

(** The callback handed to [setInterval]. *)
Definition tick (t : Timer) (s : App) : App :=
  let store := points (layout s) in
  let s1 := set_totalDistanceTraveledRef
              (totalDistanceTraveledRef s + distanceToAdvance) s in
  let total := totalPathLength store (timer_pathPointsForMap t) in
  if Rge_dec (totalDistanceTraveledRef s1) total then
    cancelSimulation
      (speak (destinationMessage (timer_language t) (timer_pnrDetails t))
         (timer_language t)
         (set_totalDistanceTraveledRef total s1))
  else
    advanceInstruction t (moveUser store (timer_pathPointsForMap t) s1).

(** The interval fires only while it is registered. *)
Definition fire (s : App) : App :=
  match simulationIntervalRef s with
  | Some t => tick t s
  | None => s
  end.

(** [n] firings of the interval. *)
Definition ticks (n : nat) (s : App) : App := Nat.iter n fire s.

(** [startSimulation] *)
Definition startSimulation (s : App) : App :=
  if isSimulating s || bool_decide (length (pathPointsForMap s) < 2)%nat
     || liveLocationEnabled s
  then s
  else
    let s1 := set_infoMessage None (set_isSimulating true s) in
    let s2 :=
      if bool_decide (userPosition s = None)
         || (if Req_dec_T (totalDistanceTraveledRef s1) 0 then true else false)
      then
        set_userBearing None
          (set_userPosition (firstLatLng (points (layout s)) (pathPointsForMap s))
             (set_currentInstructionIdxRef 0%nat
                (set_totalDistanceTraveledRef 0 s1)))
      else s1 in
    let s3 :=
      match pathInstructions s !! currentInstructionIdxRef s2 with
      | Some inst => speak (instructionText (language s) inst) (language s) s2
      | None => s2
      end in
    set_simulationIntervalRef
      (Some (mkTimer (pathPointsForMap s) (pathInstructions s) (language s)
               (pnrDetails s)))
      s3.

(** A JavaScript string used as a condition: false when empty. *)
Definition truthy (o : option string) : bool :=
  match o with
  | Some str => negb (bool_decide (str = EmptyString))
  | None => false
  end.

(** The state left when no route is shown. *)
Definition clearRoute (s : App) : App :=
  set_currentInstructionIndex 0%nat
    (set_actualUserLatLng None
       (set_userBearing None
          (set_userPosition None
             (set_pathPointsForMap [] (set_pathInstructions [] s))))).

(** [handleEntryGateSelect] *)
Definition handleEntryGateSelect (gateId : string) (s : App) : App :=
  let s1 := set_infoMessage None
              (set_liveLocationEnabled false
                 (cancelSimulation (set_selectedEntryGateId (Some gateId) s))) in
  match pnrDetails s with
  | Some details =>
      if truthy (Some gateId) then
        let pathKey :=
          String.append gateId (String.append "-" (destinationPlatformId details)) in
        match paths (layout s) !! pathKey with
        | Some instructions =>
            let m := generatePathPointsForMap (points (layout s)) instructions
                       (Some gateId) in
            set_error None
              (set_currentInstructionIndex 0%nat
                 (set_actualUserLatLng None
                    (set_userBearing None
                       (set_userPosition (firstLatLng (mat_store m) (mat_points m))
                          (set_pathPointsForMap (mat_points m)
                             (set_pathInstructions (mat_instructions m)
                                (set_layout
                                   (mkLayout (mat_store m)
                                      (<[pathKey := mat_instructions m]>
                                         (paths (layout s))))
                                   s1)))))))
        | None =>
            set_error
              (Some "No path found for the selected gate and platform. Please try another gate.")
              (clearRoute s1)
        end
      else clearRoute s1
  | None => clearRoute s1
  end.

(** [handlePNRLookup]; [p] is the content of the PNR input box. *)
Definition handlePNRLookup (p : string) (s : App) : App :=
  let s1 := set_liveLocationEnabled false
              (cancelSimulation (set_infoMessage None (set_error None s))) in
  match getPNRDetails p with
  | Some details =>
      clearRoute (set_selectedEntryGateId None (set_pnrDetails (Some details) s1))
  | None =>
      set_error
        (Some "PNR not found. Please try a mock PNR like 1234567890, 0987654321, 1122334455, or 5544332211.")
        (set_pnrDetails None s1)
  end.

(** [handleRecalculateRoute] *)
Definition handleRecalculateRoute (s : App) : App :=
  let s1 := set_error None (set_liveLocationEnabled false (cancelSimulation s)) in
  match selectedEntryGateId s, pnrDetails s with
  | Some g, Some _ =>
      if truthy (Some g) then
        set_infoMessage (Some "Route recalculated from your last known position.")
          (handleEntryGateSelect g s1)
      else
        set_error (Some "Please select an entry gate first to recalculate route.") s1
  | _, _ =>
      set_error (Some "Please select an entry gate first to recalculate route.") s1
  end.

(** The effect on [liveLocationEnabled]; [supported] says whether
    [navigator.geolocation] exists. *)
Definition liveLocationEffect (supported : bool) (s : App) : App :=
  if liveLocationEnabled s then
    let s1 := cancelSimulation (set_infoMessage None (set_geolocationError None s)) in
    if supported then set_watchIdRef (Some ()) s1
    else set_geolocationError
           (Some "Geolocation is not supported by your browser.") s1
  else
    set_userBearing None
      (set_geolocationError None
         (set_actualUserLatLng None (set_watchIdRef None s))).

(** The effect on [pnrDetails, selectedEntryGateId]. *)
Definition resetEffect (s : App) : App :=
  set_currentInstructionIndex 0%nat
    (set_currentInstructionIdxRef 0%nat (set_totalDistanceTraveledRef 0 s)).

(** The effects that run after a render, each only when one of its
    dependencies differs from the previous render: [prev] is the state
    before the event, [next] the state the handler left.  The source also
    lists [userPosition] among the dependencies of the first effect and has
    one more effect that mirrors the position shown on the map; running
    them writes neither the two refs of the simulator nor anything a
    cancellation has not already cleared, and they are left out. *)
Definition afterRender (supported : bool) (prev next : App) : App :=
  let s1 :=
    if bool_decide (liveLocationEnabled prev = liveLocationEnabled next)
    then next else liveLocationEffect supported next in
  if bool_decide (pnrDetails prev = pnrDetails next
                  ∧ selectedEntryGateId prev = selectedEntryGateId next)
  then s1 else resetEffect s1.

(** The events that cancel a running simulation: the pause button, the
    live-location switch ([onCheckedChange] receives the negated state), a
    gate selection, a PNR lookup and the recalculate button. *)
Inductive CancelEvent :=
  | Pause
  | ToggleLiveLocation
  | SelectEntryGate (gateId : string)
  | LookupPNR (p : string)
  | RecalculateRoute.

Definition handle (e : CancelEvent) (s : App) : App :=
  match e with
  | Pause => cancelSimulation s
  | ToggleLiveLocation => set_liveLocationEnabled (negb (liveLocationEnabled s)) s
  | SelectEntryGate g => handleEntryGateSelect g s
  | LookupPNR p => handlePNRLookup p s
  | RecalculateRoute => handleRecalculateRoute s
  end.

(** An event, then the effects of the render it causes. *)
Definition dispatch (supported : bool) (e : CancelEvent) (s : App) : App :=
  afterRender supported s (handle e s).

(** ** The scenario of gate A and platform 1 *)

(** The component as mounted. *)
Definition initialApp : App :=
  mkApp None None [] [] None None None None 0 false en_US false None None
    None None 0 0 mockStationLayout [].

(** PNR 1234567890 looked up, then gate A selected. *)
Definition atGateA : App :=
  dispatch true (SelectEntryGate "gate-a")
    (dispatch true (LookupPNR "1234567890") initialApp).

(** The start button pressed. *)
Definition walking : App := startSimulation atGateA.

(** The materialization that the gate selection performs. *)
Definition materializedGateA : Materialized :=
  generatePathPointsForMap (points mockStationLayout) route_gate_a_platform_1
    (Some "gate-a").

(** The closure of the interval started at gate A. *)
Definition timerGateA : Timer :=
  mkTimer (mat_points materializedGateA) (mat_instructions materializedGateA)
    en_US (getPNRDetails "1234567890").

(** A route that walks to the first node and back to the gate. *)
Definition route_there_and_back : list PathInstruction.t := [
  instruction "inst1" "Walk to the first node." "Walk to the first node."
    "gate-a" "node-ga-1" None 20;
  instruction "inst2" "Walk back to the gate." "Walk back to the gate."
    "node-ga-1" "gate-a" None 20
].

(** ** Predicates used in the statements *)

(** A reference whose object carries an annotation. *)
Definition isAnnotated (store : list StationPoint.t) (r : nat) : Prop :=
  exists d, cumulativeOf store r = Some d.

(** What every cancellation leaves behind. *)
Definition stopped (s s' : App) : Prop :=
  simulationIntervalRef s' = None
  /\ isSimulating s' = false
  /\ userBearing s' = None
  /\ exists n, speechLog s' = speechLog s ++ replicate (S n) CancelSpeech.

(** The accumulator and the instruction index of the simulator are as they
    were. *)
Definition sameProgress (s s' : App) : Prop :=
  totalDistanceTraveledRef s' = totalDistanceTraveledRef s
  /\ currentInstructionIdxRef s' = currentInstructionIdxRef s.

(** The interval is registered with closure [t] and the table is [store]. *)
Definition runningWith (t : Timer) (store : list StationPoint.t) (s : App) : Prop :=
  simulationIntervalRef s = Some t
  /\ isSimulating s = true
  /\ points (layout s) = store.

(** The state of the walk after [n] ticks, while it lasts. *)
Definition walkingAt (n k : nat) (s : App) : Prop :=
  runningWith timerGateA (mat_store materializedGateA) s
  /\ currentInstructionIdxRef s = k
  /\ currentInstructionIndex s = k
  /\ totalDistanceTraveledRef s = INR n / 10.

(** ** The rest of the component and its collaborators *)

#[global] Instance PointType_eq_dec : EqDecision PointType.
Proof. solve_decision. Defined.

(** [entryGates]: the options of the gate selector. *)
Definition entryGates (layout : StationLayout) : list StationPoint.t :=
  filter (fun p => StationPoint.type p = gate) (points layout).

(** An instruction without its annotation: what the materializer never
    writes. *)
Definition unannotatedInstruction (i : PathInstruction.t) : PathInstruction.t :=
  PathInstruction.mk (PathInstruction.id i) (PathInstruction.text i)
    (PathInstruction.hindiText i) (PathInstruction.from i) (PathInstruction.to i)
    (PathInstruction.path_nodes i) (PathInstruction.distance i) None.

(** The ids an instruction list asks for, in the order the materializer
    visits them: the gate, then for each instruction its path nodes and its
    target. *)
Definition requestedIds (instructions : list PathInstruction.t) (g : string)
  : list string :=
  g :: flat_map (fun inst =>
                   default [] (PathInstruction.path_nodes inst)
                   ++ [PathInstruction.to inst]) instructions.

(** *** The live-location adapter *)

(** [error.code] of a [GeolocationPositionError], as the [switch] tells the
    codes apart. *)
Inductive GeolocationErrorCode :=
  | PERMISSION_DENIED
  | POSITION_UNAVAILABLE
  | TIMEOUT
  | OTHER_CODE.

(** The message built by the error callback of [watchPosition]. *)
Definition geolocationErrorMessage (code : GeolocationErrorCode) (message : string)
  : string :=
  match code with
  | PERMISSION_DENIED =>
      "Location access denied. Please enable location services for this site."
  | POSITION_UNAVAILABLE => "Location information is unavailable."
  | TIMEOUT => "The request to get user location timed out."
  | OTHER_CODE => String.append "An unknown error occurred: " message
  end.

(** The success callback of [watchPosition]. *)
Definition onGeolocationSuccess (newLatLng : LatLng) (s : App) : App :=
  set_userBearing
    (match userPosition s with
     | Some u => Some (calculateBearing (lat u) (lng u) (lat newLatLng) (lng newLatLng))
     | None => None
     end)
    (set_geolocationError None (set_actualUserLatLng (Some newLatLng) s)).

(** The error callback of [watchPosition]. *)
Definition onGeolocationError (code : GeolocationErrorCode) (message : string)
    (s : App) : App :=
  set_userBearing None
    (set_actualUserLatLng None
       (set_geolocationError (Some (geolocationErrorMessage code message)) s)).

(** The effect on [liveLocationEnabled, actualUserLatLng, pathPointsForMap,
    isSimulating, userPosition] that mirrors the position shown. *)
Definition positionEffect (s : App) : App :=
  match liveLocationEnabled s, actualUserLatLng s with
  | true, Some actual => set_userPosition (Some actual) s
  | live, _ =>
      if negb live && bool_decide (0 < length (pathPointsForMap s))%nat then
        if negb (isSimulating s) && bool_decide (userPosition s = None) then
          set_userPosition
            (firstLatLng (points (layout s)) (pathPointsForMap s)) s
        else s
      else set_userPosition None s
  end.

(** *** Everything that can happen to the component *)

(** The events of the component: the cancelling events, the start button,
    a firing of the interval, the language switch, a fix or an error
    delivered to the position watch, and a re-run of the live-location
    effect (it also depends on [userPosition], so it runs again whenever
    the position shown changes). *)
Inductive Event :=
  | Cancelling (e : CancelEvent)
  | Start
  | Interval
  | ChangeLanguage (l : Language)
  | Fix (p : LatLng)
  | FixError (code : GeolocationErrorCode) (message : string)
  | LiveEffectAgain.

(** One event, then the effects of the render it causes, the mirroring
    effect last (it writes [userPosition] only, and running it again
    changes nothing).  The callbacks of the watch only run while the watch
    is registered. *)
Definition step (supported : bool) (ev : Event) (s : App) : App :=
  match ev with
  | Cancelling e => positionEffect (dispatch supported e s)
  | Start => positionEffect (startSimulation s)
  | Interval => positionEffect (fire s)
  | ChangeLanguage l => set_language l s
  | Fix p =>
      match watchIdRef s with
      | Some _ => positionEffect (onGeolocationSuccess p s)
      | None => s
      end
  | FixError code message =>
      match watchIdRef s with
      | Some _ => positionEffect (onGeolocationError code message s)
      | None => s
      end
  | LiveEffectAgain => positionEffect (liveLocationEffect supported s)
  end.

(** The states the component can be in.  Every event is taken in every
    state: the page shows fewer controls than that (the gate selector needs
    a PNR record, the buttons a route), so the states the page can produce
    are among these. *)
Inductive reachable (supported : bool) : App -> Prop :=
  | reachable_init : reachable supported initialApp
  | reachable_step (ev : Event) (s : App) :
      reachable supported s -> reachable supported (step supported ev s).

(** *** The voice announcer ([src/hooks/use-speech-synthesis.ts]) *)

(** What [speak] reads of a [SpeechSynthesisVoice]. *)
Record Voice := mkVoice {
  voice_name : string;
  voice_lang : string;
  voice_localService : bool
}.

Definition languageTag (l : Language) : string :=
  match l with
  | en_US => "en-US"
  | hi_IN => "hi-IN"
  end.

(** The voice [speak] gives an utterance: a local voice of the language, or
    else any voice of the language, or else [null]. *)
Definition selectVoice (voices : list Voice) (lang : Language) : option Voice :=
  match find (fun voice => bool_decide (voice_lang voice = languageTag lang)
                           && voice_localService voice) voices with
  | Some selectedVoice => Some selectedVoice
  | None => find (fun voice => bool_decide (voice_lang voice = languageTag lang)) voices
  end.

Record Utterance := mkUtterance {
  utterance_text : string;
  utterance_lang : string;
  utterance_voice : option Voice
}.

(** The queue of [window.speechSynthesis] after one call of the hook;
    [synthesis] says whether [window.speechSynthesis] exists.
    [speechSynthesis.cancel()] empties the queue, and [speak] cancels before
    it appends its utterance.  (Utterances also leave the queue when they
    have been spoken; the queue computed here is what has been submitted
    and not cancelled.) *)
Definition hookCall (synthesis : bool) (voices : list Voice)
    (queue : list Utterance) (c : SpeechCall) : list Utterance :=
  if synthesis then
    match c with
    | Speak text lang =>
        [mkUtterance text (languageTag lang) (selectVoice voices lang)]
    | CancelSpeech => []
    end
  else queue.

Definition submitted (synthesis : bool) (voices : list Voice)
    (log : list SpeechCall) : list Utterance :=
  fold_left (hookCall synthesis voices) log [].

(** *** The Mapbox renderer *)

Record MapMarker := mkMarker {
  marker_key : string;
  marker_icon : string;
  marker_color : string;
  marker_label : option string;
  marker_selected : bool;
  marker_at : LatLng;
  marker_click : option string
}.

(** The body of [layout.points.forEach] in the effect that draws the
    markers (once the map has loaded): the marker of one point, if it gets
    one; [marker_click] is the argument its click handler passes to
    [onSelectEntryGate]. *)
Definition mapboxMarker (selectedEntryGateId destinationPlatformId : option string)
    (point : StationPoint.t) : option MapMarker :=
  match StationPoint.latLng point with
  | None => None
  | Some at_ =>
      let i := StationPoint.id point in
      match StationPoint.type point with
      | gate =>
          Some (mkMarker i "DoorOpen" "#33aa33" (StationPoint.name point)
                  (bool_decide (selectedEntryGateId = Some i)) at_ (Some i))
      | platform =>
          Some (mkMarker i "TrainFront" "#66aaff" (StationPoint.name point)
                  (bool_decide (destinationPlatformId = Some i)) at_ None)
      | poi =>
          if bool_decide (i = "escalator-1") then
            Some (mkMarker i "Escalator" "#ff9933" (StationPoint.name point)
                    false at_ None)
          else if bool_decide (i = "stairs-1") then
            Some (mkMarker i "Stairs" "#ff9933" (StationPoint.name point)
                    false at_ None)
          else None
      | path_node => None
      end
  end.

Definition mapboxMarkers (layout : StationLayout)
    (selectedEntryGateId destinationPlatformId : option string) : list MapMarker :=
  omap (mapboxMarker selectedEntryGateId destinationPlatformId) (points layout).

(** The gate ids the user interface can pass to [handleEntryGateSelect]:
    the options of the selector and the click handlers of the markers. *)
Definition offeredGates (s : App) : list string :=
  map StationPoint.id (entryGates (layout s))
  ++ omap marker_click
       (mapboxMarkers (layout s) (selectedEntryGateId s)
          (destinationPlatformId <$> pnrDetails s)).

(** ** Predicates used in the statements about the rest of the code *)

(** A path whose first point is at distance 0 and whose every next point is
    at the distance of the point before it plus the length of the segment
    between them. *)
Definition chained (store : list StationPoint.t) (pts : list nat) : Prop :=
  (forall r, head pts = Some r -> cumulativeOf store r = Some 0)
  /\ (forall i p q, pts !! i = Some p -> pts !! S i = Some q ->
        exists d,
          cumulativeOf store p = Some d
          /\ cumulativeOf store q
             = Some (d + getDistanceBetweenPoints (store !!! p) (store !!! q))).

(** The points of a path carry the coordinates of their offsets, as the
    points of [mockStationLayout] do. *)
Definition located (store : list StationPoint.t) (pts : list nat) : Prop :=
  forall r, r ∈ pts ->
    StationPoint.latLng (store !!! r)
    = Some (getLatLngFromOffset (StationPoint.x (store !!! r))
              (StationPoint.y (store !!! r))).

(** The table, the route, the selection and the settings are as they
    were. *)
Definition sameRoute (s s' : App) : Prop :=
  layout s' = layout s
  /\ pathPointsForMap s' = pathPointsForMap s
  /\ pathInstructions s' = pathInstructions s
  /\ pnrDetails s' = pnrDetails s
  /\ selectedEntryGateId s' = selectedEntryGateId s
  /\ language s' = language s
  /\ liveLocationEnabled s' = liveLocationEnabled s
  /\ actualUserLatLng s' = actualUserLatLng s
  /\ watchIdRef s' = watchIdRef s
  /\ error s' = error s
  /\ geolocationError s' = geolocationError s
  /\ infoMessage s' = infoMessage s.

(** The timer and the position watch are held exactly while they are in
    use: the interval is registered exactly while [isSimulating] is set and
    never while live location is on; the watch is registered only while
    live location is on, and no fix is kept once it is off. *)
Definition handlesHeld (s : App) : Prop :=
  (isSimulating s = true <-> is_Some (simulationIntervalRef s))
  /\ (liveLocationEnabled s = true -> simulationIntervalRef s = None)
  /\ (is_Some (watchIdRef s) -> liveLocationEnabled s = true)
  /\ (liveLocationEnabled s = false -> actualUserLatLng s = None).

(** The closure of a registered interval holds the route and the PNR
    record of the current render, and that route has two points at
    least. *)
Definition closureCurrent (s : App) : Prop :=
  forall t, simulationIntervalRef s = Some t ->
    timer_pathPointsForMap t = pathPointsForMap s
    /\ timer_pathInstructions t = pathInstructions s
    /\ timer_pnrDetails t = pnrDetails s
    /\ (2 <= length (pathPointsForMap s))%nat.

(** The global table holds the points and the routes it was created with,
    up to their annotations, and the path shown refers to points of the
    table. *)
Definition tableIntact (s : App) : Prop :=
  unannotated <$> points (layout s) = unannotated <$> points mockStationLayout
  /\ (map unannotatedInstruction <$> paths (layout s)
      = map unannotatedInstruction <$> paths mockStationLayout)
  /\ Forall (fun r => (r < length (points (layout s)))%nat) (pathPointsForMap s).

(** The route on the screen is empty, or it is a path of at least two
    points without repetition whose points carry coordinates and the
    distance walked up to them. *)
Definition routeShown (s : App) : Prop :=
  pathPointsForMap s = []
  \/ (NoDup (pathPointsForMap s)
      /\ (2 <= length (pathPointsForMap s))%nat
      /\ chained (points (layout s)) (pathPointsForMap s)
      /\ located (points (layout s)) (pathPointsForMap s)).

(** * Proofs *)

(** ** Geometry *)





Lemma atan2_bounds (y x : R) : - PI < atan2 y x <= PI.
Proof.
  pose proof PI_RGT_0 as Hpi.
  pose proof (atan_bound (y / x)) as [Hlo Hhi].
  unfold atan2.
  destruct (Rlt_dec 0 x) as [Hx|Hx]; [lra|].
  destruct (Rlt_dec x 0) as [Hx'|Hx'].
  - destruct (Rle_dec 0 y) as [Hy|Hy].
    + assert (y / x <= 0) as Hq.
      { unfold Rdiv. pose proof (Rinv_lt_0_compat x Hx'). nra. }
      assert (atan (y / x) <= 0) as Ha.
      { rewrite <- atan_0. destruct Hq as [Hq|Hq].
        - left. now apply atan_increasing.
        - rewrite Hq. right. reflexivity. }
      lra.
    + assert (0 < y / x) as Hq.
      { unfold Rdiv. pose proof (Rinv_lt_0_compat x Hx'). nra. }
      assert (0 < atan (y / x)) as Ha.
      { rewrite <- atan_0. now apply atan_increasing. }
      lra.
  - destruct (Rlt_dec 0 y); [lra|]. destruct (Rlt_dec y 0); lra.
Qed.

Lemma trunc_nonneg (r : R) : 0 <= r -> trunc r = Int_part r.
Proof. intros Hr. unfold trunc. destruct (Rle_dec 0 r); [reflexivity|contradiction]. Qed.

Lemma js_rem_bounds (a b : R) : 0 <= a -> 0 < b -> 0 <= js_rem a b < b.
Proof.
  intros Ha Hb. unfold js_rem.
  assert (0 <= a / b) as Hq.
  { unfold Rdiv. apply Rmult_le_pos; [lra|]. left. now apply Rinv_0_lt_compat. }
  rewrite (trunc_nonneg _ Hq).
  destruct (base_Int_part (a / b)) as [Hlo Hhi].
  set (k := IZR (Int_part (a / b))) in *.
  assert (a = b * (a / b)) as Hab by (field; lra).
  split.
  - assert (b * k <= b * (a / b)) by (apply Rmult_le_compat_l; lra). lra.
  - assert (b * (a / b) < b * (k + 1)) by (apply Rmult_lt_compat_l; lra). lra.
Qed.

Lemma js_rem_self (b : R) : 0 < b -> js_rem b b = 0.
Proof.
  intros Hb. unfold js_rem.
  replace (b / b) with 1 by (field; lra).
  rewrite trunc_nonneg by lra.
  replace (Int_part 1) with 1%Z.
  - simpl. ring.
  - apply Int_part_spec. simpl. lra.
Qed.

Lemma toDegrees_bounds (t : R) : - PI < t <= PI -> -180 < toDegrees t <= 180.
Proof.
  intros [Hlo Hhi]. pose proof PI_RGT_0 as Hpi. unfold toDegrees.
  assert (/ PI > 0) as Hinv by (now apply Rinv_0_lt_compat).
  split.
  - apply Rmult_lt_reg_r with PI; [lra|].
    replace (t * 180 / PI * PI) with (t * 180) by (field; lra). lra.
  - apply Rmult_le_reg_r with PI; [lra|].
    replace (t * 180 / PI * PI) with (t * 180) by (field; lra). lra.
Qed.

(** C8.  For all latitudes and longitudes the bearing lies in the half-open
    interval from 0 to 360, and the bearing from a point to itself is 0: the
    quotient [y / x] is only formed when [x] is not zero. *)
Theorem calculateBearing_range :
  (forall lat1 lng1 lat2 lng2 : R,
      0 <= calculateBearing lat1 lng1 lat2 lng2 < 360)
  /\ (forall la lo : R, calculateBearing la lo la lo = 0).
Proof.
  split.
  - intros. unfold calculateBearing.
    match goal with |- context [atan2 ?y ?x] =>
      pose proof (toDegrees_bounds _ (atan2_bounds y x)) as Hd end.
    apply js_rem_bounds; lra.
  - intros. unfold calculateBearing.
    replace (lo - lo) with 0 by ring.
    replace (toRadians 0) with 0 by (unfold toRadians; field).
    rewrite sin_0, cos_0.
    replace (0 * cos (toRadians la)) with 0 by ring.
    replace (cos (toRadians la) * sin (toRadians la)
             - sin (toRadians la) * cos (toRadians la) * 1) with 0 by ring.
    assert (atan2 0 0 = 0) as ->.
    { unfold atan2. repeat (destruct (Rlt_dec _ _); try lra). }
    replace (toDegrees 0 + 360) with 360 by (unfold toDegrees; field; apply PI_neq0).
    apply js_rem_self. lra.
Qed.

(** ** The route materializer *)

(** *** The materializer never writes anything but the annotation *)

Lemma set_cumulativeDistance_unannotated (d : R) (p : StationPoint.t) :
  StationPoint.set_cumulativeDistance d (unannotated p)
  = StationPoint.set_cumulativeDistance d p.
Proof. reflexivity. Qed.

Lemma unannotated_set_cumulativeDistance (d : R) (p : StationPoint.t) :
  unannotated (StationPoint.set_cumulativeDistance d p) = unannotated p.
Proof. reflexivity. Qed.

Lemma getDistanceBetweenPoints_unannotated (p q : StationPoint.t) :
  getDistanceBetweenPoints (unannotated p) (unannotated q)
  = getDistanceBetweenPoints p q.
Proof. reflexivity. Qed.

Lemma getDistanceBetweenPoints_nonneg (p q : StationPoint.t) :
  0 <= getDistanceBetweenPoints p q.
Proof. unfold getDistanceBetweenPoints. apply sqrt_pos. Qed.

Lemma unannotated_alter (d : R) (r : nat) (store : list StationPoint.t) :
  unannotated <$> alter (StationPoint.set_cumulativeDistance d) r store
  = unannotated <$> store.
Proof.
  revert r. induction store as [|p store IH]; intros [|r]; simpl; try reflexivity.
  f_equal. apply IH.
Qed.

Lemma unannotated_assignCumulative (pts : list nat) :
  forall (prev : option nat) (cur : R) (store : list StationPoint.t),
    unannotated <$> assignCumulative prev cur pts store = unannotated <$> store.
Proof.
  induction pts as [|r rest IH]; intros prev cur store; simpl; [reflexivity|].
  rewrite IH. apply unannotated_alter.
Qed.

Lemma unannotated_lookup (s0 s1 : list StationPoint.t) (r : nat) :
  unannotated <$> s0 = unannotated <$> s1 ->
  unannotated <$> (s0 !! r) = unannotated <$> (s1 !! r).
Proof. intros H. rewrite <- !list_lookup_fmap. now rewrite H. Qed.

Lemma unannotated_lookup_total (s0 s1 : list StationPoint.t) (r : nat) :
  unannotated <$> s0 = unannotated <$> s1 ->
  unannotated (s0 !!! r) = unannotated (s1 !!! r).
Proof.
  intros H. pose proof (unannotated_lookup s0 s1 r H) as Hr.
  rewrite !list_lookup_total_alt.
  destruct (s0 !! r), (s1 !! r); simpl in *; congruence.
Qed.

Lemma getDistanceBetweenPoints_store (s0 s1 : list StationPoint.t) (q r : nat) :
  unannotated <$> s0 = unannotated <$> s1 ->
  getDistanceBetweenPoints (s0 !!! q) (s0 !!! r)
  = getDistanceBetweenPoints (s1 !!! q) (s1 !!! r).
Proof.
  intros H.
  rewrite <- (getDistanceBetweenPoints_unannotated (s0 !!! q)).
  rewrite <- (getDistanceBetweenPoints_unannotated (s1 !!! q)).
  now rewrite (unannotated_lookup_total _ _ q H), (unannotated_lookup_total _ _ r H).
Qed.

(** *** References *)

Lemma getPointById_Some (store : list StationPoint.t) (i : string) (r : nat) :
  getPointById store i = Some r ->
  exists p, store !! r = Some p /\ StationPoint.id p = i.
Proof.
  unfold getPointById. intros H.
  destruct (list_find _ store) as [[k p]|] eqn:E; simpl in H; [|discriminate].
  injection H as <-. apply list_find_Some in E as (Hk & Hp & _). eauto.
Qed.

Lemma getPointById_lt (store : list StationPoint.t) (i : string) (r : nat) :
  getPointById store i = Some r -> (r < length store)%nat.
Proof.
  intros H. destruct (getPointById_Some _ _ _ H) as (p & Hp & _).
  now apply lookup_lt_Some in Hp.
Qed.

Lemma getPointById_unannotated (store : list StationPoint.t) (i : string) :
  getPointById (unannotated <$> store) i = getPointById store i.
Proof.
  unfold getPointById. rewrite list_find_fmap.
  rewrite <- option_fmap_compose.
  replace (list_find ((fun p => StationPoint.id p = i) ∘ unannotated) store)
    with (list_find (fun p => StationPoint.id p = i) store).
  - now destruct (list_find _ store) as [[k p]|].
  - apply list_find_ext. intros p. reflexivity.
Qed.

Lemma getPointById_ext (s0 s1 : list StationPoint.t) (i : string) :
  unannotated <$> s0 = unannotated <$> s1 ->
  getPointById s0 i = getPointById s1 i.
Proof.
  intros H.
  rewrite <- (getPointById_unannotated s0), <- (getPointById_unannotated s1).
  now rewrite H.
Qed.

Lemma collectInstruction_ext (s0 s1 : list StationPoint.t) (pts : list nat)
    (inst : PathInstruction.t) :
  unannotated <$> s0 = unannotated <$> s1 ->
  collectInstruction s0 pts inst = collectInstruction s1 pts inst.
Proof.
  intros H. unfold collectInstruction.
  rewrite (getPointById_ext s0 s1 _ H). f_equal.
  destruct (PathInstruction.path_nodes inst) as [nodes|]; [|reflexivity].
  revert pts. induction nodes as [|n nodes IH]; intros pts; simpl; [reflexivity|].
  now rewrite (getPointById_ext s0 s1 _ H), IH.
Qed.

Lemma collectPoints_ext (s0 s1 : list StationPoint.t)
    (instructions : list PathInstruction.t) (g : string) :
  unannotated <$> s0 = unannotated <$> s1 ->
  collectPoints s0 instructions g = collectPoints s1 instructions g.
Proof.
  intros H. unfold collectPoints. rewrite (getPointById_ext s0 s1 _ H).
  generalize (push (getPointById s1 g) []).
  induction instructions as [|inst rest IH]; intros pts; simpl; [reflexivity|].
  now rewrite (collectInstruction_ext s0 s1 _ _ H), IH.
Qed.

Lemma push_valid (store : list StationPoint.t) (i : string) (pts : list nat) :
  Forall (fun r => (r < length store)%nat) pts ->
  Forall (fun r => (r < length store)%nat) (push (getPointById store i) pts).
Proof.
  intros H. destruct (getPointById store i) as [r|] eqn:E; simpl; [|exact H].
  apply Forall_app. split; [exact H|].
  apply Forall_singleton. now apply getPointById_lt in E.
Qed.

Lemma collectInstruction_valid (store : list StationPoint.t) (pts : list nat)
    (inst : PathInstruction.t) :
  Forall (fun r => (r < length store)%nat) pts ->
  Forall (fun r => (r < length store)%nat) (collectInstruction store pts inst).
Proof.
  intros H. unfold collectInstruction. apply push_valid.
  destruct (PathInstruction.path_nodes inst) as [nodes|]; [|exact H].
  revert pts H. induction nodes as [|n nodes IH]; intros pts H; simpl; [exact H|].
  apply IH. now apply push_valid.
Qed.

Lemma collectPoints_valid (store : list StationPoint.t)
    (instructions : list PathInstruction.t) (g : string) :
  Forall (fun r => (r < length store)%nat) (collectPoints store instructions g).
Proof.
  unfold collectPoints.
  assert (Forall (fun r => (r < length store)%nat) (push (getPointById store g) []))
    as H by (apply push_valid; constructor).
  revert H. generalize (push (getPointById store g) []).
  induction instructions as [|inst rest IH]; intros pts H; simpl; [exact H|].
  apply IH. now apply collectInstruction_valid.
Qed.

(** *** The loop that assigns cumulative distances *)

Lemma assignCumulative_length (pts : list nat) (prev : option nat) (cur : R)
    (store : list StationPoint.t) :
  length (assignCumulative prev cur pts store) = length store.
Proof.
  rewrite <- (length_fmap unannotated), unannotated_assignCumulative.
  apply length_fmap.
Qed.

Lemma assignCumulative_frame (pts : list nat) :
  forall (prev : option nat) (cur : R) (store : list StationPoint.t) (r : nat),
    r ∉ pts -> assignCumulative prev cur pts store !! r = store !! r.
Proof.
  induction pts as [|p rest IH]; intros prev cur store r Hr; simpl; [reflexivity|].
  apply not_elem_of_cons in Hr as [Hne Hr].
  rewrite IH by exact Hr. apply list_lookup_alter_ne. congruence.
Qed.

Lemma assignCumulative_agree (pts : list nat) :
  forall (prev : option nat) (cur : R) (s0 s1 : list StationPoint.t),
    unannotated <$> s0 = unannotated <$> s1 ->
    forall r : nat,
      r ∈ pts \/ s0 !! r = s1 !! r ->
      assignCumulative prev cur pts s0 !! r = assignCumulative prev cur pts s1 !! r.
Proof.
  induction pts as [|p rest IH]; intros prev cur s0 s1 H r Hr; simpl.
  - destruct Hr as [Hr|Hr]; [now apply elem_of_nil in Hr|exact Hr].
  - assert (match prev with
            | Some q => cur + getDistanceBetweenPoints (s0 !!! q) (s0 !!! p)
            | None => cur
            end
            = match prev with
              | Some q => cur + getDistanceBetweenPoints (s1 !!! q) (s1 !!! p)
              | None => cur
              end) as ->.
    { destruct prev as [q|]; [|reflexivity].
      now rewrite (getDistanceBetweenPoints_store s0 s1 q p H). }
    apply IH.
    + now rewrite !unannotated_alter.
    + destruct (decide (r = p)) as [->|Hne].
      * right. rewrite !list_lookup_alter_eq.
        pose proof (unannotated_lookup s0 s1 p H) as Hp.
        destruct (s0 !! p) as [a|], (s1 !! p) as [b|]; simpl in *;
          try congruence.
        assert (unannotated a = unannotated b) as Hab by congruence.
        f_equal.
        match goal with |- StationPoint.set_cumulativeDistance ?d _ = _ =>
          change (StationPoint.set_cumulativeDistance d (unannotated a)
                  = StationPoint.set_cumulativeDistance d (unannotated b)) end.
        now rewrite Hab.
      * destruct Hr as [Hr|Hr].
        -- left. apply elem_of_cons in Hr as [Hr|Hr]; [contradiction|exact Hr].
        -- right. rewrite !list_lookup_alter_ne by congruence. exact Hr.
Qed.

Lemma cumulativeOf_lookup (store : list StationPoint.t) (r : nat)
    (p : StationPoint.t) :
  store !! r = Some p ->
  cumulativeOf store r = StationPoint.cumulativeDistance p.
Proof.
  intros H. unfold cumulativeOf. now rewrite (list_lookup_total_correct _ _ _ H).
Qed.

Lemma cumulativeOf_alter_eq (store : list StationPoint.t) (r : nat) (d : R) :
  (r < length store)%nat ->
  cumulativeOf (alter (StationPoint.set_cumulativeDistance d) r store) r = Some d.
Proof.
  intros Hr. apply lookup_lt_is_Some in Hr as [p Hp].
  erewrite cumulativeOf_lookup; [|rewrite list_lookup_alter_eq, Hp; reflexivity].
  reflexivity.
Qed.

Lemma cumulativeOf_ext (s0 s1 : list StationPoint.t) (r : nat) :
  s0 !! r = s1 !! r -> cumulativeOf s0 r = cumulativeOf s1 r.
Proof.
  intros H. unfold cumulativeOf. rewrite !list_lookup_total_alt. now rewrite H.
Qed.

Lemma isAnnotated_alter (store : list StationPoint.t) (r k : nat) (d : R) :
  isAnnotated store r ->
  isAnnotated (alter (StationPoint.set_cumulativeDistance d) k store) r.
Proof.
  intros [e He]. unfold isAnnotated.
  destruct (decide (k = r)) as [->|Hne].
  - destruct (decide (r < length store)%nat) as [Hlt|Hge].
    + exists d. now apply cumulativeOf_alter_eq.
    + exists e. rewrite <- He. apply cumulativeOf_ext.
      rewrite list_lookup_alter_eq.
      rewrite (lookup_ge_None_2 store r) by lia. reflexivity.
  - exists e. rewrite <- He. apply cumulativeOf_ext.
    now apply list_lookup_alter_ne.
Qed.

Lemma isAnnotated_assignCumulative (pts : list nat) :
  forall (prev : option nat) (cur : R) (store : list StationPoint.t) (r : nat),
    isAnnotated store r -> isAnnotated (assignCumulative prev cur pts store) r.
Proof.
  induction pts as [|p rest IH]; intros prev cur store r H; simpl; [exact H|].
  apply IH. now apply isAnnotated_alter.
Qed.

Lemma assignCumulative_annotates (pts : list nat) :
  forall (prev : option nat) (cur : R) (store : list StationPoint.t) (r : nat),
    r ∈ pts -> (r < length store)%nat ->
    isAnnotated (assignCumulative prev cur pts store) r.
Proof.
  induction pts as [|p rest IH]; intros prev cur store r Hr Hlt; simpl.
  - now apply elem_of_nil in Hr.
  - apply elem_of_cons in Hr as [->|Hr].
    + apply isAnnotated_assignCumulative. eexists.
      now apply cumulativeOf_alter_eq.
    + apply IH; [exact Hr|]. now rewrite length_alter.
Qed.

Lemma assignCumulative_simple (pts : list nat) :
  forall (prev : option nat) (cur : R) (store : list StationPoint.t),
    NoDup pts ->
    Forall (fun r => (r < length store)%nat) pts ->
    let store' := assignCumulative prev cur pts store in
    (forall r, head pts = Some r ->
       cumulativeOf store' r
       = Some match prev with
              | Some q => cur + getDistanceBetweenPoints (store !!! q) (store !!! r)
              | None => cur
              end)
    /\ (forall i p q, pts !! i = Some p -> pts !! S i = Some q ->
          exists d,
            cumulativeOf store' p = Some d
            /\ cumulativeOf store' q
               = Some (d + getDistanceBetweenPoints (store' !!! p) (store' !!! q))).
Proof.
  induction pts as [|r rest IH]; intros prev cur store Hnd Hval store'.
  - split; [discriminate|]. intros i p q Hp. now rewrite lookup_nil in Hp.
  - apply NoDup_cons in Hnd as [Hr Hnd]. apply Forall_cons in Hval as [Hlt Hval].
    set (cur' := match prev with
                 | Some q => cur + getDistanceBetweenPoints (store !!! q) (store !!! r)
                 | None => cur
                 end).
    set (store1 := alter (StationPoint.set_cumulativeDistance cur') r store).
    assert (store' = assignCumulative (Some r) cur' rest store1) as Hs' by reflexivity.
    assert (Forall (fun k => (k < length store1)%nat) rest) as Hval1.
    { unfold store1. now rewrite length_alter. }
    destruct (IH (Some r) cur' store1 Hnd Hval1) as [IHhead IHnext].
    fold store1 cur' in Hs'. rewrite <- Hs' in IHhead, IHnext.
    assert (cumulativeOf store' r = Some cur') as Hfirst.
    { rewrite Hs'. erewrite cumulativeOf_ext.
      - apply (cumulativeOf_alter_eq store r cur' Hlt).
      - now apply assignCumulative_frame. }
    assert (unannotated <$> store' = unannotated <$> store1) as Hgeo.
    { rewrite Hs'. apply unannotated_assignCumulative. }
    split.
    + intros k Hk. injection Hk as <-. exact Hfirst.
    + intros [|i] p q Hp Hq; simpl in Hp, Hq.
      * injection Hp as <-. exists cur'. split; [exact Hfirst|].
        rewrite (IHhead q); [|now destruct rest; simplify_eq].
        now rewrite (getDistanceBetweenPoints_store store' store1 r q Hgeo).
      * exact (IHnext i p q Hp Hq).
Qed.

Lemma cumulative_monotone (store : list StationPoint.t) (pts : list nat) :
  (forall i p q, pts !! i = Some p -> pts !! S i = Some q ->
     exists d,
       cumulativeOf store p = Some d
       /\ cumulativeOf store q
          = Some (d + getDistanceBetweenPoints (store !!! p) (store !!! q))) ->
  forall (i j p q : nat) (dp dq : R),
    (i <= j)%nat -> pts !! i = Some p -> pts !! j = Some q ->
    cumulativeOf store p = Some dp -> cumulativeOf store q = Some dq ->
    dp <= dq.
Proof.
  intros Hnext i j. induction j as [|j IH]; intros p q dp dq Hij Hp Hq Hdp Hdq.
  - assert (i = 0%nat) as -> by lia. assert (p = q) as -> by congruence.
    assert (dp = dq) as -> by congruence. lra.
  - destruct (decide (i = S j)) as [->|Hne].
    + assert (p = q) as -> by congruence.
      assert (dp = dq) as -> by congruence. lra.
    + assert (is_Some (pts !! j)) as [q' Hq'].
      { apply lookup_lt_is_Some. apply lookup_lt_Some in Hq. lia. }
      destruct (Hnext j q' q Hq' Hq) as (d & Hd & Hd').
      assert (dp <= d) as Hle by (apply (IH p q' dp d); [lia|assumption..]).
      pose proof (getDistanceBetweenPoints_nonneg (store !!! q') (store !!! q)).
      assert (dq = d + getDistanceBetweenPoints (store !!! q') (store !!! q))
        by congruence.
      lra.
Qed.

(** C1 (amended).  On every materialized path that visits no point twice,
    the first point's cumulative distance is exactly 0, every later point's
    cumulative distance is its predecessor's plus the Euclidean distance
    between the two over their planar offsets, and the cumulative distances
    never decrease along the path. *)
Theorem cumulative_distance_of_simple_path (store : list StationPoint.t)
    (instructions : list PathInstruction.t) (entryGateId : option string) :
  let m := generatePathPointsForMap store instructions entryGateId in
  NoDup (mat_points m) ->
  (forall p, head (mat_points m) = Some p -> cumulativeOf (mat_store m) p = Some 0)
  /\ (forall i p q,
        mat_points m !! i = Some p -> mat_points m !! S i = Some q ->
        exists d,
          cumulativeOf (mat_store m) p = Some d
          /\ cumulativeOf (mat_store m) q
             = Some (d + getDistanceBetweenPoints (mat_store m !!! p)
                                                  (mat_store m !!! q)))
  /\ (forall (i j p q : nat) (dp dq : R),
        (i <= j)%nat ->
        mat_points m !! i = Some p -> mat_points m !! j = Some q ->
        cumulativeOf (mat_store m) p = Some dp ->
        cumulativeOf (mat_store m) q = Some dq ->
        dp <= dq).
Proof.
  intros m Hnd.
  assert ((forall p, head (mat_points m) = Some p ->
             cumulativeOf (mat_store m) p = Some 0)
          /\ (forall i p q,
                mat_points m !! i = Some p -> mat_points m !! S i = Some q ->
                exists d,
                  cumulativeOf (mat_store m) p = Some d
                  /\ cumulativeOf (mat_store m) q
                     = Some (d + getDistanceBetweenPoints (mat_store m !!! p)
                                                          (mat_store m !!! q))))
    as [Hhead Hnext].
  { subst m. unfold generatePathPointsForMap in *.
    destruct entryGateId as [g|]; [destruct (bool_decide (g = EmptyString))|];
      simpl in *.
    2: { apply (assignCumulative_simple _ None 0 store Hnd).
         apply collectPoints_valid. }
    all: split; [discriminate|]; intros i p q Hp; now rewrite lookup_nil in Hp. }
  split; [exact Hhead|]. split; [exact Hnext|].
  now apply cumulative_monotone.
Qed.

Lemma cumulative_distance_of_simple_path_witness :
  let m := materializedGateA in
  NoDup (mat_points m)
  /\ (forall p, head (mat_points m) = Some p -> cumulativeOf (mat_store m) p = Some 0)
  /\ (forall (i j p q : nat) (dp dq : R),
        (i <= j)%nat ->
        mat_points m !! i = Some p -> mat_points m !! j = Some q ->
        cumulativeOf (mat_store m) p = Some dp ->
        cumulativeOf (mat_store m) q = Some dq ->
        dp <= dq).
Proof.
  assert (NoDup (mat_points materializedGateA)) as Hnd.
  { apply (bool_decide_unpack _). vm_compute. exact I. }
  split; [exact Hnd|].
  pose proof (cumulative_distance_of_simple_path (points mockStationLayout)
                route_gate_a_platform_1 (Some "gate-a") Hnd) as (H1 & _ & H3).
  split; [exact H1|exact H3].
Defined.

(** C1 as stated fails on a path that visits a point twice: the second
    visit overwrites the annotation of the shared object, so the first point
    of the walk to the first node and back carries 40 and its successor 20. *)
Lemma cumulative_distance_revisited_point :
  let m := generatePathPointsForMap (points mockStationLayout)
             route_there_and_back (Some "gate-a") in
  mat_points m = [0; 9; 0]%nat
  /\ cumulativeOf (mat_store m) 0%nat = Some 40
  /\ cumulativeOf (mat_store m) 9%nat = Some 20
  /\ cumulativeOf (mat_store m) 0%nat <> Some 0.
Proof.
  assert (sqrt ((70 - 50) * (70 - 50) + (250 - 250) * (250 - 250)) = 20) as E1.
  { replace ((70 - 50) * (70 - 50) + (250 - 250) * (250 - 250)) with (20 * 20) by ring.
    apply sqrt_square. lra. }
  assert (sqrt ((50 - 70) * (50 - 70) + (250 - 250) * (250 - 250)) = 20) as E2.
  { replace ((50 - 70) * (50 - 70) + (250 - 250) * (250 - 250)) with (20 * 20) by ring.
    apply sqrt_square. lra. }
  assert (cumulativeOf
            (mat_store (generatePathPointsForMap (points mockStationLayout)
                          route_there_and_back (Some "gate-a"))) 0%nat
          = Some (0 + sqrt ((70 - 50) * (70 - 50) + (250 - 250) * (250 - 250))
                  + sqrt ((50 - 70) * (50 - 70) + (250 - 250) * (250 - 250))))
    as H0 by (vm_compute; reflexivity).
  assert (cumulativeOf
            (mat_store (generatePathPointsForMap (points mockStationLayout)
                          route_there_and_back (Some "gate-a"))) 9%nat
          = Some (0 + sqrt ((70 - 50) * (70 - 50) + (250 - 250) * (250 - 250))))
    as H9 by (vm_compute; reflexivity).
  rewrite E1, ?E2 in H0, H9.
  cbv zeta. rewrite H0, H9.
  split; [vm_compute; reflexivity|].
  split; [f_equal; lra|]. split; [f_equal; lra|].
  intros H. injection H as H. lra.
Qed.

Lemma push_nonempty (r : nat) (pts : list nat) : push (Some r) pts <> [].
Proof. simpl. intros H. now apply app_eq_nil in H as [_ H]. Qed.

Lemma fold_collect_nonempty (store : list StationPoint.t)
    (instructions : list PathInstruction.t) (pts : list nat) :
  pts <> [] -> fold_left (collectInstruction store) instructions pts <> [].
Proof.
  revert pts. induction instructions as [|inst rest IH]; intros pts H; simpl;
    [exact H|].
  apply IH. unfold collectInstruction.
  assert ((match PathInstruction.path_nodes inst with
           | Some nodes =>
               fold_left (fun acc nodeId => push (getPointById store nodeId) acc)
                 nodes pts
           | None => pts
           end) <> []) as Hn.
  { destruct (PathInstruction.path_nodes inst) as [nodes|]; [|exact H].
    clear IH. revert pts H. induction nodes as [|n nodes IHn]; intros pts H; simpl;
      [exact H|].
    apply IHn. destruct (getPointById store n); simpl; [|exact H].
    intros E. now apply app_eq_nil in E as [_ E]. }
  destruct (getPointById store (PathInstruction.to inst)); simpl; [|exact Hn].
  intros E. now apply app_eq_nil in E as [_ E].
Qed.

Lemma collect_target_nonempty (store : list StationPoint.t)
    (instructions : list PathInstruction.t) (pts : list nat)
    (inst : PathInstruction.t) :
  inst ∈ instructions ->
  is_Some (getPointById store (PathInstruction.to inst)) ->
  fold_left (collectInstruction store) instructions pts <> [].
Proof.
  revert pts. induction instructions as [|a rest IH]; intros pts Hin [r Hr].
  - now apply elem_of_nil in Hin.
  - simpl. apply elem_of_cons in Hin as [<-|Hin].
    + apply fold_collect_nonempty. unfold collectInstruction. rewrite Hr.
      apply push_nonempty.
    + apply IH; [exact Hin|]. now exists r.
Qed.

(** C4 (amended).  When the starting gate id is not empty and resolves to
    no point of the table, the materializer omits the start point only: the
    path is made of the resolved path nodes and targets of the instructions,
    in order, all of them valid references, and it is not empty as soon as
    one instruction target resolves.  The path is empty when the gate id is
    null or the empty string. *)
Theorem unresolved_gate_omits_only_the_start (store : list StationPoint.t)
    (instructions : list PathInstruction.t) (g : string) :
  getPointById store g = None ->
  g <> EmptyString ->
  let m := generatePathPointsForMap store instructions (Some g) in
  mat_points m = fold_left (collectInstruction store) instructions []
  /\ (forall inst,
        inst ∈ instructions ->
        is_Some (getPointById store (PathInstruction.to inst)) ->
        mat_points m <> [])
  /\ Forall (fun r => (r < length store)%nat) (mat_points m)
  /\ mat_points (generatePathPointsForMap store instructions None) = []
  /\ mat_points (generatePathPointsForMap store instructions (Some EmptyString)) = [].
Proof.
  intros Hg Hne m.
  assert (mat_points m = fold_left (collectInstruction store) instructions [])
    as Hm.
  { subst m. unfold generatePathPointsForMap.
    rewrite bool_decide_eq_false_2 by exact Hne. simpl.
    unfold collectPoints. now rewrite Hg. }
  split; [exact Hm|]. split.
  - intros inst Hin Hres. rewrite Hm.
    now apply (collect_target_nonempty store instructions [] inst).
  - split; [|split; reflexivity].
    subst m. unfold generatePathPointsForMap.
    rewrite bool_decide_eq_false_2 by exact Hne. simpl.
    apply collectPoints_valid.
Qed.

Lemma unresolved_gate_omits_only_the_start_witness :
  getPointById (points mockStationLayout) "gate-z" = None
  /\ "gate-z" <> EmptyString
  /\ mat_points (generatePathPointsForMap (points mockStationLayout)
                   route_gate_a_platform_1 (Some "gate-z"))
     = fold_left (collectInstruction (points mockStationLayout))
         route_gate_a_platform_1 [].
Proof.
  assert (getPointById (points mockStationLayout) "gate-z" = None) as Hg
    by (vm_compute; reflexivity).
  assert ("gate-z" <> EmptyString) as Hne by discriminate.
  split; [exact Hg|]. split; [exact Hne|].
  exact (proj1 (unresolved_gate_omits_only_the_start (points mockStationLayout)
                  route_gate_a_platform_1 "gate-z" Hg Hne)).
Defined.

(** C4 as stated fails: an unknown gate with the instructions of a known
    route gives the nine points after the gate. *)
Lemma unresolved_gate_nonempty_path :
  getPointById (points mockStationLayout) "gate-z" = None
  /\ idsOf (points mockStationLayout)
       (mat_points (generatePathPointsForMap (points mockStationLayout)
                      route_gate_a_platform_1 (Some "gate-z")))
     = ["node-ga-1"; "node-ga-2"; "node-ga-wh-1"; "waiting-hall"; "node-wh-e1-1";
        "escalator-1"; "node-e1-p1-1"; "node-e1-p1-2"; "platform-1"]
  /\ mat_points (generatePathPointsForMap (points mockStationLayout)
                   route_gate_a_platform_1 (Some "gate-z")) <> [].
Proof.
  split; [vm_compute; reflexivity|]. split; [vm_compute; reflexivity|].
  vm_compute. discriminate.
Qed.

(** *** Two materializations in a row *)






Lemma materializeRoute_keeps_other_routes (layout layout' : StationLayout)
    (pathKey gateId other : string) (pts : list nat) :
  materializeRoute layout pathKey gateId = Some (pts, layout') ->
  other <> pathKey ->
  paths layout' !! other = paths layout !! other.
Proof.
  unfold materializeRoute. destruct (paths layout !! pathKey); [|discriminate].
  intros [= _ <-] Hne. cbn. now apply lookup_insert_ne.
Qed.

(** ** The simulator *)

Lemma fractionOf_bounds (traveled a b : R) :
  a <= traveled <= b -> 0 <= fractionOf traveled a b <= 1.
Proof.
  intros [Ha Hb]. unfold fractionOf.
  destruct (Rlt_dec 0 (b - a)) as [Hlen|Hlen]; [|lra].
  assert (0 < / (b - a)) as Hinv by (now apply Rinv_0_lt_compat).
  split.
  - unfold Rdiv. apply Rmult_le_pos; lra.
  - apply Rmult_le_reg_r with (b - a); [lra|].
    replace ((traveled - a) / (b - a) * (b - a)) with (traveled - a) by (field; lra).
    lra.
Qed.

Lemma locateSegment_Some (store : list StationPoint.t) (pts : list nat)
    (traveled : R) (p1 p2 : nat) (f : R) :
  locateSegment store pts traveled = Some (p1, p2, f) ->
  exists i : nat,
    pts !! i = Some p1 /\ pts !! S i = Some p2
    /\ default 0 (cumulativeOf store p1) <= traveled
         <= default 0 (cumulativeOf store p2)
    /\ f = fractionOf traveled (default 0 (cumulativeOf store p1))
             (default 0 (cumulativeOf store p2)).
Proof.
  induction pts as [|a rest IH]; [discriminate|].
  destruct rest as [|b rest']; [discriminate|].
  intros H. cbn [locateSegment] in H.
  destruct (Rge_dec traveled (default 0 (cumulativeOf store a))) as [Hge|Hge].
  - destruct (Rle_dec traveled (default 0 (cumulativeOf store b))) as [Hle|Hle].
    + injection H as <- <- <-. exists 0%nat. repeat split; try reflexivity; lra.
    + destruct (IH H) as (i & ? & ? & ? & ?). exists (S i). auto.
  - destruct (IH H) as (i & ? & ? & ? & ?). exists (S i). auto.
Qed.

(** *** Starting a fresh walk *)

Lemma startSimulation_fresh (s : App) :
  isSimulating s = false ->
  liveLocationEnabled s = false ->
  (2 <= length (pathPointsForMap s))%nat ->
  totalDistanceTraveledRef s = 0 ->
  let s' := startSimulation s in
  simulationIntervalRef s'
  = Some (mkTimer (pathPointsForMap s) (pathInstructions s) (language s)
            (pnrDetails s))
  /\ totalDistanceTraveledRef s' = 0
  /\ currentInstructionIdxRef s' = 0%nat
  /\ currentInstructionIndex s' = currentInstructionIndex s
  /\ isSimulating s' = true
  /\ liveLocationEnabled s' = false
  /\ layout s' = layout s
  /\ speechLog s'
     = speechLog s
       ++ match pathInstructions s !! 0%nat with
          | Some inst => [Speak (instructionText (language s) inst) (language s)]
          | None => []
          end.
Proof.
  intros Hsim Hlive Hlen Hacc. unfold startSimulation.
  rewrite Hsim, Hlive, bool_decide_eq_false_2 by lia.
  cbn [orb set_infoMessage set_isSimulating totalDistanceTraveledRef].
  rewrite Hacc. destruct (Req_dec_T 0 0) as [_|Hn]; [|contradiction].
  rewrite orb_true_r. cbn.
  destruct (pathInstructions s !! 0%nat); cbn; rewrite ?app_nil_r;
    repeat (refine (conj _ _)); congruence.
Qed.

(** Starting again after a cancellation goes on from where the walk was. *)
Lemma startSimulation_resume (s : App) :
  isSimulating s = false ->
  liveLocationEnabled s = false ->
  (2 <= length (pathPointsForMap s))%nat ->
  userPosition s <> None ->
  totalDistanceTraveledRef s <> 0 ->
  let s' := startSimulation s in
  totalDistanceTraveledRef s' = totalDistanceTraveledRef s
  /\ currentInstructionIdxRef s' = currentInstructionIdxRef s
  /\ userPosition s' = userPosition s
  /\ isSimulating s' = true
  /\ is_Some (simulationIntervalRef s').
Proof.
  intros Hsim Hlive Hlen Hpos Hacc. unfold startSimulation.
  rewrite Hsim, Hlive, bool_decide_eq_false_2 by lia.
  rewrite (bool_decide_eq_false_2 _ Hpos).
  cbn [orb set_infoMessage set_isSimulating totalDistanceTraveledRef].
  destruct (Req_dec_T (totalDistanceTraveledRef s) 0) as [He|_]; [contradiction|].
  cbn. destruct (pathInstructions s !! currentInstructionIdxRef s); cbn;
    repeat (refine (conj _ _)); try reflexivity; eexists; reflexivity.
Qed.

(** *** The scenario of gate A and platform 1, evaluated *)

Lemma atGateA_facts :
  pathPointsForMap atGateA = mat_points materializedGateA
  /\ pathInstructions atGateA = mat_instructions materializedGateA
  /\ points (layout atGateA) = mat_store materializedGateA
  /\ pnrDetails atGateA = getPNRDetails "1234567890"
  /\ language atGateA = en_US
  /\ isSimulating atGateA = false
  /\ liveLocationEnabled atGateA = false
  /\ totalDistanceTraveledRef atGateA = 0
  /\ currentInstructionIdxRef atGateA = 0%nat
  /\ currentInstructionIndex atGateA = 0%nat
  /\ speechLog atGateA = [CancelSpeech; CancelSpeech].
Proof.
  repeat (refine (conj _ _); [vm_compute; reflexivity|]).
  vm_compute; reflexivity.
Qed.

Lemma materializedGateA_ids :
  idsOf (mat_store materializedGateA) (mat_points materializedGateA)
  = ["gate-a"; "node-ga-1"; "node-ga-2"; "node-ga-wh-1"; "waiting-hall";
     "node-wh-e1-1"; "escalator-1"; "node-e1-p1-1"; "node-e1-p1-2"; "platform-1"].
Proof. vm_compute. reflexivity. Qed.

Lemma walking_facts :
  simulationIntervalRef walking = Some timerGateA
  /\ totalDistanceTraveledRef walking = 0
  /\ currentInstructionIdxRef walking = 0%nat
  /\ currentInstructionIndex walking = 0%nat
  /\ isSimulating walking = true
  /\ liveLocationEnabled walking = false
  /\ points (layout walking) = mat_store materializedGateA
  /\ speechLog walking
     = [CancelSpeech; CancelSpeech;
        Speak "Walk straight from Entry Gate A for 20 meters." en_US].
Proof.
  destruct atGateA_facts
    as (Hp & Hi & Hs & Hd & Hl & Hsim & Hlive & Ha & Hidx & Hci & Hlog).
  assert (2 <= length (pathPointsForMap atGateA))%nat as Hlen.
  { rewrite Hp. vm_compute. lia. }
  pose proof (startSimulation_fresh atGateA Hsim Hlive Hlen Ha) as H.
  cbv zeta in H. unfold walking.
  destruct H as (H1 & H2 & H3 & H4 & H5 & H6 & H7 & H8).
  rewrite Hp, Hi, Hl, Hd in H1. rewrite Hci in H4. rewrite H7.
  rewrite Hlog, Hi, Hl in H8.
  replace (mat_instructions materializedGateA !! 0%nat)
    with (Some (PathInstruction.set_cumulativeDistanceToTarget
                  (0 + sqrt ((70 - 50) * (70 - 50) + (250 - 250) * (250 - 250))
                   + sqrt ((100 - 70) * (100 - 70) + (250 - 250) * (250 - 250)))
                  (instruction "inst1"
                     "Walk straight from Entry Gate A for 20 meters."
                     "प्रवेश द्वार ए से 20 मीटर सीधा चलें।"
                     "gate-a" "node-ga-2" (Some ["node-ga-1"]) 20)))
    in H8 by (vm_compute; reflexivity).
  clear - H1 H2 H3 H4 H5 H6 H8 Hs.
  refine (conj H1 (conj H2 (conj H3 (conj H4 (conj H5 (conj H6 (conj Hs H8))))))).
Qed.

(** *** One tick *)

Lemma distanceToAdvance_value : distanceToAdvance = 1 / 10.
Proof. unfold distanceToAdvance, simulationSpeed, simulationIntervalDuration. lra. Qed.

Lemma moveUser_frame (store : list StationPoint.t) (pts : list nat) (s : App) :
  let s' := moveUser store pts s in
  totalDistanceTraveledRef s' = totalDistanceTraveledRef s
  /\ currentInstructionIdxRef s' = currentInstructionIdxRef s
  /\ currentInstructionIndex s' = currentInstructionIndex s
  /\ simulationIntervalRef s' = simulationIntervalRef s
  /\ isSimulating s' = isSimulating s
  /\ layout s' = layout s
  /\ speechLog s' = speechLog s.
Proof.
  unfold moveUser. repeat case_match; cbn; repeat (refine (conj _ _)); reflexivity.
Qed.

Lemma advanceInstruction_frame (t : Timer) (s : App) :
  let s' := advanceInstruction t s in
  totalDistanceTraveledRef s' = totalDistanceTraveledRef s
  /\ simulationIntervalRef s' = simulationIntervalRef s
  /\ isSimulating s' = isSimulating s
  /\ layout s' = layout s
  /\ userPosition s' = userPosition s
  /\ (currentInstructionIdxRef s' = currentInstructionIdxRef s
      \/ currentInstructionIdxRef s' = S (currentInstructionIdxRef s))
  /\ userBearing s' = userBearing s.
Proof.
  unfold advanceInstruction, speak. repeat case_match; cbn;
    repeat (refine (conj _ _)); try reflexivity; auto.
Qed.

Lemma advanceInstruction_stay (t : Timer) (s : App) (inst : PathInstruction.t)
    (target : R) :
  timer_pathInstructions t !! currentInstructionIdxRef s = Some inst ->
  PathInstruction.cumulativeDistanceToTarget inst = Some target ->
  totalDistanceTraveledRef s < target ->
  advanceInstruction t s = s.
Proof.
  intros Hi Ht Hlt. unfold advanceInstruction. rewrite Hi, Ht.
  destruct (Rge_dec _ _); [lra|reflexivity].
Qed.

Lemma advanceInstruction_step (t : Timer) (s : App) (inst : PathInstruction.t)
    (target : R) :
  timer_pathInstructions t !! currentInstructionIdxRef s = Some inst ->
  PathInstruction.cumulativeDistanceToTarget inst = Some target ->
  target <= totalDistanceTraveledRef s ->
  let s' := advanceInstruction t s in
  currentInstructionIdxRef s' = S (currentInstructionIdxRef s)
  /\ currentInstructionIndex s' = S (currentInstructionIdxRef s)
  /\ speechLog s'
     = speechLog s
       ++ match timer_pathInstructions t !! S (currentInstructionIdxRef s) with
          | Some next => [Speak (instructionText (timer_language t) next)
                            (timer_language t)]
          | None => []
          end.
Proof.
  intros Hi Ht Hle. unfold advanceInstruction, speak. rewrite Hi, Ht.
  destruct (Rge_dec _ _); [|lra].
  destruct (timer_pathInstructions t !! S _); cbn; rewrite ?app_nil_r;
    repeat (refine (conj _ _)); reflexivity.
Qed.

Lemma tick_not_complete (t : Timer) (s : App) :
  totalDistanceTraveledRef s + distanceToAdvance
  < totalPathLength (points (layout s)) (timer_pathPointsForMap t) ->
  tick t s
  = advanceInstruction t
      (moveUser (points (layout s)) (timer_pathPointsForMap t)
         (set_totalDistanceTraveledRef
            (totalDistanceTraveledRef s + distanceToAdvance) s)).
Proof.
  intros Hlt. unfold tick.
  cbn [totalDistanceTraveledRef set_totalDistanceTraveledRef].
  destruct (Rge_dec _ _); [lra|reflexivity].
Qed.

Lemma fire_stay (t : Timer) (store : list StationPoint.t) (s : App)
    (inst : PathInstruction.t) (target : R) :
  runningWith t store s ->
  timer_pathInstructions t !! currentInstructionIdxRef s = Some inst ->
  PathInstruction.cumulativeDistanceToTarget inst = Some target ->
  totalDistanceTraveledRef s + distanceToAdvance < target ->
  totalDistanceTraveledRef s + distanceToAdvance
  < totalPathLength store (timer_pathPointsForMap t) ->
  let s' := fire s in
  runningWith t store s'
  /\ currentInstructionIdxRef s' = currentInstructionIdxRef s
  /\ currentInstructionIndex s' = currentInstructionIndex s
  /\ totalDistanceTraveledRef s' = totalDistanceTraveledRef s + distanceToAdvance
  /\ speechLog s' = speechLog s.
Proof.
  intros (Ht & Hsim & Hst) Hi Htar Hlt Htot. unfold fire. rewrite Ht.
  rewrite tick_not_complete by (now rewrite Hst).
  set (s1 := set_totalDistanceTraveledRef _ s).
  pose proof (moveUser_frame (points (layout s)) (timer_pathPointsForMap t) s1)
    as Hm. cbv zeta in Hm. destruct Hm as (Ma & Mi & Mc & Mt & Ms & Ml & Mg).
  set (s2 := moveUser _ _ s1) in *.
  rewrite (advanceInstruction_stay t s2 inst target).
  - unfold runningWith. rewrite Ma, Mi, Mc, Mt, Ms, Ml, Mg. subst s1. cbn.
    repeat (refine (conj _ _)); auto.
  - now rewrite Mi.
  - exact Htar.
  - rewrite Ma. subst s1. cbn. exact Hlt.
Qed.

Lemma fire_advance (t : Timer) (store : list StationPoint.t) (s : App)
    (inst : PathInstruction.t) (target : R) :
  runningWith t store s ->
  timer_pathInstructions t !! currentInstructionIdxRef s = Some inst ->
  PathInstruction.cumulativeDistanceToTarget inst = Some target ->
  target <= totalDistanceTraveledRef s + distanceToAdvance ->
  totalDistanceTraveledRef s + distanceToAdvance
  < totalPathLength store (timer_pathPointsForMap t) ->
  let s' := fire s in
  runningWith t store s'
  /\ currentInstructionIdxRef s' = S (currentInstructionIdxRef s)
  /\ currentInstructionIndex s' = S (currentInstructionIdxRef s)
  /\ totalDistanceTraveledRef s' = totalDistanceTraveledRef s + distanceToAdvance.
Proof.
  intros (Ht & Hsim & Hst) Hi Htar Hle Htot. unfold fire. rewrite Ht.
  rewrite tick_not_complete by (now rewrite Hst).
  set (s1 := set_totalDistanceTraveledRef _ s).
  pose proof (moveUser_frame (points (layout s)) (timer_pathPointsForMap t) s1)
    as Hm. cbv zeta in Hm. destruct Hm as (Ma & Mi & Mc & Mt & Ms & Ml & Mg).
  set (s2 := moveUser _ _ s1) in *.
  pose proof (advanceInstruction_frame t s2) as Hf. cbv zeta in Hf.
  destruct Hf as (Fa & Ft & Fs & Fl & _ & _ & _).
  assert (timer_pathInstructions t !! currentInstructionIdxRef s2 = Some inst)
    as Hi2 by (now rewrite Mi).
  assert (target <= totalDistanceTraveledRef s2) as Hle2.
  { rewrite Ma. subst s1. cbn. exact Hle. }
  pose proof (advanceInstruction_step t s2 inst target Hi2 Htar Hle2) as Hs.
  cbv zeta in Hs. destruct Hs as (Si & Sc & _).
  unfold runningWith. rewrite Fa, Ft, Fs, Fl, Si, Sc, Ma, Mi, Mt, Ms, Ml.
  subst s1. cbn. repeat (refine (conj _ _)); auto.
Qed.

(** *** Many ticks *)

Lemma ticks_stay (t : Timer) (store : list StationPoint.t) (s : App)
    (inst : PathInstruction.t) (target : R) (n : nat) :
  runningWith t store s ->
  timer_pathInstructions t !! currentInstructionIdxRef s = Some inst ->
  PathInstruction.cumulativeDistanceToTarget inst = Some target ->
  totalDistanceTraveledRef s + INR n * distanceToAdvance < target ->
  totalDistanceTraveledRef s + INR n * distanceToAdvance
  < totalPathLength store (timer_pathPointsForMap t) ->
  let s' := ticks n s in
  runningWith t store s'
  /\ currentInstructionIdxRef s' = currentInstructionIdxRef s
  /\ currentInstructionIndex s' = currentInstructionIndex s
  /\ totalDistanceTraveledRef s'
     = totalDistanceTraveledRef s + INR n * distanceToAdvance
  /\ speechLog s' = speechLog s.
Proof.
  intros Hrun Hi Htar. pose proof distanceToAdvance_value as Hd.
  induction n as [|n IH]; intros Hlt Htot.
  - change (INR 0) with 0. change (ticks 0 s) with s. cbv zeta.
    destruct Hrun as (? & ? & ?). unfold runningWith.
    repeat (refine (conj _ _)); auto. lra.
  - rewrite S_INR in Hlt, Htot.
    destruct IH as (Hr & Hk & Hc & Ha & Hl); [lra|lra|].
    change (ticks (S n) s) with (fire (ticks n s)).
    pose proof (fire_stay t store (ticks n s) inst target Hr) as Hf.
    cbv zeta in Hf. rewrite Hk, Ha in Hf.
    destruct Hf as (Fr & Fk & Fc & Fa & Fl); [exact Hi|exact Htar|lra|lra|].
    cbv zeta. rewrite S_INR.
    refine (conj Fr (conj _ (conj _ (conj _ _)))); try congruence.
    rewrite Fa. lra.
Qed.

Lemma ticks_add (n m : nat) (s : App) : ticks (n + m) s = ticks n (ticks m s).
Proof. unfold ticks. apply Nat.iter_add. Qed.

Lemma ticks_S (n : nat) (s : App) : ticks (S n) s = fire (ticks n s).
Proof. reflexivity. Qed.

(** *** The distances of the walk from gate A to platform 1 *)

Lemma sqrt_between (lo hi v : R) :
  0 <= lo -> 0 <= hi -> lo * lo < v -> v < hi * hi -> lo < sqrt v < hi.
Proof.
  intros Hlo Hhi Hl Hh. split.
  - rewrite <- (sqrt_square lo Hlo). apply sqrt_lt_1; nra.
  - rewrite <- (sqrt_square hi Hhi). apply sqrt_lt_1; nra.
Qed.

Lemma sqrt_exact (a v : R) : 0 <= a -> v = a * a -> sqrt v = a.
Proof. intros Ha ->. now apply sqrt_square. Qed.

Lemma gateA_distances :
  exists d1 d2 d3 d4 : R,
    map PathInstruction.cumulativeDistanceToTarget
      (mat_instructions materializedGateA)
    = [Some d1; Some d2; Some d3; Some d4]
    /\ totalPathLength (mat_store materializedGateA) (mat_points materializedGateA)
       = d4
    /\ d1 = 50
    /\ 121.177 < d2 < 121.179
    /\ 191.887 < d3 < 191.891
    /\ 408.534 < d4 < 408.540.
Proof.
  set (l1 := sqrt ((70 - 50) * (70 - 50) + (250 - 250) * (250 - 250))).
  set (l2 := sqrt ((100 - 70) * (100 - 70) + (250 - 250) * (250 - 250))).
  set (l3 := sqrt ((135 - 100) * (135 - 100) + (290 - 250) * (290 - 250))).
  set (l4 := sqrt ((150 - 135) * (150 - 135) + (300 - 290) * (300 - 290))).
  set (l5 := sqrt ((175 - 150) * (175 - 150) + (275 - 300) * (275 - 300))).
  set (l6 := sqrt ((200 - 175) * (200 - 175) + (250 - 275) * (250 - 275))).
  set (l7 := sqrt ((190 - 200) * (190 - 200) + (210 - 250) * (210 - 250))).
  set (l8 := sqrt ((230 - 190) * (230 - 190) + (65 - 210) * (65 - 210))).
  set (l9 := sqrt ((250 - 230) * (250 - 230) + (50 - 65) * (50 - 65))).
  exists (0 + l1 + l2), (0 + l1 + l2 + l3 + l4), (0 + l1 + l2 + l3 + l4 + l5 + l6),
    (0 + l1 + l2 + l3 + l4 + l5 + l6 + l7 + l8 + l9).
  refine (conj _ (conj _ _)); [vm_compute; reflexivity..|].
  assert (l1 = 20) as E1 by (apply sqrt_exact; lra).
  assert (l2 = 30) as E2 by (apply sqrt_exact; lra).
  assert (53.150 < l3 < 53.151) as B3 by (apply sqrt_between; lra).
  assert (18.027 < l4 < 18.028) as B4 by (apply sqrt_between; lra).
  assert (35.355 < l5 < 35.356) as B5 by (apply sqrt_between; lra).
  assert (35.355 < l6 < 35.356) as B6 by (apply sqrt_between; lra).
  assert (41.231 < l7 < 41.232) as B7 by (apply sqrt_between; lra).
  assert (150.416 < l8 < 150.417) as B8 by (apply sqrt_between; lra).
  assert (l9 = 25) as E9 by (apply sqrt_exact; lra).
  clearbody l1 l2 l3 l4 l5 l6 l7 l8 l9. lra.
Qed.

Lemma INR_literal (n : nat) (z : Z) : Z.of_nat n = z -> INR n = IZR z.
Proof. intros <-. apply INR_IZR_INZ. Qed.

Lemma lookup_target (l : list PathInstruction.t) (k : nat)
    (targets : list (option R)) (d : R) :
  map PathInstruction.cumulativeDistanceToTarget l = targets ->
  targets !! k = Some (Some d) ->
  exists inst, l !! k = Some inst
               /\ PathInstruction.cumulativeDistanceToTarget inst = Some d.
Proof.
  intros <- H. rewrite list_lookup_fmap in H.
  destruct (l !! k) as [inst|]; [|discriminate].
  exists inst. split; [reflexivity|]. now injection H.
Qed.

Lemma walk_phase (k from : nat) (inst : PathInstruction.t) (target : R) (m : nat) :
  timer_pathInstructions timerGateA !! k = Some inst ->
  PathInstruction.cumulativeDistanceToTarget inst = Some target ->
  target <= totalPathLength (mat_store materializedGateA)
              (timer_pathPointsForMap timerGateA) ->
  INR (m + from) / 10 < target ->
  walkingAt from k (ticks from walking) ->
  walkingAt (m + from) k (ticks (m + from) walking).
Proof.
  intros Hi Ht Htot Hlt (Hr & Hk & Hc & Ha).
  rewrite ticks_add. rewrite plus_INR in *.
  pose proof distanceToAdvance_value as Hd.
  pose proof (ticks_stay timerGateA (mat_store materializedGateA)
                (ticks from walking) inst target m Hr) as H.
  cbv zeta in H. rewrite Hk, Ha, Hd in H.
  destruct H as (H1 & H2 & H3 & H4 & _); [exact Hi|exact Ht|lra|lra|].
  unfold walkingAt. refine (conj H1 (conj H2 (conj _ _))); [congruence|].
  rewrite H4, plus_INR. lra.
Qed.

Lemma walk_advance (k from : nat) (inst : PathInstruction.t) (target : R) :
  timer_pathInstructions timerGateA !! k = Some inst ->
  PathInstruction.cumulativeDistanceToTarget inst = Some target ->
  target <= INR (S from) / 10 ->
  INR (S from) / 10 < totalPathLength (mat_store materializedGateA)
                        (timer_pathPointsForMap timerGateA) ->
  walkingAt from k (ticks from walking) ->
  walkingAt (S from) (S k) (ticks (S from) walking).
Proof.
  intros Hi Ht Hle Htot (Hr & Hk & Hc & Ha).
  change (ticks (S from) walking) with (fire (ticks from walking)).
  rewrite S_INR in *. pose proof distanceToAdvance_value as Hd.
  pose proof (fire_advance timerGateA (mat_store materializedGateA)
                (ticks from walking) inst target Hr) as H.
  cbv zeta in H. rewrite Hk, Ha, Hd in H.
  destruct H as (H1 & H2 & H3 & H4); [exact Hi|exact Ht|lra|lra|].
  unfold walkingAt. refine (conj H1 (conj H2 (conj H3 _))).
  rewrite H4, S_INR. lra.
Qed.

Lemma INR_le_literal (n hi : nat) (z : Z) :
  (n <= hi)%nat -> Z.of_nat hi = z -> INR n <= IZR z.
Proof. intros Hn <-. rewrite <- INR_IZR_INZ. now apply le_INR. Qed.

Lemma walk_range (k lo hi : nat) (inst : PathInstruction.t) (target : R) (z : Z) :
  timer_pathInstructions timerGateA !! k = Some inst ->
  PathInstruction.cumulativeDistanceToTarget inst = Some target ->
  target <= totalPathLength (mat_store materializedGateA)
              (timer_pathPointsForMap timerGateA) ->
  Z.of_nat hi = z -> IZR z / 10 < target ->
  walkingAt lo k (ticks lo walking) ->
  forall n, (lo <= n <= hi)%nat -> walkingAt n k (ticks n walking).
Proof.
  intros Hi Ht Htot Hz Hlt Hlo n [Hl Hh].
  replace n with ((n - lo) + lo)%nat by lia.
  apply (walk_phase k lo inst target (n - lo) Hi Ht Htot); [|exact Hlo].
  replace (n - lo + lo)%nat with n by lia.
  pose proof (INR_le_literal n hi z Hh Hz). lra.
Qed.

Lemma gateA_walk :
  exists d1 d2 d3 d4 : R,
    (map PathInstruction.cumulativeDistanceToTarget
       (mat_instructions materializedGateA)
     = [Some d1; Some d2; Some d3; Some d4]
     /\ totalPathLength (mat_store materializedGateA)
          (mat_points materializedGateA) = d4
     /\ d1 = 50
     /\ 121.177 < d2 < 121.179
     /\ 191.887 < d3 < 191.891
     /\ 408.534 < d4 < 408.540)
    /\ (forall n, (0 <= n <= 499)%nat -> walkingAt n 0 (ticks n walking))
    /\ (forall n, (500 <= n <= 1211)%nat -> walkingAt n 1 (ticks n walking))
    /\ (forall n, (1212 <= n <= 1918)%nat -> walkingAt n 2 (ticks n walking))
    /\ (forall n, (1919 <= n <= 4085)%nat -> walkingAt n 3 (ticks n walking)).
Proof.
  destruct gateA_distances as (d1 & d2 & d3 & d4 & Hmap & Htot & H1 & H2 & H3 & H4).
  exists d1, d2, d3, d4.
  refine (conj (conj Hmap (conj Htot (conj H1 (conj H2 (conj H3 H4))))) _).
  destruct (lookup_target _ 0 _ d1 Hmap eq_refl) as (i0 & L0 & T0).
  destruct (lookup_target _ 1 _ d2 Hmap eq_refl) as (i1 & L1 & T1).
  destruct (lookup_target _ 2 _ d3 Hmap eq_refl) as (i2 & L2 & T2).
  destruct (lookup_target _ 3 _ d4 Hmap eq_refl) as (i3 & L3 & T3).
  change (mat_instructions materializedGateA)
    with (timer_pathInstructions timerGateA) in L0, L1, L2, L3.
  change (mat_points materializedGateA)
    with (timer_pathPointsForMap timerGateA) in Htot.
  destruct walking_facts as (Wt & Wa & Wi & Wc & Ws & _ & Wp & _).
  assert (walkingAt 0 0 (ticks 0 walking)) as S0.
  { change (ticks 0 walking) with walking. unfold walkingAt, runningWith.
    refine (conj (conj Wt (conj Ws Wp)) (conj Wi (conj Wc _))).
    rewrite Wa. change (INR 0) with 0. lra. }
  assert (forall n, (0 <= n <= 499)%nat -> walkingAt n 0 (ticks n walking)) as P0.
  { apply (walk_range 0 0 499 i0 d1 499 L0 T0); [lra|reflexivity|lra|exact S0]. }
  assert (walkingAt 500 1 (ticks 500 walking)) as S1.
  { apply (walk_advance 0 499 i0 d1 L0 T0).
    - rewrite (INR_literal 500 500 eq_refl). lra.
    - rewrite (INR_literal 500 500 eq_refl). lra.
    - apply P0. lia. }
  assert (forall n, (500 <= n <= 1211)%nat -> walkingAt n 1 (ticks n walking)) as P1.
  { apply (walk_range 1 500 1211 i1 d2 1211 L1 T1); [lra|reflexivity|lra|exact S1]. }
  assert (walkingAt 1212 2 (ticks 1212 walking)) as S2.
  { apply (walk_advance 1 1211 i1 d2 L1 T1).
    - rewrite (INR_literal 1212 1212 eq_refl). lra.
    - rewrite (INR_literal 1212 1212 eq_refl). lra.
    - apply P1. lia. }
  assert (forall n, (1212 <= n <= 1918)%nat -> walkingAt n 2 (ticks n walking)) as P2.
  { apply (walk_range 2 1212 1918 i2 d3 1918 L2 T2); [lra|reflexivity|lra|exact S2]. }
  assert (walkingAt 1919 3 (ticks 1919 walking)) as S3.
  { apply (walk_advance 2 1918 i2 d3 L2 T2).
    - rewrite (INR_literal 1919 1919 eq_refl). lra.
    - rewrite (INR_literal 1919 1919 eq_refl). lra.
    - apply P2. lia. }
  assert (forall n, (1919 <= n <= 4085)%nat -> walkingAt n 3 (ticks n walking)) as P3.
  { apply (walk_range 3 1919 4085 i3 d4 4085 L3 T3); [lra|reflexivity|lra|exact S3]. }
  exact (conj P0 (conj P1 (conj P2 P3))).
Qed.

(** *** Completion and instruction advance *)

Lemma tick_complete_spec (t : Timer) (s : App) :
  totalDistanceTraveledRef s + distanceToAdvance
  >= totalPathLength (points (layout s)) (timer_pathPointsForMap t) ->
  let s' := tick t s in
  totalDistanceTraveledRef s'
  = totalPathLength (points (layout s)) (timer_pathPointsForMap t)
  /\ speechLog s'
     = speechLog s
       ++ [Speak (destinationMessage (timer_language t) (timer_pnrDetails t))
             (timer_language t);
           CancelSpeech]
  /\ simulationIntervalRef s' = None
  /\ isSimulating s' = false
  /\ userBearing s' = None
  /\ userPosition s' = userPosition s
  /\ currentInstructionIdxRef s' = currentInstructionIdxRef s
  /\ currentInstructionIndex s' = currentInstructionIndex s.
Proof.
  intros Hge. unfold tick.
  cbn [totalDistanceTraveledRef set_totalDistanceTraveledRef layout].
  destruct (Rge_dec _ _) as [_|Hn]; [|contradiction].
  unfold cancelSimulation.
  destruct (simulationIntervalRef s) eqn:E.
  all: repeat (refine (conj _ _)); cbn; rewrite ?E; cbn; rewrite ?E, <- ?app_assoc;
    reflexivity.
Qed.

Lemma fire_stopped (s : App) : simulationIntervalRef s = None -> fire s = s.
Proof. intros H. unfold fire. now rewrite H. Qed.


Lemma walk_at_4085 :
  let s := ticks 4085 walking in
  exists total inst,
    simulationIntervalRef s = Some timerGateA
    /\ isSimulating s = true
    /\ totalPathLength (points (layout s)) (timer_pathPointsForMap timerGateA)
       = total
    /\ currentInstructionIdxRef s = 3%nat
    /\ timer_pathInstructions timerGateA !! 3%nat = Some inst
    /\ PathInstruction.cumulativeDistanceToTarget inst = Some total
    /\ totalDistanceTraveledRef s = 408.5
    /\ 408.534 < total < 408.540.
Proof.
  destruct gateA_walk
    as (d1 & d2 & d3 & d4 & (Hmap & Htot & _ & _ & _ & H4) & _ & _ & _ & P3).
  destruct (P3 4085%nat ltac:(lia)) as ((Ht & Hs & Hp) & Hk & _ & Ha).
  destruct (lookup_target _ 3 _ d4 Hmap eq_refl) as (i3 & L3 & T3).
  cbv zeta. exists d4, i3. rewrite Hp.
  refine (conj Ht (conj Hs (conj Htot (conj Hk (conj L3 (conj T3 (conj _ H4))))))).
  rewrite Ha, (INR_literal 4085 4085 eq_refl). lra.
Qed.


(** C3 (amended).  No tick raises the instruction index by more than one.
    On a tick that does not complete the walk, if the current instruction's
    target distance is set and at most the advanced accumulator, the index
    (ref and displayed state) becomes exactly its successor, whatever the
    targets of the later instructions are. *)
Theorem tick_advances_one_instruction (t : Timer) (s : App) :
  let traveled := totalDistanceTraveledRef s + distanceToAdvance in
  let s' := tick t s in
  (currentInstructionIdxRef s' = currentInstructionIdxRef s
   \/ currentInstructionIdxRef s' = S (currentInstructionIdxRef s))
  /\ (traveled < totalPathLength (points (layout s)) (timer_pathPointsForMap t) ->
      forall inst target,
        timer_pathInstructions t !! currentInstructionIdxRef s = Some inst ->
        PathInstruction.cumulativeDistanceToTarget inst = Some target ->
        target <= traveled ->
        totalDistanceTraveledRef s' = traveled
        /\ currentInstructionIdxRef s' = S (currentInstructionIdxRef s)
        /\ currentInstructionIndex s' = S (currentInstructionIdxRef s)).
Proof.
  intros traveled s'. subst traveled s'.
  pose proof (moveUser_frame (points (layout s)) (timer_pathPointsForMap t)
                (set_totalDistanceTraveledRef
                   (totalDistanceTraveledRef s + distanceToAdvance) s)) as Hm.
  cbv zeta in Hm. destruct Hm as (Ma & Mi & _). cbn in Ma, Mi.
  set (s2 := moveUser (points (layout s)) (timer_pathPointsForMap t) _) in *.
  pose proof (advanceInstruction_frame t s2) as Hf. cbv zeta in Hf.
  destruct Hf as (Fa & _ & _ & _ & _ & Fi & _).
  split.
  - destruct (Rlt_dec (totalDistanceTraveledRef s + distanceToAdvance)
                (totalPathLength (points (layout s)) (timer_pathPointsForMap t)))
      as [Hlt|Hge].
    + rewrite (tick_not_complete t s Hlt). fold s2.
      rewrite Mi in Fi. exact Fi.
    + left. apply (tick_complete_spec t s). lra.
  - intros Hlt inst target Hi Ht Hle.
    rewrite (tick_not_complete t s Hlt). fold s2.
    assert (timer_pathInstructions t !! currentInstructionIdxRef s2 = Some inst)
      as Hi2 by (rewrite Mi; exact Hi).
    assert (target <= totalDistanceTraveledRef s2) as Hle2
      by (rewrite Ma; exact Hle).
    destruct (advanceInstruction_step t s2 inst target Hi2 Ht Hle2)
      as (Si & Sc & _).
    rewrite Fa, Ma, Si, Sc, Mi. repeat (refine (conj _ _)); reflexivity.
Qed.

Lemma walk_at_1918 :
  let s := ticks 1918 walking in
  exists total d3 inst,
    simulationIntervalRef s = Some timerGateA
    /\ totalPathLength (points (layout s)) (timer_pathPointsForMap timerGateA)
       = total
    /\ currentInstructionIdxRef s = 2%nat
    /\ timer_pathInstructions timerGateA !! 2%nat = Some inst
    /\ PathInstruction.cumulativeDistanceToTarget inst = Some d3
    /\ totalDistanceTraveledRef s = 191.8
    /\ 191.887 < d3 < 191.891
    /\ 408.534 < total < 408.540.
Proof.
  destruct gateA_walk
    as (d1 & d2 & d3 & d4 & (Hmap & Htot & _ & _ & H3 & H4) & _ & _ & P2 & _).
  destruct (P2 1918%nat ltac:(lia)) as ((Ht & Hs & Hp) & Hk & _ & Ha).
  destruct (lookup_target _ 2 _ d3 Hmap eq_refl) as (i2 & L2 & T2).
  cbv zeta. exists d4, d3, i2. rewrite Hp.
  refine (conj Ht (conj Htot (conj Hk (conj L2 (conj T2 (conj _ (conj H3 H4))))))).
  rewrite Ha, (INR_literal 1918 1918 eq_refl). lra.
Qed.

Lemma tick_advances_one_instruction_witness :
  let s := ticks 1918 walking in
  totalDistanceTraveledRef s + distanceToAdvance
  < totalPathLength (points (layout s)) (timer_pathPointsForMap timerGateA)
  /\ currentInstructionIdxRef s = 2%nat
  /\ currentInstructionIdxRef (tick timerGateA s) = 3%nat.
Proof.
  destruct walk_at_1918
    as (total & d3 & inst & _ & Htot & Hk & Hi & Hd & Ha & H3 & H4).
  cbv zeta in *.
  assert (totalDistanceTraveledRef (ticks 1918 walking) + distanceToAdvance
          < totalPathLength (points (layout (ticks 1918 walking)))
              (timer_pathPointsForMap timerGateA)) as Hlt.
  { rewrite Htot, Ha, distanceToAdvance_value. lra. }
  assert (d3 <= totalDistanceTraveledRef (ticks 1918 walking) + distanceToAdvance)
    as Hle by (rewrite Ha, distanceToAdvance_value; lra).
  rewrite <- Hk in Hi.
  destruct (proj2 (tick_advances_one_instruction timerGateA (ticks 1918 walking))
              Hlt inst d3 Hi Hd Hle) as (_ & Hn & _).
  rewrite Hk in Hn. exact (conj Hlt (conj Hk Hn)).
Defined.

(** C3 as stated fails on the tick that completes the walk: the target of
    the last instruction is the total length, the accumulator reaches it,
    and the index stays at 3. *)
Lemma completing_tick_keeps_instruction :
  let s := ticks 4085 walking in
  let s' := tick timerGateA s in
  exists inst target,
    timer_pathInstructions timerGateA !! currentInstructionIdxRef s = Some inst
    /\ PathInstruction.cumulativeDistanceToTarget inst = Some target
    /\ target <= totalDistanceTraveledRef s + distanceToAdvance
    /\ target <= totalDistanceTraveledRef s'
    /\ currentInstructionIdxRef s' = currentInstructionIdxRef s.
Proof.
  destruct walk_at_4085
    as (total & inst & _ & _ & Htot & Hk & Hi & Hd & Ha & Hb).
  cbv zeta in *. exists inst, total.
  assert (totalDistanceTraveledRef (ticks 4085 walking) + distanceToAdvance
          >= totalPathLength (points (layout (ticks 4085 walking)))
               (timer_pathPointsForMap timerGateA)) as Hge.
  { rewrite Htot, Ha, distanceToAdvance_value. lra. }
  destruct (tick_complete_spec timerGateA (ticks 4085 walking) Hge)
    as (H1 & _ & _ & _ & _ & _ & H7 & _).
  rewrite Hk. refine (conj Hi (conj Hd (conj _ (conj _ _)))).
  - rewrite Ha, distanceToAdvance_value. lra.
  - rewrite H1, Htot. lra.
  - rewrite H7. exact Hk.
Qed.

(** C5 (amended).  For gate A and platform 1 the materialized path is the
    ten points listed; starting reports instruction index 0 and announces
    the first instruction.  The thresholds come from the offsets of the
    points, not from the authored leg distances: the index is 2 from tick
    1212 to tick 1918 (so also at 140 m), becomes 3 on tick 1919, when the
    accumulator reaches the escalator's cumulative distance (about 191.89
    m), stays 3 up to tick 4085, and tick 4086 completes the walk with the
    accumulator at the total length (about 408.54 m). *)
Theorem gate_a_platform_1_walk :
  idsOf (points (layout atGateA)) (pathPointsForMap atGateA)
  = ["gate-a"; "node-ga-1"; "node-ga-2"; "node-ga-wh-1"; "waiting-hall";
     "node-wh-e1-1"; "escalator-1"; "node-e1-p1-1"; "node-e1-p1-2"; "platform-1"]
  /\ currentInstructionIdxRef walking = 0%nat
  /\ currentInstructionIndex walking = 0%nat
  /\ speechLog walking
     = [CancelSpeech; CancelSpeech;
        Speak "Walk straight from Entry Gate A for 20 meters." en_US]
  /\ exists d3 total : R,
       PathInstruction.cumulativeDistanceToTarget
         <$> (pathInstructions atGateA !! 2%nat) = Some (Some d3)
       /\ totalPathLength (points (layout atGateA)) (pathPointsForMap atGateA)
          = total
       /\ 191.887 < d3 < 191.891
       /\ 408.534 < total < 408.540
       /\ (forall n, (1212 <= n <= 1918)%nat ->
             currentInstructionIdxRef (ticks n walking) = 2%nat
             /\ isSimulating (ticks n walking) = true
             /\ totalDistanceTraveledRef (ticks n walking) = INR n / 10)
       /\ (forall n, (1919 <= n <= 4085)%nat ->
             currentInstructionIdxRef (ticks n walking) = 3%nat
             /\ currentInstructionIndex (ticks n walking) = 3%nat
             /\ isSimulating (ticks n walking) = true
             /\ totalDistanceTraveledRef (ticks n walking) = INR n / 10)
       /\ isSimulating (ticks 4086 walking) = false
       /\ simulationIntervalRef (ticks 4086 walking) = None
       /\ totalDistanceTraveledRef (ticks 4086 walking) = total.
Proof.
  destruct atGateA_facts as (Hp & Hi & Hs & _).
  destruct walking_facts as (_ & _ & Wi & Wc & _ & _ & _ & Wl).
  rewrite Hp, Hi, Hs.
  refine (conj materializedGateA_ids (conj Wi (conj Wc (conj Wl _)))).
  destruct gateA_walk
    as (d1 & d2 & d3 & d4 & (Hmap & Htot & _ & _ & H3 & H4) & _ & _ & P2 & P3).
  exists d3, d4.
  destruct (lookup_target _ 2 _ d3 Hmap eq_refl) as (i2 & L2 & T2).
  assert (PathInstruction.cumulativeDistanceToTarget
            <$> (mat_instructions materializedGateA !! 2%nat) = Some (Some d3))
    as Hd3 by (rewrite L2; cbn; now rewrite T2).
  refine (conj Hd3 (conj Htot (conj H3 (conj H4 (conj _ (conj _ _)))))).
  - intros n Hn. destruct (P2 n Hn) as ((_ & Hsim & _) & Hk & _ & Ha).
    exact (conj Hk (conj Hsim Ha)).
  - intros n Hn. destruct (P3 n Hn) as ((_ & Hsim & _) & Hk & Hc & Ha).
    exact (conj Hk (conj Hc (conj Hsim Ha))).
  - destruct walk_at_4085
      as (total & inst & Ht & _ & Htot' & _ & _ & _ & Ha & Hb).
    cbv zeta in *.
    assert (totalDistanceTraveledRef (ticks 4085 walking) + distanceToAdvance
            >= totalPathLength (points (layout (ticks 4085 walking)))
                 (timer_pathPointsForMap timerGateA)) as Hge.
    { rewrite Htot', Ha, distanceToAdvance_value. lra. }
    destruct (tick_complete_spec timerGateA (ticks 4085 walking) Hge)
      as (H1 & _ & H2 & H5 & _).
    rewrite !(ticks_S 4085 walking). unfold fire. rewrite Ht.
    refine (conj H5 (conj H2 _)). rewrite H1.
    destruct (P3 4085%nat ltac:(lia)) as ((_ & _ & Hst) & _).
    rewrite Hst. exact Htot.
Qed.

(** C5 as stated fails: at 140 m and just past it the walk is still
    running and still at index 2. *)
Lemma gate_a_platform_1_at_140m :
  totalDistanceTraveledRef (ticks 1400 walking) = 140
  /\ isSimulating (ticks 1400 walking) = true
  /\ totalDistanceTraveledRef (ticks 1401 walking) = 140.1
  /\ isSimulating (ticks 1401 walking) = true
  /\ currentInstructionIdxRef (ticks 1401 walking) = 2%nat
  /\ currentInstructionIdxRef (ticks 1401 walking) <> 3%nat.
Proof.
  destruct gateA_walk as (d1 & d2 & d3 & d4 & _ & _ & _ & P2 & _).
  destruct (P2 1400%nat ltac:(lia)) as ((_ & S0 & _) & _ & _ & A0).
  destruct (P2 1401%nat ltac:(lia)) as ((_ & S1 & _) & K1 & _ & A1).
  rewrite (INR_literal 1400 1400 eq_refl) in A0.
  rewrite (INR_literal 1401 1401 eq_refl) in A1.
  refine (conj _ (conj S0 (conj _ (conj S1 (conj K1 _))))).
  - rewrite A0. lra.
  - rewrite A1. lra.
  - rewrite K1. discriminate.
Qed.

(** The first leg of the walk is 20 m long. *)
Lemma locateSegment_first_leg (traveled : R) :
  0 <= traveled <= 20 ->
  locateSegment (mat_store materializedGateA) (mat_points materializedGateA)
    traveled
  = Some (0%nat, 9%nat, traveled / 20).
Proof.
  intros [Hlo Hhi].
  assert (mat_points materializedGateA = [0; 9; 10; 11; 6; 12; 7; 13; 14; 2]%nat)
    as -> by (vm_compute; reflexivity).
  assert (cumulativeOf (mat_store materializedGateA) 0%nat = Some 0) as H0
    by (vm_compute; reflexivity).
  assert (cumulativeOf (mat_store materializedGateA) 9%nat
          = Some (0 + sqrt ((70 - 50) * (70 - 50) + (250 - 250) * (250 - 250))))
    as H9 by (vm_compute; reflexivity).
  assert (sqrt ((70 - 50) * (70 - 50) + (250 - 250) * (250 - 250)) = 20) as E
    by (apply sqrt_exact; lra).
  rewrite E in H9.
  cbn [locateSegment]. rewrite H0, H9.
  unfold default, from_option, Datatypes.id, fractionOf.
  destruct (Rge_dec traveled 0); [|lra].
  destruct (Rle_dec traveled (0 + 20)); [|lra].
  replace (0 + 20 - 0) with 20 by lra.
  replace (traveled - 0) with traveled by lra.
  destruct (Rlt_dec 0 20); [reflexivity|lra].
Qed.

(** C7.  On a tick that does not complete the walk and locates a segment,
    the fraction is (accumulator - segmentStart) / segmentLength with a
    positive segmentLength, or 0 when segmentLength is 0; it lies between 0
    and 1, and the position set by the tick is the interpolation of the
    segment's end points at that fraction. *)
Theorem tick_fraction_never_divides_by_zero (t : Timer) (s : App)
    (p1 p2 : nat) (f : R) (a b : LatLng) :
  let store := points (layout s) in
  let traveled := totalDistanceTraveledRef s + distanceToAdvance in
  traveled < totalPathLength store (timer_pathPointsForMap t) ->
  locateSegment store (timer_pathPointsForMap t) traveled = Some (p1, p2, f) ->
  StationPoint.latLng (store !!! p1) = Some a ->
  StationPoint.latLng (store !!! p2) = Some b ->
  let segmentStartDist := default 0 (cumulativeOf store p1) in
  let segmentEndDist := default 0 (cumulativeOf store p2) in
  let segmentLength := segmentEndDist - segmentStartDist in
  ((0 < segmentLength /\ f = (traveled - segmentStartDist) / segmentLength)
   \/ (segmentLength = 0 /\ f = 0))
  /\ 0 <= f <= 1
  /\ userPosition (tick t s) = Some (getIntermediateLatLng a b f).
Proof.
  intros store traveled Hlt Hloc Ha Hb sa sb len.
  destruct (locateSegment_Some _ _ _ _ _ _ Hloc) as (i & _ & _ & Hr & Hf).
  fold sa sb in Hr, Hf.
  split; [|split].
  - subst f len. unfold fractionOf.
    destruct (Rlt_dec 0 (sb - sa)) as [Hlen|Hlen].
    + left. split; [exact Hlen|reflexivity].
    + right. split; [lra|reflexivity].
  - subst f. now apply fractionOf_bounds.
  - rewrite (tick_not_complete t s Hlt).
    destruct (advanceInstruction_frame t
                (moveUser (points (layout s)) (timer_pathPointsForMap t)
                   (set_totalDistanceTraveledRef
                      (totalDistanceTraveledRef s + distanceToAdvance) s)))
      as (_ & _ & _ & _ & -> & _).
    unfold moveUser. cbn [totalDistanceTraveledRef set_totalDistanceTraveledRef].
    fold store traveled. rewrite Hloc, Ha, Hb. reflexivity.
Qed.

Lemma tick_fraction_never_divides_by_zero_witness :
  let store := points (layout walking) in
  let traveled := totalDistanceTraveledRef walking + distanceToAdvance in
  traveled < totalPathLength store (timer_pathPointsForMap timerGateA)
  /\ locateSegment store (timer_pathPointsForMap timerGateA) traveled
     = Some (0%nat, 9%nat, traveled / 20)
  /\ StationPoint.latLng (store !!! 0%nat) = Some (getLatLngFromOffset 50 250)
  /\ StationPoint.latLng (store !!! 9%nat) = Some (getLatLngFromOffset 70 250)
  /\ 0 <= traveled / 20 <= 1
  /\ userPosition (tick timerGateA walking)
     = Some (getIntermediateLatLng (getLatLngFromOffset 50 250)
               (getLatLngFromOffset 70 250) (traveled / 20)).
Proof.
  destruct walking_facts as (_ & Wa & _ & _ & _ & _ & Wp & _).
  destruct gateA_distances as (d1 & d2 & d3 & d4 & _ & Htot & _ & _ & _ & H4).
  cbv zeta. rewrite Wp.
  change (timer_pathPointsForMap timerGateA) with (mat_points materializedGateA).
  assert (0 <= totalDistanceTraveledRef walking + distanceToAdvance <= 20) as Hr
    by (rewrite Wa, distanceToAdvance_value; lra).
  assert (totalDistanceTraveledRef walking + distanceToAdvance
          < totalPathLength (mat_store materializedGateA)
              (mat_points materializedGateA)) as Hlt
    by (rewrite Htot; lra).
  pose proof (locateSegment_first_leg _ Hr) as Hloc.
  assert (StationPoint.latLng (mat_store materializedGateA !!! 0%nat)
          = Some (getLatLngFromOffset 50 250)) as Ha by (vm_compute; reflexivity).
  assert (StationPoint.latLng (mat_store materializedGateA !!! 9%nat)
          = Some (getLatLngFromOffset 70 250)) as Hb by (vm_compute; reflexivity).
  pose proof (tick_fraction_never_divides_by_zero timerGateA walking 0 9
                ((totalDistanceTraveledRef walking + distanceToAdvance) / 20)
                (getLatLngFromOffset 50 250) (getLatLngFromOffset 70 250)) as H.
  cbv zeta in H. rewrite Wp in H.
  change (timer_pathPointsForMap timerGateA)
    with (mat_points materializedGateA) in H.
  destruct (H Hlt Hloc Ha Hb) as (_ & Hf & Hpos).
  exact (conj Hlt (conj Hloc (conj Ha (conj Hb (conj Hf Hpos))))).
Defined.

(** *** Cancellation *)

Lemma cancelSimulation_spec (s : App) :
  let s' := cancelSimulation s in
  simulationIntervalRef s' = None
  /\ isSimulating s' = false
  /\ userBearing s' = None
  /\ speechLog s' = speechLog s ++ [CancelSpeech]
  /\ totalDistanceTraveledRef s' = totalDistanceTraveledRef s
  /\ currentInstructionIdxRef s' = currentInstructionIdxRef s
  /\ currentInstructionIndex s' = currentInstructionIndex s
  /\ pnrDetails s' = pnrDetails s
  /\ selectedEntryGateId s' = selectedEntryGateId s
  /\ liveLocationEnabled s' = liveLocationEnabled s
  /\ layout s' = layout s.
Proof.
  unfold cancelSimulation. destruct (simulationIntervalRef s) eqn:E; cbn;
    rewrite ?E; repeat split; reflexivity.
Qed.

Lemma liveLocationEffect_spec (supported : bool) (s : App) :
  let s' := liveLocationEffect supported s in
  pnrDetails s' = pnrDetails s
  /\ selectedEntryGateId s' = selectedEntryGateId s
  /\ sameProgress s s'
  /\ currentInstructionIndex s' = currentInstructionIndex s
  /\ userBearing s' = None
  /\ (liveLocationEnabled s = true ->
        simulationIntervalRef s' = None /\ isSimulating s' = false
        /\ speechLog s' = speechLog s ++ [CancelSpeech])
  /\ (liveLocationEnabled s = false ->
        simulationIntervalRef s' = simulationIntervalRef s
        /\ isSimulating s' = isSimulating s
        /\ speechLog s' = speechLog s).
Proof.
  unfold liveLocationEffect, sameProgress, cancelSimulation.
  destruct (liveLocationEnabled s) eqn:El;
    [|cbn; repeat (split || intro); try congruence; try reflexivity].
  all: destruct supported, (simulationIntervalRef s) eqn:E; cbn; rewrite ?E;
    cbn; rewrite ?E; repeat (split || intro); try congruence; try reflexivity.
Qed.

Lemma afterRender_spec (supported : bool) (prev next : App) :
  let s' := afterRender supported prev next in
  pnrDetails s' = pnrDetails next
  /\ selectedEntryGateId s' = selectedEntryGateId next
  /\ (userBearing next = None -> userBearing s' = None)
  /\ (simulationIntervalRef next = None -> simulationIntervalRef s' = None)
  /\ (isSimulating next = false -> isSimulating s' = false)
  /\ (exists k, speechLog s' = speechLog next ++ replicate k CancelSpeech)
  /\ (liveLocationEnabled prev = false -> liveLocationEnabled next = true ->
        userBearing s' = None /\ simulationIntervalRef s' = None
        /\ isSimulating s' = false
        /\ speechLog s' = speechLog next ++ [CancelSpeech])
  /\ (if bool_decide (pnrDetails prev = pnrDetails next
                      /\ selectedEntryGateId prev = selectedEntryGateId next)
      then sameProgress next s'
           /\ currentInstructionIndex s' = currentInstructionIndex next
      else totalDistanceTraveledRef s' = 0
           /\ currentInstructionIdxRef s' = 0%nat).
Proof.
  unfold afterRender.
  pose proof (liveLocationEffect_spec supported next) as Hl. cbv zeta in Hl.
  destruct Hl as (Hp & Hg & [Ha Hi] & Hidx & Hb & Hon & Hoff).
  set (s1 := if bool_decide (liveLocationEnabled prev = liveLocationEnabled next)
             then next else liveLocationEffect supported next).
  assert (pnrDetails s1 = pnrDetails next
          /\ selectedEntryGateId s1 = selectedEntryGateId next
          /\ (userBearing next = None -> userBearing s1 = None)
          /\ (simulationIntervalRef next = None -> simulationIntervalRef s1 = None)
          /\ (isSimulating next = false -> isSimulating s1 = false)
          /\ (exists k, speechLog s1 = speechLog next ++ replicate k CancelSpeech)
          /\ (liveLocationEnabled prev = false -> liveLocationEnabled next = true ->
                userBearing s1 = None /\ simulationIntervalRef s1 = None
                /\ isSimulating s1 = false
                /\ speechLog s1 = speechLog next ++ [CancelSpeech])
          /\ sameProgress next s1
          /\ currentInstructionIndex s1 = currentInstructionIndex next)
    as (H1 & H2 & H3 & H4 & H5 & H6 & H7 & [H8 H8'] & H9).
  { subst s1. case_bool_decide as Hd.
    - repeat split; try tauto; try congruence.
      exists 0%nat. simpl. now rewrite app_nil_r.
    - destruct (liveLocationEnabled next) eqn:E.
      + destruct (Hon eq_refl) as (Ht & Hs & Hlog).
        repeat split; try assumption; try tauto.
        exists 1%nat. exact Hlog.
      + destruct (Hoff eq_refl) as (Ht & Hs & Hlog).
        repeat split; try assumption; try congruence.
        exists 0%nat. simpl. now rewrite app_nil_r. }
  unfold sameProgress.
  case_bool_decide; cbn; repeat split; try assumption; try tauto.
Qed.

Ltac unfold_handlers :=
  unfold handle, handleRecalculateRoute, handleEntryGateSelect, handlePNRLookup,
    clearRoute, cancelSimulation, cancelSpeech, sameProgress.

Ltac cancelled_once :=
  try solve [ exists 0%nat; rewrite <- ?app_assoc; reflexivity
            | exists 1%nat; rewrite <- ?app_assoc; reflexivity ].

Lemma handle_spec (e : CancelEvent) (s : App) :
  e <> ToggleLiveLocation ->
  let n := handle e s in
  simulationIntervalRef n = None
  /\ isSimulating n = false
  /\ userBearing n = None
  /\ (exists k, speechLog n = speechLog s ++ replicate (S k) CancelSpeech)
  /\ sameProgress s n
  /\ match e with
     | Pause =>
         pnrDetails n = pnrDetails s
         /\ selectedEntryGateId n = selectedEntryGateId s
         /\ currentInstructionIndex n = currentInstructionIndex s
         /\ liveLocationEnabled n = liveLocationEnabled s
     | RecalculateRoute =>
         pnrDetails n = pnrDetails s
         /\ selectedEntryGateId n = selectedEntryGateId s
     | SelectEntryGate g =>
         pnrDetails n = pnrDetails s /\ selectedEntryGateId n = Some g
     | LookupPNR p => pnrDetails n = getPNRDetails p
     | ToggleLiveLocation => True
     end.
Proof.
  intros He. destruct e as [| |g|p|]; [|contradiction| | |]; unfold_handlers.
  - destruct (simulationIntervalRef s) eqn:E;
      repeat (progress (cbn; rewrite ?E));
      repeat split; try reflexivity; cancelled_once.
  - destruct (simulationIntervalRef s) eqn:E, (pnrDetails s) eqn:Ep;
      repeat (progress (cbn; rewrite ?E, ?Ep)); repeat case_match;
      repeat (progress (cbn; rewrite ?E, ?Ep));
      repeat split; try reflexivity; cancelled_once.
  - destruct (simulationIntervalRef s) eqn:E, (getPNRDetails p) eqn:Ep;
      repeat (progress (cbn; rewrite ?E));
      repeat split; try reflexivity; cancelled_once.
  - destruct (simulationIntervalRef s) eqn:E, (pnrDetails s) eqn:Ep,
      (selectedEntryGateId s) eqn:Eg;
      repeat (progress (cbn; rewrite ?E, ?Ep, ?Eg)); repeat case_match;
      repeat (progress (cbn; rewrite ?E, ?Ep, ?Eg));
      repeat split; try reflexivity; cancelled_once.
Qed.

Lemma replicate_app_cancel (j k : nat) (l : list SpeechCall) :
  (l ++ replicate (S j) CancelSpeech) ++ replicate k CancelSpeech
  = l ++ replicate (S (j + k)) CancelSpeech.
Proof. rewrite <- app_assoc. f_equal. now rewrite <- replicate_add. Qed.

(** C6.  Every cancelling event (pause, switching live location on, a
    gate selection, a PNR lookup, recalculation) leaves the interval
    cleared, [isSimulating] false, the bearing absent and the announcer
    cancelled.  The accumulator and the instruction index of the simulator
    are unchanged unless the event changed the PNR details or the selected
    gate, in which case both are 0; pausing, switching live location on and
    recalculating never change either of the two. *)
Theorem cancellation_keeps_progress (supported : bool) (e : CancelEvent) (s : App) :
  (e = ToggleLiveLocation -> liveLocationEnabled s = false) ->
  let s' := dispatch supported e s in
  stopped s s'
  /\ (if bool_decide (pnrDetails s = pnrDetails s'
                      /\ selectedEntryGateId s = selectedEntryGateId s')
      then sameProgress s s'
      else totalDistanceTraveledRef s' = 0
           /\ currentInstructionIdxRef s' = 0%nat)
  /\ match e with
     | Pause | ToggleLiveLocation =>
         pnrDetails s' = pnrDetails s
         /\ selectedEntryGateId s' = selectedEntryGateId s
         /\ sameProgress s s'
         /\ currentInstructionIndex s' = currentInstructionIndex s
     | RecalculateRoute =>
         pnrDetails s' = pnrDetails s
         /\ selectedEntryGateId s' = selectedEntryGateId s
         /\ sameProgress s s'
     | SelectEntryGate g =>
         pnrDetails s' = pnrDetails s /\ selectedEntryGateId s' = Some g
     | LookupPNR p => pnrDetails s' = getPNRDetails p
     end.
Proof.
  intros Hlive s'. subst s'. unfold dispatch.
  pose proof (afterRender_spec supported s (handle e s)) as Hr. cbv zeta in Hr.
  destruct Hr as (Hp & Hg & Hb & Ht & Hs & [k Hlog] & Hon & Hreset).
  rewrite Hp, Hg.
  assert (e = ToggleLiveLocation \/ e <> ToggleLiveLocation) as [->|Hne]
    by (destruct e; (now left) || (now right)).
  - specialize (Hlive eq_refl). cbn [handle] in *. rewrite Hlive in *.
    cbn in Hp, Hg, Hon, Hreset.
    destruct (Hon eq_refl eq_refl) as (Hb' & Ht' & Hs' & Hlog').
    rewrite bool_decide_eq_true_2 in Hreset by (split; reflexivity).
    destruct Hreset as [Hprog Hidx]. unfold sameProgress in *. cbn in Hprog, Hidx.
    cbn. rewrite bool_decide_eq_true_2 by (split; reflexivity).
    split; [|auto].
    unfold stopped. repeat split; try assumption. exists 0%nat. exact Hlog'.
  - pose proof (handle_spec e s Hne) as Hh. cbv zeta in Hh.
    destruct Hh as (Ht0 & Hs0 & Hb0 & [j Hlog0] & [Ha0 Hi0] & He).
    assert (stopped s (afterRender supported s (handle e s))) as Hstop.
    { unfold stopped. repeat split; auto.
      exists (j + k)%nat. rewrite Hlog, Hlog0. apply replicate_app_cancel. }
    split; [exact Hstop|].
    assert (if bool_decide (pnrDetails s = pnrDetails (handle e s)
                            /\ selectedEntryGateId s = selectedEntryGateId (handle e s))
            then sameProgress s (afterRender supported s (handle e s))
            else totalDistanceTraveledRef (afterRender supported s (handle e s)) = 0
                 /\ currentInstructionIdxRef (afterRender supported s (handle e s))
                    = 0%nat) as Hprog.
    { case_bool_decide; [|exact Hreset].
      destruct Hreset as [[Ha Hi] _]. unfold sameProgress in *. split; congruence. }
    split; [exact Hprog|].
    destruct e as [| |g|p|]; try contradiction.
    + destruct He as (He1 & He2 & He3 & _).
      rewrite bool_decide_eq_true_2 in Hprog, Hreset by (split; congruence).
      destruct Hreset as [_ Hidx]. repeat split; try congruence; apply Hprog.
    + exact He.
    + exact He.
    + destruct He as (He1 & He2).
      rewrite bool_decide_eq_true_2 in Hprog by (split; congruence).
      repeat split; try congruence; apply Hprog.
Qed.

Lemma cancellation_keeps_progress_witness :
  (ToggleLiveLocation = ToggleLiveLocation -> liveLocationEnabled walking = false)
  /\ stopped walking (dispatch true ToggleLiveLocation walking)
  /\ sameProgress walking (dispatch true ToggleLiveLocation walking).
Proof.
  destruct walking_facts as (_ & _ & _ & _ & _ & Wl & _).
  pose proof (cancellation_keeps_progress true ToggleLiveLocation walking
                (fun _ => Wl)) as (H1 & _ & _ & _ & H2 & _).
  exact (conj (fun _ => Wl) (conj H1 H2)).
Defined.

(** *** A point shared by two routes *)

(** The escalator lies on the routes from both gates to platform 1; after
    the route from gate B is materialized it carries that route's distance. *)
Lemma escalator_annotation_overwritten :
  let second := generatePathPointsForMap (mat_store materializedGateA)
                  route_gate_b_platform_1 (Some "gate-b") in
  getPointById (points mockStationLayout) "escalator-1" = Some 7%nat
  /\ 7%nat ∈ mat_points materializedGateA
  /\ 7%nat ∈ mat_points second
  /\ exists dA dB : R,
       cumulativeOf (mat_store materializedGateA) 7%nat = Some dA
       /\ cumulativeOf (mat_store second) 7%nat = Some dB
       /\ dA < 192 /\ 312 < dB.
Proof.
  cbv zeta.
  refine (conj _ (conj _ (conj _ _))).
  - vm_compute. reflexivity.
  - apply (bool_decide_unpack _). vm_compute. exact I.
  - apply (bool_decide_unpack _). vm_compute. exact I.
  - set (l1 := sqrt ((70 - 50) * (70 - 50) + (250 - 250) * (250 - 250))).
    set (l2 := sqrt ((100 - 70) * (100 - 70) + (250 - 250) * (250 - 250))).
    set (l3 := sqrt ((135 - 100) * (135 - 100) + (290 - 250) * (290 - 250))).
    set (l4 := sqrt ((150 - 135) * (150 - 135) + (300 - 290) * (300 - 290))).
    set (l5 := sqrt ((175 - 150) * (175 - 150) + (275 - 300) * (275 - 300))).
    set (l6 := sqrt ((200 - 175) * (200 - 175) + (250 - 275) * (250 - 275))).
    set (m1 := sqrt ((430 - 450) * (430 - 450) + (250 - 250) * (250 - 250))).
    set (m2 := sqrt ((350 - 430) * (350 - 430) + (250 - 250) * (250 - 250))).
    set (m3 := sqrt ((300 - 350) * (300 - 350) + (250 - 250) * (250 - 250))).
    set (m4 := sqrt ((175 - 300) * (175 - 300) + (275 - 250) * (275 - 250))).
    exists (0 + l1 + l2 + l3 + l4 + l5 + l6), (0 + m1 + m2 + m3 + m4 + l6).
    refine (conj _ (conj _ _)); [vm_compute; reflexivity..|].
    assert (l1 = 20) as E1 by (apply sqrt_exact; lra).
    assert (l2 = 30) as E2 by (apply sqrt_exact; lra).
    assert (53.150 < l3 < 53.151) as B3 by (apply sqrt_between; lra).
    assert (18.027 < l4 < 18.028) as B4 by (apply sqrt_between; lra).
    assert (35.355 < l5 < 35.356) as B5 by (apply sqrt_between; lra).
    assert (35.355 < l6 < 35.356) as B6 by (apply sqrt_between; lra).
    assert (m1 = 20) as F1 by (apply sqrt_exact; lra).
    assert (m2 = 80) as F2 by (apply sqrt_exact; lra).
    assert (m3 = 50) as F3 by (apply sqrt_exact; lra).
    assert (127 < m4 < 128) as F4 by (apply sqrt_between; lra).
    clearbody l1 l2 l3 l4 l5 l6 m1 m2 m3 m4. lra.
Qed.

(** * The rest of the code *)

(** ** Geometry and the tables *)






Lemma Int_part_three_halves : Int_part (540 / 360) = 1%Z.
Proof. symmetry. apply Int_part_spec. simpl. lra. Qed.

(** X3: with both points on one meridian, the bearing to a point further
    north is 0 and the bearing to a point further south is 180. *)
Theorem calculateBearing_meridian (lat1 lat2 lng0 : R) :
  (0 < lat2 - lat1 < 180 -> calculateBearing lat1 lng0 lat2 lng0 = 0)
  /\ (-180 < lat2 - lat1 < 0 -> calculateBearing lat1 lng0 lat2 lng0 = 180).
Proof.
  pose proof PI_RGT_0 as Hpi.
  unfold calculateBearing. cbv zeta.
  replace (toRadians (lng0 - lng0)) with 0 by (unfold toRadians; field).
  rewrite sin_0, cos_0, Rmult_0_l, Rmult_1_r.
  set (d := toRadians lat2 - toRadians lat1).
  replace (cos (toRadians lat1) * sin (toRadians lat2)
           - sin (toRadians lat1) * cos (toRadians lat2))
    with (sin d) by (unfold d; rewrite sin_minus; ring).
  assert (d = (lat2 - lat1) * PI / 180) as Hd by (unfold d, toRadians; field).
  split; intros [Hlo Hhi].
  - assert (0 < sin d) as Hs.
    { apply sin_gt_0; rewrite Hd; nra. }
    unfold atan2. destruct (Rlt_dec 0 (sin d)) as [_|Hn]; [|contradiction].
    unfold Rdiv at 1. rewrite Rmult_0_l, atan_0.
    replace (toDegrees 0 + 360) with 360 by (unfold toDegrees; field; lra).
    apply js_rem_self. lra.
  - assert (sin d < 0) as Hs.
    { apply sin_lt_0_var; rewrite Hd; nra. }
    unfold atan2. destruct (Rlt_dec 0 (sin d)) as [Hp|_]; [lra|].
    destruct (Rlt_dec (sin d) 0) as [_|Hn]; [|contradiction].
    destruct (Rle_dec 0 0) as [_|Hn]; [|lra].
    unfold Rdiv at 1. rewrite Rmult_0_l, atan_0, Rplus_0_l.
    replace (toDegrees PI + 360) with 540 by (unfold toDegrees; field; lra).
    unfold js_rem. rewrite trunc_nonneg by lra.
    rewrite Int_part_three_halves. simpl. lra.
Qed.

Lemma calculateBearing_meridian_witness :
  calculateBearing 28.6435 77.2222 28.6440 77.2222 = 0
  /\ calculateBearing 28.6440 77.2222 28.6435 77.2222 = 180.
Proof.
  split.
  - apply (calculateBearing_meridian 28.6435 28.6440 77.2222). lra.
  - apply (calculateBearing_meridian 28.6440 28.6435 77.2222). lra.
Defined.

Lemma find_bool_decide_Some {A : Type} (P : A -> Prop) `{!forall x, Decision (P x)}
    (l : list A) (x : A) :
  find (fun a => bool_decide (P a)) l = Some x -> P x /\ x ∈ l.
Proof.
  induction l as [|a l IH]; cbn; [discriminate|].
  destruct (bool_decide_reflect (P a)) as [Ha|Ha].
  - intros [= <-]. split; [exact Ha|left].
  - intros Hf. destruct (IH Hf) as [Hx Hin]. split; [exact Hx|now right].
Qed.

Lemma find_bool_decide_None {A : Type} (P : A -> Prop) `{!forall x, Decision (P x)}
    (l : list A) :
  find (fun a => bool_decide (P a)) l = None <-> forall x, x ∈ l -> ~ P x.
Proof.
  induction l as [|a l IH]; cbn.
  - split; [|reflexivity]. intros _ x Hx. inversion Hx.
  - destruct (bool_decide_reflect (P a)) as [Ha|Ha].
    + split; [discriminate|]. intros Hf. destruct (Hf a); [left|exact Ha].
    + rewrite IH. split.
      * intros Hf x Hx. apply elem_of_cons in Hx as [->|Hx]; [exact Ha|now apply Hf].
      * intros Hf x Hx. apply Hf. now right.
Qed.

(** X4: a PNR lookup returns a record of the table whose PNR is the one
    asked for; every record of the table is found by its own PNR; and the
    lookup fails exactly for the numbers no record carries. *)
Theorem getPNRDetails_spec :
  (forall p d, getPNRDetails p = Some d -> pnr d = p /\ d ∈ mockPNRData)
  /\ (forall d, d ∈ mockPNRData -> getPNRDetails (pnr d) = Some d)
  /\ (forall p, getPNRDetails p = None
                <-> forall d, d ∈ mockPNRData -> pnr d <> p).
Proof.
  refine (conj _ (conj _ _)).
  - intros p d H. exact (find_bool_decide_Some (fun d => pnr d = p) _ _ H).
  - intros d Hd. unfold mockPNRData in Hd.
    repeat (apply elem_of_cons in Hd as [->|Hd]; [vm_compute; reflexivity|]).
    inversion Hd.
  - intros p. exact (find_bool_decide_None (fun d => pnr d = p) _).
Qed.

(** [getPointById] returns the first point of the table with the id asked
    for, and nothing exactly when no point carries it. *)
Lemma getPointById_first_match (store : list StationPoint.t) (i : string) :
  (forall r,
      getPointById store i = Some r
      <-> exists p, store !! r = Some p /\ StationPoint.id p = i
                    /\ forall j q, store !! j = Some q -> (j < r)%nat ->
                                   StationPoint.id q <> i)
  /\ (getPointById store i = None
      <-> forall p, p ∈ store -> StationPoint.id p <> i).
Proof.
  unfold getPointById. split.
  - intros r. rewrite fmap_Some. split.
    + intros [[r' p] [Hf ->]]. apply list_find_Some in Hf. exists p. exact Hf.
    + intros [p Hp]. exists (r, p). split; [|reflexivity].
      apply list_find_Some. exact Hp.
  - rewrite fmap_None, list_find_None, Forall_forall. reflexivity.
Qed.

Lemma getPointById_unique (store : list StationPoint.t) (r : nat)
    (p : StationPoint.t) :
  NoDup (StationPoint.id <$> store) ->
  store !! r = Some p ->
  getPointById store (StationPoint.id p) = Some r.
Proof.
  intros Hnd Hr. apply (proj1 (getPointById_first_match store _)).
  exists p. refine (conj Hr (conj eq_refl _)).
  intros j q Hj Hlt Heq.
  assert (j = r) as ->; [|lia].
  apply (NoDup_lookup _ j r (StationPoint.id p) Hnd).
  - rewrite list_lookup_fmap, Hj. cbn. now rewrite Heq.
  - rewrite list_lookup_fmap, Hr. reflexivity.
Qed.

Lemma ids_unannotated (store : list StationPoint.t) :
  StationPoint.id <$> store = StationPoint.id <$> (unannotated <$> store).
Proof. rewrite <- list_fmap_compose. reflexivity. Qed.

Lemma table_ids_NoDup : NoDup (StationPoint.id <$> points mockStationLayout).
Proof. apply (bool_decide_unpack _). vm_compute. reflexivity. Qed.

(** X5: in a table whose ids are distinct, every point is found by its own
    id, at its own place; materializing a route keeps the ids distinct. *)
Theorem getPointById_of_unique_ids (store : list StationPoint.t)
    (instructions : list PathInstruction.t) (entryGateId : option string) :
  NoDup (StationPoint.id <$> store) ->
  (forall r p, store !! r = Some p ->
     getPointById store (StationPoint.id p) = Some r)
  /\ NoDup (StationPoint.id
            <$> mat_store (generatePathPointsForMap store instructions entryGateId)).
Proof.
  intros Hnd. split.
  - intros r p. now apply getPointById_unique.
  - rewrite ids_unannotated.
    assert (unannotated <$> mat_store
                (generatePathPointsForMap store instructions entryGateId)
            = unannotated <$> store) as ->.
    { unfold generatePathPointsForMap. destruct entryGateId as [g|]; [|reflexivity].
      destruct (bool_decide (g = EmptyString)); [reflexivity|].
      cbn. apply unannotated_assignCumulative. }
    now rewrite <- ids_unannotated.
Qed.

Lemma getPointById_of_unique_ids_witness :
  NoDup (StationPoint.id <$> points mockStationLayout)
  /\ (forall r p, points mockStationLayout !! r = Some p ->
        getPointById (points mockStationLayout) (StationPoint.id p) = Some r).
Proof.
  split; [exact table_ids_NoDup|].
  exact (proj1 (getPointById_of_unique_ids (points mockStationLayout)
                  route_gate_a_platform_1 (Some "gate-a") table_ids_NoDup)).
Defined.

(** ** The materializer, in general *)

Lemma fold_push_omap (f : string -> option nat) (nodes : list string) :
  forall pts : list nat,
    fold_left (fun acc nodeId => push (f nodeId) acc) nodes pts
    = pts ++ omap f nodes.
Proof.
  induction nodes as [|n nodes IH]; intros pts; cbn.
  - now rewrite app_nil_r.
  - rewrite IH. destruct (f n) as [r|]; cbn; [|reflexivity].
    now rewrite <- app_assoc.
Qed.

Lemma collectInstruction_omap (store : list StationPoint.t) (pts : list nat)
    (inst : PathInstruction.t) :
  collectInstruction store pts inst
  = pts ++ omap (getPointById store)
             (default [] (PathInstruction.path_nodes inst)
              ++ [PathInstruction.to inst]).
Proof.
  unfold collectInstruction. rewrite omap_app. cbn [omap list_omap].
  destruct (PathInstruction.path_nodes inst) as [nodes|]; cbn [default from_option].
  - rewrite fold_push_omap.
    destruct (getPointById store (PathInstruction.to inst)); cbn.
    + now rewrite <- app_assoc.
    + now rewrite !app_nil_r.
  - destruct (getPointById store (PathInstruction.to inst)); cbn.
    + reflexivity.
    + now rewrite app_nil_r.
Qed.

Lemma fold_collect_omap (store : list StationPoint.t)
    (instructions : list PathInstruction.t) :
  forall pts : list nat,
    fold_left (collectInstruction store) instructions pts
    = pts ++ omap (getPointById store)
               (flat_map (fun inst =>
                            default [] (PathInstruction.path_nodes inst)
                            ++ [PathInstruction.to inst]) instructions).
Proof.
  induction instructions as [|inst l IH]; intros pts; cbn [fold_left flat_map].
  - cbn. now rewrite app_nil_r.
  - rewrite IH, collectInstruction_omap.
    rewrite (omap_app _ (_ ++ [_])), app_assoc. reflexivity.
Qed.

Lemma collectPoints_omap (store : list StationPoint.t)
    (instructions : list PathInstruction.t) (g : string) :
  collectPoints store instructions g
  = omap (getPointById store) (requestedIds instructions g).
Proof.
  unfold collectPoints, requestedIds. rewrite fold_collect_omap.
  cbn [omap list_omap]. destruct (getPointById store g); reflexivity.
Qed.

(** A reference handed out by [getPointById] is what the id of its object
    resolves to. *)
Lemma omap_canonical (store : list StationPoint.t) (ids : list string) (r : nat) :
  r ∈ omap (getPointById store) ids ->
  getPointById store (StationPoint.id (store !!! r)) = Some r.
Proof.
  intros Hr. apply list_elem_of_omap in Hr as (i & _ & Hi).
  destruct (getPointById_Some _ _ _ Hi) as (p & Hp & Hid).
  rewrite (list_lookup_total_correct _ _ _ Hp), Hid. exact Hi.
Qed.

Lemma idsOf_omap (store : list StationPoint.t) (ids : list string) :
  idsOf store (omap (getPointById store) ids)
  = filter (fun i => is_Some (getPointById store i)) ids.
Proof.
  unfold idsOf. induction ids as [|i ids IH]; [reflexivity|].
  cbn [omap list_omap]. rewrite filter_cons.
  destruct (getPointById store i) as [r|] eqn:Hi.
  - destruct (decide (is_Some (Some r))) as [_|Hn]; [|destruct Hn; eauto].
    cbn [map]. f_equal; [|exact IH].
    destruct (getPointById_Some _ _ _ Hi) as (p & Hp & Hid).
    now rewrite (list_lookup_total_correct _ _ _ Hp).
  - destruct (decide (is_Some (@None nat))) as [[? Hn]|_]; [discriminate|].
    exact IH.
Qed.

Lemma filter_all {A : Type} (P : A -> Prop) `{!forall x, Decision (P x)}
    (l : list A) :
  Forall P l -> filter P l = l.
Proof.
  induction 1 as [|a l Ha _ IH]; [reflexivity|].
  rewrite filter_cons. destruct (decide (P a)); [now f_equal|contradiction].
Qed.

Lemma idsOf_ext (s0 s1 : list StationPoint.t) (pts : list nat) :
  unannotated <$> s0 = unannotated <$> s1 -> idsOf s0 pts = idsOf s1 pts.
Proof.
  intros H. unfold idsOf. apply map_ext. intros r.
  pose proof (unannotated_lookup_total s0 s1 r H) as Hu.
  unfold unannotated in Hu. congruence.
Qed.

Lemma generate_Some (store : list StationPoint.t)
    (instructions : list PathInstruction.t) (g : string) :
  g <> EmptyString ->
  generatePathPointsForMap store instructions (Some g)
  = let pts := collectPoints store instructions g in
    let store' := assignCumulative None 0 pts store in
    mkMaterialized pts store' (map (annotateInstruction store' pts) instructions).
Proof.
  intros Hg. unfold generatePathPointsForMap.
  destruct (bool_decide_reflect (g = EmptyString)); [contradiction|reflexivity].
Qed.

Lemma mat_store_unannotated (store : list StationPoint.t)
    (instructions : list PathInstruction.t) (entryGateId : option string) :
  unannotated <$> mat_store (generatePathPointsForMap store instructions entryGateId)
  = unannotated <$> store.
Proof.
  unfold generatePathPointsForMap. destruct entryGateId as [g|]; [|reflexivity].
  destruct (bool_decide (g = EmptyString)); [reflexivity|].
  cbn. apply unannotated_assignCumulative.
Qed.

(** X6: the path of a materialization is the list of ids asked for (the
    gate, then the path nodes and the target of each instruction, in
    order) with the ids that resolve to no point dropped; when all of them
    resolve, the ids of the path are exactly the ids asked for. *)
Theorem path_is_the_requested_ids (store : list StationPoint.t)
    (instructions : list PathInstruction.t) (g : string) :
  g <> EmptyString ->
  let m := generatePathPointsForMap store instructions (Some g) in
  mat_points m = omap (getPointById store) (requestedIds instructions g)
  /\ idsOf (mat_store m) (mat_points m)
     = filter (fun i => is_Some (getPointById store i)) (requestedIds instructions g)
  /\ (Forall (fun i => is_Some (getPointById store i)) (requestedIds instructions g) ->
      idsOf (mat_store m) (mat_points m) = requestedIds instructions g).
Proof.
  intros Hg m.
  assert (mat_points m = omap (getPointById store) (requestedIds instructions g))
    as Hpts.
  { unfold m. rewrite (generate_Some _ _ _ Hg). cbn. apply collectPoints_omap. }
  assert (idsOf (mat_store m) (mat_points m)
          = filter (fun i => is_Some (getPointById store i))
              (requestedIds instructions g)) as Hids.
  { rewrite (idsOf_ext (mat_store m) store) by apply mat_store_unannotated.
    rewrite Hpts. apply idsOf_omap. }
  refine (conj Hpts (conj Hids _)).
  intros Hall. rewrite Hids. now apply filter_all.
Qed.

Lemma path_is_the_requested_ids_witness :
  "gate-a" <> EmptyString
  /\ mat_points materializedGateA
     = omap (getPointById (points mockStationLayout))
         (requestedIds route_gate_a_platform_1 "gate-a").
Proof.
  assert ("gate-a" <> EmptyString) as Hg by discriminate.
  split; [exact Hg|].
  exact (proj1 (path_is_the_requested_ids (points mockStationLayout)
                  route_gate_a_platform_1 "gate-a" Hg)).
Defined.

Lemma annotateInstruction_unannotated (store : list StationPoint.t) (pts : list nat)
    (inst : PathInstruction.t) :
  unannotatedInstruction (annotateInstruction store pts inst)
  = unannotatedInstruction inst.
Proof.
  unfold annotateInstruction.
  destruct (find _ pts) as [t|]; [|reflexivity].
  destruct (StationPoint.cumulativeDistance (store !!! t)); reflexivity.
Qed.

Lemma annotateInstruction_to (store : list StationPoint.t) (pts : list nat)
    (inst : PathInstruction.t) :
  PathInstruction.to (annotateInstruction store pts inst) = PathInstruction.to inst.
Proof.
  pose proof (annotateInstruction_unannotated store pts inst) as H.
  unfold unannotatedInstruction in H. congruence.
Qed.

Lemma annotateInstruction_path_nodes (store : list StationPoint.t) (pts : list nat)
    (inst : PathInstruction.t) :
  PathInstruction.path_nodes (annotateInstruction store pts inst)
  = PathInstruction.path_nodes inst.
Proof.
  pose proof (annotateInstruction_unannotated store pts inst) as H.
  unfold unannotatedInstruction in H. congruence.
Qed.

Lemma id_lookup_total_ext (s0 s1 : list StationPoint.t) (r : nat) :
  unannotated <$> s0 = unannotated <$> s1 ->
  StationPoint.id (s0 !!! r) = StationPoint.id (s1 !!! r).
Proof.
  intros H. pose proof (unannotated_lookup_total s0 s1 r H) as Hu.
  unfold unannotated in Hu. congruence.
Qed.

(** The search for the target of an instruction among the points of the
    path finds the point its id resolves to. *)
Lemma find_target_resolved (store store' : list StationPoint.t) (ids : list string)
    (i : string) (r : nat) :
  unannotated <$> store' = unannotated <$> store ->
  getPointById store i = Some r ->
  i ∈ ids ->
  find (fun r' => bool_decide (StationPoint.id (store' !!! r') = i))
    (omap (getPointById store) ids) = Some r.
Proof.
  intros Hu Hi Hin.
  destruct (find _ _) as [r'|] eqn:Hf.
  - apply (find_bool_decide_Some (fun r' => StationPoint.id (store' !!! r') = i))
      in Hf as [Hid Hr'].
    apply omap_canonical in Hr'.
    rewrite <- (id_lookup_total_ext _ _ r' Hu), Hid, Hi in Hr'.
    f_equal. now injection Hr'.
  - exfalso.
    pose proof (proj1 (find_bool_decide_None
                         (fun r' => StationPoint.id (store' !!! r') = i) _) Hf r)
      as Hn.
    apply Hn.
    + apply list_elem_of_omap. exists i. split; [exact Hin|exact Hi].
    + rewrite (id_lookup_total_ext _ _ r Hu).
      destruct (getPointById_Some _ _ _ Hi) as (p & Hp & Hid).
      now rewrite (list_lookup_total_correct _ _ _ Hp).
Qed.

Lemma find_target_unresolved (store store' : list StationPoint.t)
    (ids : list string) (i : string) :
  unannotated <$> store' = unannotated <$> store ->
  getPointById store i = None ->
  find (fun r' => bool_decide (StationPoint.id (store' !!! r') = i))
    (omap (getPointById store) ids) = None.
Proof.
  intros Hu Hi.
  apply (find_bool_decide_None (fun r' => StationPoint.id (store' !!! r') = i)).
  intros r' Hr' Hid. apply omap_canonical in Hr'.
  rewrite <- (id_lookup_total_ext _ _ r' Hu), Hid, Hi in Hr'. discriminate.
Qed.

Lemma target_requested (instructions : list PathInstruction.t) (g : string)
    (inst : PathInstruction.t) :
  inst ∈ instructions -> PathInstruction.to inst ∈ requestedIds instructions g.
Proof.
  intros Hin. unfold requestedIds. right.
  apply list_elem_of_In, in_flat_map. exists inst.
  split; [now apply list_elem_of_In|].
  apply list_elem_of_In, elem_of_app. right. left.
Qed.

Lemma lookup_map {A B : Type} (f : A -> B) (l : list A) (k : nat) (a : A) :
  l !! k = Some a -> map f l !! k = Some (f a).
Proof.
  intros H. change (map f l) with (f <$> l). now rewrite list_lookup_fmap, H.
Qed.

(** The annotation an instruction gets. *)
Lemma annotate_spec (store : list StationPoint.t)
    (instructions : list PathInstruction.t) (g : string) (inst : PathInstruction.t) :
  let pts := omap (getPointById store) (requestedIds instructions g) in
  let store' := assignCumulative None 0 pts store in
  inst ∈ instructions ->
  match getPointById store (PathInstruction.to inst) with
  | Some r =>
      exists d, cumulativeOf store' r = Some d
                /\ r ∈ pts
                /\ annotateInstruction store' pts inst
                   = PathInstruction.set_cumulativeDistanceToTarget d inst
  | None => annotateInstruction store' pts inst = inst
  end.
Proof.
  intros pts store' Hin.
  assert (unannotated <$> store' = unannotated <$> store) as Hu
    by apply unannotated_assignCumulative.
  destruct (getPointById store (PathInstruction.to inst)) as [r|] eqn:Hr.
  - assert (r ∈ pts) as Hrp.
    { apply list_elem_of_omap. exists (PathInstruction.to inst).
      split; [now apply target_requested|exact Hr]. }
    destruct (assignCumulative_annotates pts None 0 store r Hrp
                (getPointById_lt _ _ _ Hr)) as [d Hd].
    exists d. refine (conj Hd (conj Hrp _)).
    unfold annotateInstruction. unfold pts at 1.
    rewrite (find_target_resolved store store' _ _ r Hu Hr
               (target_requested _ g _ Hin)).
    unfold cumulativeOf in Hd. fold store' in Hd. now rewrite Hd.
  - unfold annotateInstruction. unfold pts at 1.
    now rewrite (find_target_unresolved store store' _ _ Hu Hr).
Qed.

Lemma instructions_annotated (store : list StationPoint.t)
    (instructions : list PathInstruction.t) (g : string) :
  g <> EmptyString ->
  let m := generatePathPointsForMap store instructions (Some g) in
  forall k inst,
    instructions !! k = Some inst ->
    match getPointById store (PathInstruction.to inst) with
    | Some r =>
        exists d,
          cumulativeOf (mat_store m) r = Some d
          /\ mat_instructions m !! k
             = Some (PathInstruction.set_cumulativeDistanceToTarget d inst)
    | None => mat_instructions m !! k = Some inst
    end.
Proof.
  intros Hg m. unfold m. rewrite (generate_Some _ _ _ Hg). cbv zeta.
  cbn [mat_instructions mat_store mat_points].
  rewrite collectPoints_omap.
  intros k inst Hk.
  pose proof (annotate_spec store instructions g inst
                (list_elem_of_lookup_2 _ _ _ Hk)) as Hs.
  cbv zeta in Hs.
  destruct (getPointById store (PathInstruction.to inst)) as [r|].
  - destruct Hs as (d & Hd & _ & Ha). exists d. split; [exact Hd|].
    rewrite (lookup_map _ _ _ _ Hk). now rewrite Ha.
  - rewrite (lookup_map _ _ _ _ Hk). now rewrite Hs.
Qed.

(** X7: the second pass over the instructions writes nothing but their
    annotation: an instruction whose target resolves gets the cumulative
    distance of that point, an instruction whose target resolves to no
    point is left as it was; without a gate nothing is written at all. *)
Theorem instructions_get_their_target_distance (store : list StationPoint.t)
    (instructions : list PathInstruction.t) (g : string) :
  g <> EmptyString ->
  let m := generatePathPointsForMap store instructions (Some g) in
  unannotatedInstruction <$> mat_instructions m
  = unannotatedInstruction <$> instructions
  /\ (forall k inst,
        instructions !! k = Some inst ->
        match getPointById store (PathInstruction.to inst) with
        | Some r =>
            exists d,
              cumulativeOf (mat_store m) r = Some d
              /\ mat_instructions m !! k
                 = Some (PathInstruction.set_cumulativeDistanceToTarget d inst)
        | None => mat_instructions m !! k = Some inst
        end)
  /\ generatePathPointsForMap store instructions None
     = mkMaterialized [] store instructions
  /\ generatePathPointsForMap store instructions (Some EmptyString)
     = mkMaterialized [] store instructions.
Proof.
  intros Hg m.
  refine (conj _ (conj (instructions_annotated store instructions g Hg)
                    (conj eq_refl eq_refl))).
  unfold m. rewrite (generate_Some _ _ _ Hg). cbv zeta.
  cbn [mat_instructions].
  change (map ?f ?l) with (f <$> l).
  rewrite <- list_fmap_compose. apply list_fmap_ext. intros k inst _.
  apply annotateInstruction_unannotated.
Qed.

Lemma instructions_get_their_target_distance_witness :
  "gate-a" <> EmptyString
  /\ unannotatedInstruction <$> mat_instructions materializedGateA
     = unannotatedInstruction <$> route_gate_a_platform_1.
Proof.
  assert ("gate-a" <> EmptyString) as Hg by discriminate.
  split; [exact Hg|].
  exact (proj1 (instructions_get_their_target_distance (points mockStationLayout)
                  route_gate_a_platform_1 "gate-a" Hg)).
Defined.

Lemma requestedIds_annotate (store : list StationPoint.t) (pts : list nat)
    (instructions : list PathInstruction.t) (g : string) :
  requestedIds (map (annotateInstruction store pts) instructions) g
  = requestedIds instructions g.
Proof.
  unfold requestedIds. f_equal.
  induction instructions as [|inst l IH]; [reflexivity|].
  cbn [map flat_map].
  now rewrite IH, annotateInstruction_to, annotateInstruction_path_nodes.
Qed.

Lemma annotateInstruction_idem (store : list StationPoint.t) (pts : list nat)
    (inst : PathInstruction.t) :
  annotateInstruction store pts (annotateInstruction store pts inst)
  = annotateInstruction store pts inst.
Proof.
  unfold annotateInstruction at 1. rewrite annotateInstruction_to.
  unfold annotateInstruction.
  destruct (find _ pts) as [t|]; [|reflexivity].
  destruct (StationPoint.cumulativeDistance (store !!! t)); reflexivity.
Qed.

Lemma assignCumulative_idem (pts : list nat) (store : list StationPoint.t) :
  assignCumulative None 0 pts (assignCumulative None 0 pts store)
  = assignCumulative None 0 pts store.
Proof.
  apply list_eq. intros r.
  destruct (decide (r ∈ pts)) as [Hr|Hr].
  - apply assignCumulative_agree; [apply unannotated_assignCumulative|now left].
  - now rewrite assignCumulative_frame.
Qed.

(** X8: materializing a route a second time, from the table and the
    instructions the first materialization left, changes nothing. *)
Theorem materialization_is_idempotent (store : list StationPoint.t)
    (instructions : list PathInstruction.t) (entryGateId : option string) :
  let m := generatePathPointsForMap store instructions entryGateId in
  generatePathPointsForMap (mat_store m) (mat_instructions m) entryGateId = m.
Proof.
  cbv zeta.
  destruct entryGateId as [g|]; [|reflexivity].
  destruct (decide (g = EmptyString)) as [->|Hg]; [reflexivity|].
  rewrite !(generate_Some _ _ _ Hg). cbv zeta.
  cbn [mat_points mat_store mat_instructions].
  set (pts := collectPoints store instructions g).
  set (store' := assignCumulative None 0 pts store).
  assert (collectPoints store' (map (annotateInstruction store' pts) instructions) g
          = pts) as ->.
  { rewrite collectPoints_omap, requestedIds_annotate, <- collectPoints_omap.
    apply collectPoints_ext, unannotated_assignCumulative. }
  unfold store'. rewrite assignCumulative_idem. fold store'.
  f_equal. rewrite map_map. apply map_ext. intros inst.
  apply annotateInstruction_idem.
Qed.

Lemma requestedIds_app (l1 l2 : list PathInstruction.t) (g : string) :
  requestedIds (l1 ++ l2) g
  = requestedIds l1 g
    ++ flat_map (fun inst => default [] (PathInstruction.path_nodes inst)
                             ++ [PathInstruction.to inst]) l2.
Proof. unfold requestedIds. now rewrite flat_map_app. Qed.

(** The path around the target of the instruction at index [k]. *)
Lemma path_split (store : list StationPoint.t)
    (instructions : list PathInstruction.t) (g : string) (k : nat)
    (inst : PathInstruction.t) (r : nat) :
  instructions !! k = Some inst ->
  getPointById store (PathInstruction.to inst) = Some r ->
  omap (getPointById store) (requestedIds instructions g)
  = omap (getPointById store)
      (requestedIds (take k instructions) g
       ++ default [] (PathInstruction.path_nodes inst))
    ++ r :: omap (getPointById store)
              (flat_map (fun inst => default [] (PathInstruction.path_nodes inst)
                                     ++ [PathInstruction.to inst])
                 (drop (S k) instructions)).
Proof.
  intros Hk Hr.
  rewrite <- (take_drop_middle _ _ _ Hk) at 1.
  rewrite requestedIds_app. cbn [flat_map].
  rewrite <- !app_assoc, !omap_app. cbn [omap list_omap]. rewrite Hr.
  rewrite <- !app_assoc. reflexivity.
Qed.

(** On a path without repetition every point carries the distance walked
    up to it. *)
Lemma materialized_chained (store : list StationPoint.t)
    (instructions : list PathInstruction.t) (g : string) :
  g <> EmptyString ->
  let m := generatePathPointsForMap store instructions (Some g) in
  NoDup (mat_points m) ->
  (forall r, head (mat_points m) = Some r -> cumulativeOf (mat_store m) r = Some 0)
  /\ (forall i p q,
        mat_points m !! i = Some p -> mat_points m !! S i = Some q ->
        exists d,
          cumulativeOf (mat_store m) p = Some d
          /\ cumulativeOf (mat_store m) q
             = Some (d + getDistanceBetweenPoints (mat_store m !!! p)
                                                  (mat_store m !!! q))).
Proof.
  intros Hg m. unfold m. rewrite (generate_Some _ _ _ Hg). cbv zeta.
  cbn [mat_points mat_store]. intros Hnd.
  exact (assignCumulative_simple _ None 0 store Hnd (collectPoints_valid _ _ _)).
Qed.

(** X9: the threshold of the last instruction is the total length of the
    path, and on a path without repetition the thresholds of the
    instructions never decrease and never exceed the total length. *)
Theorem thresholds_follow_the_path (store : list StationPoint.t)
    (instructions : list PathInstruction.t) (g : string) :
  g <> EmptyString ->
  let m := generatePathPointsForMap store instructions (Some g) in
  let total := totalPathLength (mat_store m) (mat_points m) in
  (forall inst,
      last instructions = Some inst ->
      is_Some (getPointById store (PathInstruction.to inst)) ->
      PathInstruction.cumulativeDistanceToTarget <$> last (mat_instructions m)
      = Some (Some total))
  /\ (NoDup (mat_points m) ->
      forall k1 k2 a b,
        (k1 <= k2)%nat ->
        instructions !! k1 = Some a -> instructions !! k2 = Some b ->
        is_Some (getPointById store (PathInstruction.to a)) ->
        is_Some (getPointById store (PathInstruction.to b)) ->
        exists da db,
          PathInstruction.cumulativeDistanceToTarget <$> (mat_instructions m !! k1)
          = Some (Some da)
          /\ PathInstruction.cumulativeDistanceToTarget <$> (mat_instructions m !! k2)
             = Some (Some db)
          /\ 0 <= da <= db /\ db <= total).
Proof.
  intros Hg m total.
  pose proof (instructions_annotated store instructions g Hg) as Hann.
  fold m in Hann.
  assert (mat_points m = omap (getPointById store) (requestedIds instructions g))
    as Hpts.
  { unfold m. rewrite (generate_Some _ _ _ Hg). cbn. apply collectPoints_omap. }
  split.
  - intros inst Hlast [r Hr].
    assert (instructions !! pred (length instructions) = Some inst) as Hk
      by now rewrite <- last_lookup.
    pose proof (Hann _ _ Hk) as Hi. rewrite Hr in Hi.
    destruct Hi as (d & Hd & Hi).
    assert (last (mat_instructions m)
            = Some (PathInstruction.set_cumulativeDistanceToTarget d inst)) as ->.
    { rewrite last_lookup.
      replace (length (mat_instructions m)) with (length instructions); [exact Hi|].
      unfold m. rewrite (generate_Some _ _ _ Hg). cbn. now rewrite length_map. }
    cbn. do 2 f_equal.
    unfold total, totalPathLength. rewrite Hpts.
    rewrite (path_split store instructions g _ inst r Hk Hr).
    rewrite drop_ge by lia. cbn [flat_map omap list_omap].
    rewrite last_snoc.
    change (d = default 0 (cumulativeOf (mat_store m) r)). now rewrite Hd.
  - intros Hnd k1 k2 a b Hle Ha Hb [ra Hra] [rb Hrb].
    destruct (materialized_chained store instructions g Hg Hnd) as [Hhead Hchain].
    fold m in Hhead, Hchain.
    pose proof (Hann _ _ Ha) as Hia. rewrite Hra in Hia.
    destruct Hia as (da & Hda & Hia).
    pose proof (Hann _ _ Hb) as Hib. rewrite Hrb in Hib.
    destruct Hib as (db & Hdb & Hib).
    exists da, db. rewrite Hia, Hib. refine (conj eq_refl (conj eq_refl _)).
    pose proof (path_split store instructions g k1 a ra Ha Hra) as Hsa.
    pose proof (path_split store instructions g k2 b rb Hb Hrb) as Hsb.
    rewrite <- Hpts in Hsa, Hsb.
    set (Xa := omap (getPointById store)
                 (requestedIds (take k1 instructions) g
                  ++ default [] (PathInstruction.path_nodes a))) in Hsa.
    set (Ya := omap (getPointById store) _) in Hsa.
    set (Xb := omap (getPointById store)
                 (requestedIds (take k2 instructions) g
                  ++ default [] (PathInstruction.path_nodes b))) in Hsb.
    set (Yb := omap (getPointById store) _) in Hsb.
    assert (mat_points m !! length Xa = Some ra) as Hpa
      by (rewrite Hsa; apply list_lookup_middle; reflexivity).
    assert (mat_points m !! length Xb = Some rb) as Hpb
      by (rewrite Hsb; apply list_lookup_middle; reflexivity).
    (* the first point of the path, at distance 0 *)
    assert (exists r0, mat_points m !! 0%nat = Some r0) as [r0 Hr0].
    { destruct (mat_points m) as [|r0 l] eqn:E; [|now exists r0].
      rewrite lookup_nil in Hpa. discriminate. }
    assert (cumulativeOf (mat_store m) r0 = Some 0) as H0
      by (apply Hhead; now rewrite head_lookup).
    (* the last point of the path, at the total distance *)
    assert (exists rl dl, mat_points m !! pred (length (mat_points m)) = Some rl
                          /\ cumulativeOf (mat_store m) rl = Some dl
                          /\ total = dl) as (rl & dl & Hrl & Hdl & Htot).
    { destruct (last (mat_points m)) as [rl|] eqn:El.
      - assert (isAnnotated (mat_store m) rl) as [dl Hdl].
        { unfold m. rewrite (generate_Some _ _ _ Hg). cbv zeta.
          cbn [mat_points mat_store].
          apply assignCumulative_annotates.
          - apply last_Some_elem_of. unfold m in El.
            rewrite (generate_Some _ _ _ Hg) in El. exact El.
          - pose proof (collectPoints_valid store instructions g) as Hv.
            rewrite Forall_forall in Hv. apply Hv.
            apply last_Some_elem_of. unfold m in El.
            rewrite (generate_Some _ _ _ Hg) in El. exact El. }
        exists rl, dl. rewrite <- last_lookup.
        refine (conj El (conj Hdl _)).
        unfold total, totalPathLength. rewrite El.
        change (default 0 (cumulativeOf (mat_store m) rl) = dl). now rewrite Hdl.
      - rewrite last_lookup in El. apply lookup_lt_Some in Hpa.
        apply lookup_ge_None in El. lia. }
    (* the target of [b] does not come before the target of [a] *)
    assert (exists j, (length Xa <= j)%nat /\ mat_points m !! j = Some rb)
      as (j & Hj & Hpj).
    { destruct (decide (k1 = k2)) as [->|Hne].
      - exists (length Xa). split; [lia|].
        assert (a = b) as -> by congruence.
        assert (ra = rb) as -> by congruence. exact Hpa.
      - assert (rb ∈ Ya) as Hin.
        { apply list_elem_of_omap. exists (PathInstruction.to b).
          split; [|exact Hrb].
          apply list_elem_of_In, in_flat_map. exists b. split.
          - apply list_elem_of_In.
            apply (list_elem_of_lookup_2 _ (k2 - S k1)).
            rewrite lookup_drop. replace (S k1 + (k2 - S k1))%nat with k2 by lia.
            exact Hb.
          - apply list_elem_of_In, elem_of_app. right. left. }
        apply list_elem_of_lookup_1 in Hin as [j' Hj'].
        exists (length Xa + S j')%nat. split; [lia|].
        rewrite Hsa, lookup_app_r by lia.
        replace (length Xa + S j' - length Xa)%nat with (S j') by lia.
        exact Hj'. }
    pose proof (cumulative_monotone _ _ Hchain) as Hmono.
    refine (conj (conj _ _) _).
    + apply (Hmono 0%nat (length Xa) r0 ra 0 da); [lia|assumption..].
    + apply (Hmono (length Xa) j ra rb da db); assumption.
    + rewrite Htot.
      apply (Hmono j (pred (length (mat_points m))) rb rl db dl); try assumption.
      apply lookup_lt_Some in Hpj. lia.
Qed.

Lemma thresholds_follow_the_path_witness :
  "gate-a" <> EmptyString
  /\ PathInstruction.cumulativeDistanceToTarget
       <$> last (mat_instructions materializedGateA)
     = Some (Some (totalPathLength (mat_store materializedGateA)
                     (mat_points materializedGateA))).
Proof.
  assert ("gate-a" <> EmptyString) as Hg by discriminate.
  split; [exact Hg|].
  destruct (thresholds_follow_the_path (points mockStationLayout)
              route_gate_a_platform_1 "gate-a" Hg) as [Hlast _].
  refine (Hlast _ eq_refl _).
  exists 2%nat. vm_compute. reflexivity.
Defined.

Lemma authored_routes (pathKey : string) (instructions : list PathInstruction.t) :
  paths mockStationLayout !! pathKey = Some instructions ->
  (pathKey, instructions)
  ∈ [("gate-a-platform-1", route_gate_a_platform_1);
     ("gate-a-platform-2", route_gate_a_platform_2);
     ("gate-a-platform-3", route_gate_a_platform_3);
     ("gate-a-platform-4", route_gate_a_platform_4);
     ("gate-b-platform-1", route_gate_b_platform_1);
     ("gate-b-platform-2", route_gate_b_platform_2);
     ("gate-b-platform-3", route_gate_b_platform_3);
     ("gate-b-platform-4", route_gate_b_platform_4)].
Proof. intros H. apply elem_of_list_to_map_2 in H. exact H. Qed.

Lemma continuity_check (l : list PathInstruction.t) :
  PathInstruction.from <$> drop 1 l
  = PathInstruction.to <$> take (length l - 1) l ->
  forall k a b,
    l !! k = Some a -> l !! S k = Some b ->
    PathInstruction.from b = PathInstruction.to a.
Proof.
  intros H k a b Ha Hb.
  assert ((PathInstruction.from <$> drop 1 l) !! k = Some (PathInstruction.from b))
    as H1.
  { rewrite list_lookup_fmap, lookup_drop. cbn. now rewrite Hb. }
  assert ((PathInstruction.to <$> take (length l - 1) l) !! k
          = Some (PathInstruction.to a)) as H2.
  { rewrite list_lookup_fmap, lookup_take_lt, Ha; [reflexivity|].
    apply lookup_lt_Some in Hb. lia. }
  rewrite H in H1. rewrite H1 in H2. now injection H2.
Qed.

Ltac route_integrity :=
  eexists _, _, _, _;
  refine (conj eq_refl (conj eq_refl (conj eq_refl (conj _ (conj _ (conj _
            (conj _ (conj _ (conj _ (conj _ _))))))))));
  [ vm_compute; reflexivity
  | vm_compute; reflexivity
  | vm_compute; reflexivity
  | vm_compute; reflexivity
  | apply continuity_check; vm_compute; reflexivity
  | apply (bool_decide_unpack _); vm_compute; reflexivity
  | apply (bool_decide_unpack _); vm_compute; reflexivity
  | apply (bool_decide_unpack _); vm_compute; reflexivity ].

(** X10: every route of the table starts at a gate and ends at a platform
    of the table, is stored under the key made of these two ids, is
    continuous (each instruction starts where the one before it ends),
    names only ids that resolve, and visits no point twice. *)
Theorem authored_routes_are_well_formed (pathKey : string)
    (instructions : list PathInstruction.t) :
  paths mockStationLayout !! pathKey = Some instructions ->
  exists (first final : PathInstruction.t) (gateRef platformRef : nat),
    head instructions = Some first
    /\ last instructions = Some final
    /\ pathKey = String.append (PathInstruction.from first)
                   (String.append "-" (PathInstruction.to final))
    /\ getPointById (points mockStationLayout) (PathInstruction.from first)
       = Some gateRef
    /\ StationPoint.type (points mockStationLayout !!! gateRef) = gate
    /\ getPointById (points mockStationLayout) (PathInstruction.to final)
       = Some platformRef
    /\ StationPoint.type (points mockStationLayout !!! platformRef) = platform
    /\ (forall k a b,
          instructions !! k = Some a -> instructions !! S k = Some b ->
          PathInstruction.from b = PathInstruction.to a)
    /\ Forall (fun i => is_Some (getPointById (points mockStationLayout) i))
         (requestedIds instructions (PathInstruction.from first))
    /\ NoDup (requestedIds instructions (PathInstruction.from first))
    /\ NoDup (collectPoints (points mockStationLayout) instructions
                (PathInstruction.from first)).
Proof.
  intros H. apply authored_routes in H.
  repeat (apply elem_of_cons in H as [H|H];
          [injection H as -> ->; route_integrity|]).
  inversion H.
Qed.

Lemma authored_routes_are_well_formed_witness :
  paths mockStationLayout !! "gate-b-platform-3" = Some route_gate_b_platform_3
  /\ exists (first final : PathInstruction.t) (gateRef platformRef : nat),
       head route_gate_b_platform_3 = Some first
       /\ last route_gate_b_platform_3 = Some final
       /\ "gate-b-platform-3"
          = String.append (PathInstruction.from first)
              (String.append "-" (PathInstruction.to final))
       /\ getPointById (points mockStationLayout) (PathInstruction.from first)
          = Some gateRef
       /\ StationPoint.type (points mockStationLayout !!! gateRef) = gate
       /\ getPointById (points mockStationLayout) (PathInstruction.to final)
          = Some platformRef
       /\ StationPoint.type (points mockStationLayout !!! platformRef) = platform.
Proof.
  assert (paths mockStationLayout !! "gate-b-platform-3"
          = Some route_gate_b_platform_3) as H by (vm_compute; reflexivity).
  split; [exact H|].
  destruct (authored_routes_are_well_formed _ _ H)
    as (first & final & gr & pr & H1 & H2 & H3 & H4 & H5 & H6 & H7 & _).
  exists first, final, gr, pr.
  exact (conj H1 (conj H2 (conj H3 (conj H4 (conj H5 (conj H6 H7)))))).
Defined.

(** ** The simulator, in general *)

Lemma sameRoute_refl (s : App) : sameRoute s s.
Proof. unfold sameRoute. repeat (refine (conj _ _)); reflexivity. Qed.

Lemma sameRoute_trans (s1 s2 s3 : App) :
  sameRoute s1 s2 -> sameRoute s2 s3 -> sameRoute s1 s3.
Proof.
  unfold sameRoute. intros H1 H2.
  destruct H1 as (?&?&?&?&?&?&?&?&?&?&?&?), H2 as (?&?&?&?&?&?&?&?&?&?&?&?).
  repeat (refine (conj _ _)); congruence.
Qed.

Lemma tick_sameRoute (t : Timer) (s : App) : sameRoute s (tick t s).
Proof.
  unfold sameRoute, tick, advanceInstruction, moveUser, cancelSimulation, speak,
    cancelSpeech.
  repeat case_match; cbn; repeat (refine (conj _ _)); reflexivity.
Qed.

Lemma fire_sameRoute (s : App) : sameRoute s (fire s).
Proof.
  unfold fire. destruct (simulationIntervalRef s); [apply tick_sameRoute|].
  apply sameRoute_refl.
Qed.

Lemma ticks_sameRoute (n : nat) (s : App) : sameRoute s (ticks n s).
Proof.
  induction n as [|n IH]; [apply sameRoute_refl|].
  rewrite ticks_S. eapply sameRoute_trans; [exact IH|apply fire_sameRoute].
Qed.

Lemma tick_traveled (t : Timer) (s : App) :
  totalDistanceTraveledRef (tick t s)
  = Rmin (totalDistanceTraveledRef s + distanceToAdvance)
      (totalPathLength (points (layout s)) (timer_pathPointsForMap t)).
Proof.
  set (total := totalPathLength (points (layout s)) (timer_pathPointsForMap t)).
  destruct (Rge_dec (totalDistanceTraveledRef s + distanceToAdvance) total)
    as [Hge|Hlt].
  - destruct (tick_complete_spec t s Hge) as [-> _]. fold total.
    unfold Rmin. destruct (Rle_dec _ _); lra.
  - assert (totalDistanceTraveledRef s + distanceToAdvance < total) as Hlt' by lra.
    rewrite (tick_not_complete t s Hlt').
    destruct (advanceInstruction_frame t
                (moveUser (points (layout s)) (timer_pathPointsForMap t)
                   (set_totalDistanceTraveledRef
                      (totalDistanceTraveledRef s + distanceToAdvance) s)))
      as [-> _].
    destruct (moveUser_frame (points (layout s)) (timer_pathPointsForMap t)
                (set_totalDistanceTraveledRef
                   (totalDistanceTraveledRef s + distanceToAdvance) s))
      as [-> _].
    cbn. unfold Rmin. destruct (Rle_dec _ _); lra.
Qed.

(** X11: a tick moves the accumulator by one step but never past the total
    length of the path: it becomes the smaller of the two.  A tick writes
    neither the table nor the route, the selection, the language, the
    live-location state or the messages. *)
Theorem tick_never_overshoots (t : Timer) (s : App) :
  let total := totalPathLength (points (layout s)) (timer_pathPointsForMap t) in
  let s' := tick t s in
  totalDistanceTraveledRef s'
  = Rmin (totalDistanceTraveledRef s + distanceToAdvance) total
  /\ totalDistanceTraveledRef s' <= total
  /\ (totalDistanceTraveledRef s <= total ->
      totalDistanceTraveledRef s <= totalDistanceTraveledRef s')
  /\ sameRoute s s'.
Proof.
  intros total s'. unfold s'.
  pose proof (tick_traveled t s) as H. fold total in H.
  pose proof distanceToAdvance_value as Hstep.
  refine (conj H (conj _ (conj _ (tick_sameRoute t s)))).
  - rewrite H. apply Rmin_r.
  - intros Hle. rewrite H. unfold Rmin. destruct (Rle_dec _ _); lra.
Qed.

Lemma tick_keeps_running (t : Timer) (s : App) :
  totalDistanceTraveledRef s + distanceToAdvance
  < totalPathLength (points (layout s)) (timer_pathPointsForMap t) ->
  simulationIntervalRef (tick t s) = simulationIntervalRef s
  /\ isSimulating (tick t s) = isSimulating s
  /\ (forall c, c ∈ speechLog s -> c ∈ speechLog (tick t s)).
Proof.
  intros Hlt. rewrite (tick_not_complete t s Hlt).
  refine (conj _ (conj _ _)).
  - unfold advanceInstruction, moveUser, speak. repeat case_match; reflexivity.
  - unfold advanceInstruction, moveUser, speak. repeat case_match; reflexivity.
  - intros c Hc. unfold advanceInstruction, moveUser, speak.
    repeat case_match; cbn; try exact Hc; apply elem_of_app; now left.
Qed.

Lemma getIntermediateLatLng_offsets (x1 y1 x2 y2 f : R) :
  getIntermediateLatLng (getLatLngFromOffset x1 y1) (getLatLngFromOffset x2 y2) f
  = getLatLngFromOffset (x1 + (x2 - x1) * f) (y1 + (y2 - y1) * f).
Proof.
  pose proof PI_RGT_0 as Hpi.
  assert (0 < cos (STATION_CENTER_LAT * PI / 180)) as Hc.
  { unfold STATION_CENTER_LAT. apply cos_gt_0; lra. }
  unfold getIntermediateLatLng, getLatLngFromOffset. cbv zeta. cbn [lat lng].
  f_equal; field; lra.
Qed.

(** The segment search succeeds for every distance from the distance of
    the first point up to, but not including, the total length. *)
Lemma locateSegment_complete (store : list StationPoint.t) (traveled : R)
    (pts : list nat) :
  forall first,
    head pts = Some first ->
    default 0 (cumulativeOf store first) <= traveled ->
    traveled < totalPathLength store pts ->
    is_Some (locateSegment store pts traveled).
Proof.
  induction pts as [|p1 rest IH]; intros first Hh Hlo Hhi; [discriminate|].
  injection Hh as ->.
  destruct rest as [|p2 rest'].
  - unfold totalPathLength in Hhi. cbn in Hhi. lra.
  - cbn [locateSegment].
    destruct (Rge_dec traveled (default 0 (cumulativeOf store first)))
      as [_|Hn]; [|lra].
    destruct (Rle_dec traveled (default 0 (cumulativeOf store p2))) as [Hle|Hgt].
    + eauto.
    + apply (IH p2); [reflexivity|lra|].
      unfold totalPathLength in *. now rewrite last_cons_cons in Hhi.
Qed.

Lemma fractionOf_length (traveled a b : R) :
  a <= traveled <= b -> a + fractionOf traveled a b * (b - a) = traveled.
Proof.
  intros [Hlo Hhi]. unfold fractionOf.
  destruct (Rlt_dec 0 (b - a)) as [Hlen|Hlen].
  - field. lra.
  - lra.
Qed.

(** A tick that does not complete the walk puts the user on a segment of
    the path. *)
Lemma tick_position (t : Timer) (s : App) :
  let store := points (layout s) in
  let pts := timer_pathPointsForMap t in
  let traveled := totalDistanceTraveledRef s + distanceToAdvance in
  chained store pts ->
  located store pts ->
  0 <= totalDistanceTraveledRef s ->
  traveled < totalPathLength store pts ->
  exists (i p1 p2 : nat) (f : R),
    pts !! i = Some p1 /\ pts !! S i = Some p2
    /\ 0 <= f <= 1
    /\ default 0 (cumulativeOf store p1)
       + f * getDistanceBetweenPoints (store !!! p1) (store !!! p2)
       = traveled
    /\ userPosition (tick t s)
       = Some (getLatLngFromOffset
                 (StationPoint.x (store !!! p1)
                  + (StationPoint.x (store !!! p2) - StationPoint.x (store !!! p1)) * f)
                 (StationPoint.y (store !!! p1)
                  + (StationPoint.y (store !!! p2) - StationPoint.y (store !!! p1)) * f))
    /\ userBearing (tick t s)
       = Some (let a := getLatLngFromOffset (StationPoint.x (store !!! p1))
                          (StationPoint.y (store !!! p1)) in
               let b := getLatLngFromOffset (StationPoint.x (store !!! p2))
                          (StationPoint.y (store !!! p2)) in
               calculateBearing (lat a) (lng a) (lat b) (lng b)).
Proof.
  intros store pts traveled [Hhead Hchain] Hloc Hacc Hlt.
  pose proof distanceToAdvance_value as Hstep.
  rewrite (tick_not_complete t s Hlt). fold store pts traveled.
  set (s1 := set_totalDistanceTraveledRef traveled s).
  destruct (advanceInstruction_frame t (moveUser store pts s1))
    as (_ & _ & _ & _ & -> & _ & ->).
  (* the path has a first point, at distance 0 *)
  destruct pts as [|first rest] eqn:Epts.
  { unfold totalPathLength in Hlt. cbn in Hlt. unfold traveled in Hlt. lra. }
  rewrite <- Epts in *.
  assert (head pts = Some first) as Hf by now rewrite Epts.
  pose proof (Hhead first Hf) as H0.
  destruct (locateSegment_complete store traveled pts first Hf) as [[[p1 p2] f] Hseg].
  { rewrite H0. cbn [default from_option]. unfold Datatypes.id, traveled. lra. }
  { exact Hlt. }
  destruct (locateSegment_Some _ _ _ _ _ _ Hseg) as (i & Hp1 & Hp2 & Hbetween & Hfr).
  destruct (Hchain i p1 p2 Hp1 Hp2) as (d & Hd1 & Hd2).
  rewrite Hd1, Hd2 in Hbetween, Hfr. cbn [default from_option] in Hbetween, Hfr.
  unfold Datatypes.id in Hbetween, Hfr.
  exists i, p1, p2, f.
  assert (StationPoint.latLng (store !!! p1)
          = Some (getLatLngFromOffset (StationPoint.x (store !!! p1))
                    (StationPoint.y (store !!! p1)))) as Hl1
    by (apply Hloc; exact (list_elem_of_lookup_2 _ _ _ Hp1)).
  assert (StationPoint.latLng (store !!! p2)
          = Some (getLatLngFromOffset (StationPoint.x (store !!! p2))
                    (StationPoint.y (store !!! p2)))) as Hl2
    by (apply Hloc; exact (list_elem_of_lookup_2 _ _ _ Hp2)).
  refine (conj Hp1 (conj Hp2 (conj _ (conj _ _)))).
  - rewrite Hfr. apply fractionOf_bounds. exact Hbetween.
  - rewrite Hd1. cbn [default from_option]. unfold Datatypes.id.
    pose proof (fractionOf_length traveled d
                  (d + getDistanceBetweenPoints (store !!! p1) (store !!! p2))
                  Hbetween) as Hfl.
    rewrite <- Hfr in Hfl. lra.
  - unfold moveUser.
    change (totalDistanceTraveledRef s1) with traveled.
    rewrite Hseg, Hl1, Hl2. cbn [userPosition userBearing set_userBearing
                                   set_userPosition].
    rewrite getIntermediateLatLng_offsets. split; reflexivity.
Qed.


(** The points of the table carry the coordinates of their offsets, and
    annotating them does not change that. *)
Lemma table_located (store : list StationPoint.t) (pts : list nat) :
  unannotated <$> store = unannotated <$> points mockStationLayout ->
  Forall (fun r => (r < length store)%nat) pts ->
  located store pts.
Proof.
  intros Hu Hv r Hr.
  rewrite Forall_forall in Hv. specialize (Hv r Hr).
  destruct (lookup_lt_is_Some_2 store r Hv) as [p Hp].
  rewrite (list_lookup_total_correct _ _ _ Hp).
  pose proof (unannotated_lookup _ _ r Hu) as Hl. rewrite Hp in Hl.
  destruct (points mockStationLayout !! r) as [p0|] eqn:Hp0; [|discriminate].
  assert (unannotated p = unannotated p0) as Hup by (cbn in Hl; congruence).
  clear Hl.
  assert (StationPoint.latLng p0
          = Some (getLatLngFromOffset (StationPoint.x p0) (StationPoint.y p0)))
    as Hll0.
  { unfold mockStationLayout in Hp0. cbn [points] in Hp0.
    change (map ?f ?l) with (f <$> l) in Hp0.
    rewrite list_lookup_fmap in Hp0.
    destruct (rawStationPoints !! r) as [raw|]; [|discriminate].
    cbn in Hp0. injection Hp0 as <-. reflexivity. }
  pose proof (f_equal StationPoint.latLng Hup) as Hll.
  pose proof (f_equal StationPoint.x Hup) as Hx.
  pose proof (f_equal StationPoint.y Hup) as Hy.
  cbn in Hll, Hx, Hy. now rewrite Hll, Hx, Hy.
Qed.

Lemma materializedGateA_NoDup : NoDup (mat_points materializedGateA).
Proof. apply (bool_decide_unpack _). vm_compute. reflexivity. Qed.

Lemma materializedGateA_chained :
  chained (mat_store materializedGateA) (mat_points materializedGateA).
Proof.
  assert ("gate-a" <> EmptyString) as Hg by discriminate.
  exact (materialized_chained (points mockStationLayout) route_gate_a_platform_1
           "gate-a" Hg materializedGateA_NoDup).
Qed.

Lemma materializedGateA_located :
  located (mat_store materializedGateA) (mat_points materializedGateA).
Proof.
  assert ("gate-a" <> EmptyString) as Hg by discriminate.
  apply table_located.
  - apply mat_store_unannotated.
  - unfold materializedGateA. rewrite (generate_Some _ _ _ Hg). cbv zeta.
    cbn [mat_store mat_points]. rewrite assignCumulative_length.
    apply collectPoints_valid.
Qed.


Lemma ticks_stopped (n : nat) (s : App) :
  simulationIntervalRef s = None -> ticks n s = s.
Proof.
  intros H. induction n as [|n IH]; [reflexivity|].
  rewrite ticks_S, IH. now apply fire_stopped.
Qed.

Lemma ticks_S_fire (n : nat) (s : App) : ticks (S n) s = ticks n (fire s).
Proof. replace (S n) with (n + 1)%nat by lia. now rewrite ticks_add. Qed.

Lemma walk_terminates_from (n : nat) :
  forall (t : Timer) (s : App),
    simulationIntervalRef s = Some t ->
    totalPathLength (points (layout s)) (timer_pathPointsForMap t)
    - totalDistanceTraveledRef s <= INR (S n) * distanceToAdvance ->
    let s' := ticks (S n) s in
    simulationIntervalRef s' = None
    /\ isSimulating s' = false
    /\ totalDistanceTraveledRef s'
       = totalPathLength (points (layout s)) (timer_pathPointsForMap t)
    /\ Speak (destinationMessage (timer_language t) (timer_pnrDetails t))
         (timer_language t) ∈ speechLog s'.
Proof.
  pose proof distanceToAdvance_value as Hstep.
  induction n as [|n IH]; intros t s Ht Hle s'; unfold s'; clear s';
    rewrite ticks_S_fire;
    (assert (fire s = tick t s) as -> by (unfold fire; now rewrite Ht)).
  - change (INR 1) with 1 in Hle.
    assert (totalDistanceTraveledRef s + distanceToAdvance
            >= totalPathLength (points (layout s)) (timer_pathPointsForMap t))
      as Hge by lra.
    destruct (tick_complete_spec t s Hge) as (Hacc & Hlog & Hnone & Hsim & _).
    change (ticks 0 (tick t s)) with (tick t s).
    refine (conj Hnone (conj Hsim (conj Hacc _))).
    rewrite Hlog, elem_of_app. right. left.
  - destruct (Rge_dec (totalDistanceTraveledRef s + distanceToAdvance)
                (totalPathLength (points (layout s)) (timer_pathPointsForMap t)))
      as [Hge|Hlt].
    + destruct (tick_complete_spec t s Hge) as (Hacc & Hlog & Hnone & Hsim & _).
      rewrite (ticks_stopped _ _ Hnone).
      refine (conj Hnone (conj Hsim (conj Hacc _))).
      rewrite Hlog, elem_of_app. right. left.
    + assert (totalDistanceTraveledRef s + distanceToAdvance
              < totalPathLength (points (layout s)) (timer_pathPointsForMap t))
        as Hlt' by lra.
      destruct (tick_keeps_running t s Hlt') as (Hrun & _ & _).
      destruct (tick_sameRoute t s) as (Hlay & _).
      pose proof (tick_traveled t s) as Htr.
      unfold Rmin in Htr. destruct (Rle_dec _ _) as [_|Hn] in Htr; [|lra].
      rewrite Ht in Hrun.
      assert (totalPathLength (points (layout (tick t s))) (timer_pathPointsForMap t)
              - totalDistanceTraveledRef (tick t s)
              <= INR (S n) * distanceToAdvance) as Hle'.
      { rewrite Hlay, Htr. rewrite (S_INR (S n)) in Hle. lra. }
      pose proof (IH t (tick t s) Hrun Hle') as Hfin. cbv zeta in Hfin.
      rewrite Hlay in Hfin. exact Hfin.
Qed.

(** X13: a running simulation always comes to its end: once the interval
    has fired often enough to cover what is left of the path, the timer is
    released, the simulation is marked stopped, the accumulator is the
    total length and the destination message has been handed to the
    announcer. *)
Theorem walk_terminates (t : Timer) (s : App) (n : nat) :
  simulationIntervalRef s = Some t ->
  (0 < n)%nat ->
  totalPathLength (points (layout s)) (timer_pathPointsForMap t)
  - totalDistanceTraveledRef s <= INR n * distanceToAdvance ->
  let s' := ticks n s in
  simulationIntervalRef s' = None
  /\ isSimulating s' = false
  /\ totalDistanceTraveledRef s'
     = totalPathLength (points (layout s)) (timer_pathPointsForMap t)
  /\ Speak (destinationMessage (timer_language t) (timer_pnrDetails t))
       (timer_language t) ∈ speechLog s'.
Proof.
  intros Ht Hn Hle. destruct n as [|n]; [lia|].
  exact (walk_terminates_from n t s Ht Hle).
Qed.

Lemma walk_terminates_witness :
  simulationIntervalRef walking = Some timerGateA
  /\ (0 < 4086)%nat
  /\ totalPathLength (points (layout walking)) (timer_pathPointsForMap timerGateA)
     - totalDistanceTraveledRef walking <= INR 4086 * distanceToAdvance
  /\ simulationIntervalRef (ticks 4086 walking) = None
  /\ isSimulating (ticks 4086 walking) = false.
Proof.
  destruct walking_facts as (Ht & Hacc & _ & _ & _ & _ & Hstore & _).
  destruct gateA_distances as (d1 & d2 & d3 & d4 & _ & Htot & _ & _ & _ & Hd4).
  pose proof distanceToAdvance_value as Hstep.
  assert (0 < 4086)%nat as Hn by lia.
  assert (totalPathLength (points (layout walking))
            (timer_pathPointsForMap timerGateA)
          - totalDistanceTraveledRef walking <= INR 4086 * distanceToAdvance) as Hle.
  { rewrite Hstore, Hacc, Hstep.
    change (timer_pathPointsForMap timerGateA) with (mat_points materializedGateA).
    rewrite Htot, (INR_literal 4086 4086 eq_refl). lra. }
  destruct (walk_terminates timerGateA walking 4086 Ht Hn Hle) as (H1 & H2 & _).
  exact (conj Ht (conj Hn (conj Hle (conj H1 H2)))).
Defined.

(** X14: pausing a walk that is under way and pressing start again resumes
    it where it was: the accumulator, the instruction index and the
    position shown are kept, the current instruction is announced again
    after the cancellation, and the new interval closes over the route and
    the language of the moment. *)
Theorem pause_then_start_resumes (s : App) :
  liveLocationEnabled s = false ->
  (2 <= length (pathPointsForMap s))%nat ->
  userPosition s <> None ->
  totalDistanceTraveledRef s <> 0 ->
  let s' := startSimulation (cancelSimulation s) in
  totalDistanceTraveledRef s' = totalDistanceTraveledRef s
  /\ currentInstructionIdxRef s' = currentInstructionIdxRef s
  /\ userPosition s' = userPosition s
  /\ isSimulating s' = true
  /\ simulationIntervalRef s'
     = Some (mkTimer (pathPointsForMap s) (pathInstructions s) (language s)
               (pnrDetails s))
  /\ speechLog s'
     = speechLog s
       ++ CancelSpeech
          :: match pathInstructions s !! currentInstructionIdxRef s with
             | Some inst => [Speak (instructionText (language s) inst) (language s)]
             | None => []
             end.
Proof.
  intros Hlive Hlen Hpos Hacc.
  destruct s as [pd sg pi pp er im up ub ci sim lg live al ge wr tr acc idx ly sl].
  cbn in Hlive, Hlen, Hpos, Hacc. subst live.
  unfold startSimulation, cancelSimulation, cancelSpeech, speak.
  destruct tr as [tm|]; cbn.
  all: rewrite bool_decide_eq_false_2 by lia; cbn.
  all: rewrite (bool_decide_eq_false_2 (up = None)) by exact Hpos; cbn.
  all: destruct (Req_dec_T acc 0) as [E|_]; [contradiction|]; cbn.
  all: destruct (pi !! idx); cbn; rewrite <- ?app_assoc;
    repeat (refine (conj _ _)); reflexivity.
Qed.

Lemma startSimulation_route (s : App) :
  pathPointsForMap (startSimulation s) = pathPointsForMap s
  /\ pathInstructions (startSimulation s) = pathInstructions s
  /\ layout (startSimulation s) = layout s
  /\ liveLocationEnabled (startSimulation s) = liveLocationEnabled s
  /\ language (startSimulation s) = language s
  /\ pnrDetails (startSimulation s) = pnrDetails s.
Proof.
  unfold startSimulation, speak.
  repeat case_match; cbn; repeat (refine (conj _ _)); reflexivity.
Qed.

(** The walk from gate A after its first tick. *)
Lemma first_tick_facts :
  liveLocationEnabled (fire walking) = false
  /\ (2 <= length (pathPointsForMap (fire walking)))%nat
  /\ userPosition (fire walking) <> None
  /\ totalDistanceTraveledRef (fire walking) <> 0.
Proof.
  destruct walking_facts as (Ht & Hacc & _ & _ & _ & Hlive & Hstore & _).
  destruct atGateA_facts as (Hpath & _).
  destruct gateA_distances as (d1 & d2 & d3 & d4 & _ & Htot & _ & _ & _ & Hd4).
  pose proof distanceToAdvance_value as Hstep.
  assert (fire walking = tick timerGateA walking) as ->
    by (unfold fire; now rewrite Ht).
  destruct (tick_sameRoute timerGateA walking)
    as (_ & Hpp & _ & _ & _ & _ & Hl & _).
  assert (totalPathLength (points (layout walking))
            (timer_pathPointsForMap timerGateA) = d4) as Htot'.
  { rewrite Hstore. exact Htot. }
  refine (conj _ (conj _ (conj _ _))).
  - now rewrite Hl.
  - rewrite Hpp. unfold walking.
    rewrite (proj1 (startSimulation_route atGateA)), Hpath.
    vm_compute. lia.
  - assert (chained (points (layout walking)) (timer_pathPointsForMap timerGateA))
      as H1 by (rewrite Hstore; exact materializedGateA_chained).
    assert (located (points (layout walking)) (timer_pathPointsForMap timerGateA))
      as H2 by (rewrite Hstore; exact materializedGateA_located).
    destruct (tick_position timerGateA walking H1 H2)
      as (i & p1 & p2 & f & _ & _ & _ & _ & Hpos & _).
    + rewrite Hacc. lra.
    + rewrite Htot', Hacc, Hstep. lra.
    + rewrite Hpos. discriminate.
  - rewrite tick_traveled, Htot', Hacc, Hstep.
    unfold Rmin. destruct (Rle_dec _ _); lra.
Qed.

Lemma pause_then_start_resumes_witness :
  liveLocationEnabled (fire walking) = false
  /\ (2 <= length (pathPointsForMap (fire walking)))%nat
  /\ userPosition (fire walking) <> None
  /\ totalDistanceTraveledRef (fire walking) <> 0
  /\ totalDistanceTraveledRef (startSimulation (cancelSimulation (fire walking)))
     = totalDistanceTraveledRef (fire walking).
Proof.
  destruct first_tick_facts as (H1 & H2 & H3 & H4).
  refine (conj H1 (conj H2 (conj H3 (conj H4 _)))).
  exact (proj1 (pause_then_start_resumes (fire walking) H1 H2 H3 H4)).
Defined.

Lemma moveUser_set_language (store : list StationPoint.t) (pts : list nat)
    (l : Language) (s : App) :
  moveUser store pts (set_language l s) = set_language l (moveUser store pts s).
Proof.
  destruct s as [pd sg pi pp er im up ub ci sim lg live al ge wr tr acc idx ly sl].
  unfold moveUser. cbn. repeat case_match; reflexivity.
Qed.

Lemma advanceInstruction_set_language (t : Timer) (l : Language) (s : App) :
  advanceInstruction t (set_language l s) = set_language l (advanceInstruction t s).
Proof.
  destruct s as [pd sg pi pp er im up ub ci sim lg live al ge wr tr acc idx ly sl].
  unfold advanceInstruction, speak. cbn. repeat case_match; reflexivity.
Qed.

Lemma tick_set_language (t : Timer) (l : Language) (s : App) :
  tick t (set_language l s) = set_language l (tick t s).
Proof.
  unfold tick. cbv zeta.
  change (totalDistanceTraveledRef
            (set_totalDistanceTraveledRef
               (totalDistanceTraveledRef (set_language l s) + distanceToAdvance)
               (set_language l s)))
    with (totalDistanceTraveledRef
            (set_totalDistanceTraveledRef
               (totalDistanceTraveledRef s + distanceToAdvance) s)).
  change (points (layout (set_language l s))) with (points (layout s)).
  destruct (Rge_dec _ _) as [_|_].
  - destruct s as [pd sg pi pp er im up ub ci sim lg live al ge wr tr acc idx ly sl].
    unfold cancelSimulation, speak, cancelSpeech. cbn. destruct tr; reflexivity.
  - change (set_totalDistanceTraveledRef
              (totalDistanceTraveledRef (set_language l s) + distanceToAdvance)
              (set_language l s))
      with (set_language l
              (set_totalDistanceTraveledRef
                 (totalDistanceTraveledRef s + distanceToAdvance) s)).
    now rewrite moveUser_set_language, advanceInstruction_set_language.
Qed.

Lemma fire_set_language (l : Language) (s : App) :
  fire (set_language l s) = set_language l (fire s).
Proof.
  unfold fire. cbn. destruct (simulationIntervalRef s); [|reflexivity].
  apply tick_set_language.
Qed.

(** X15: switching the language during a walk does not change what the
    interval does: it keeps announcing in the language that was current
    when the simulation was started. *)
Theorem ticks_ignore_language_switch (n : nat) (l : Language) (s : App) :
  ticks n (set_language l s) = set_language l (ticks n s)
  /\ speechLog (ticks n (set_language l s)) = speechLog (ticks n s).
Proof.
  assert (ticks n (set_language l s) = set_language l (ticks n s)) as H.
  { induction n as [|n IH]; [reflexivity|].
    now rewrite !ticks_S, IH, fire_set_language. }
  split; [exact H|]. now rewrite H.
Qed.

(** ** The component and its events *)

Lemma positionEffect_fields (s : App) :
  exists v, positionEffect s = set_userPosition v s.
Proof.
  unfold positionEffect.
  destruct s as [pd sg pi pp er im up ub ci sim lg live al ge wr tr acc idx ly sl].
  cbn. repeat case_match; eauto.
Qed.

Lemma handlesHeld_positionEffect (s : App) :
  handlesHeld s -> handlesHeld (positionEffect s).
Proof.
  intros H. destruct (positionEffect_fields s) as [v ->]. exact H.
Qed.

(** What a handler leaves in the cells of the two resources. *)
Lemma cancelSimulation_handles (s : App) :
  let n := cancelSimulation s in
  isSimulating n = false /\ simulationIntervalRef n = None
  /\ liveLocationEnabled n = liveLocationEnabled s
  /\ watchIdRef n = watchIdRef s
  /\ actualUserLatLng n = actualUserLatLng s.
Proof.
  unfold cancelSimulation, cancelSpeech.
  destruct (simulationIntervalRef s) eqn:E; cbn; rewrite ?E;
    repeat (refine (conj _ _)); reflexivity.
Qed.

Lemma handleEntryGateSelect_handles (g : string) (s : App) :
  let n := handleEntryGateSelect g s in
  isSimulating n = false /\ simulationIntervalRef n = None
  /\ liveLocationEnabled n = false
  /\ watchIdRef n = watchIdRef s
  /\ actualUserLatLng n = None.
Proof.
  destruct s as [pd sg pi pp er im up ub ci sim lg live al ge wr tr acc idx ly sl].
  unfold handleEntryGateSelect, clearRoute, cancelSimulation, cancelSpeech.
  cbn -[generatePathPointsForMap].
  destruct pd as [d|]; [|destruct tr; cbn; repeat (refine (conj _ _)); reflexivity].
  destruct (negb (bool_decide (g = EmptyString)));
    [|destruct tr; cbn; repeat (refine (conj _ _)); reflexivity].
  destruct (paths ly !! _); destruct tr; cbn -[generatePathPointsForMap];
    repeat (refine (conj _ _)); reflexivity.
Qed.

Lemma handlePNRLookup_handles (p : string) (s : App) :
  let n := handlePNRLookup p s in
  isSimulating n = false /\ simulationIntervalRef n = None
  /\ liveLocationEnabled n = false
  /\ watchIdRef n = watchIdRef s
  /\ (actualUserLatLng n = None \/ actualUserLatLng n = actualUserLatLng s).
Proof.
  destruct s as [pd sg pi pp er im up ub ci sim lg live al ge wr tr acc idx ly sl].
  unfold handlePNRLookup, clearRoute, cancelSimulation, cancelSpeech.
  destruct (getPNRDetails p); destruct tr; cbn;
    repeat (refine (conj _ _)); try reflexivity; auto.
Qed.

Lemma handleRecalculateRoute_handles (s : App) :
  let n := handleRecalculateRoute s in
  isSimulating n = false /\ simulationIntervalRef n = None
  /\ liveLocationEnabled n = false
  /\ watchIdRef n = watchIdRef s
  /\ (actualUserLatLng n = None \/ actualUserLatLng n = actualUserLatLng s).
Proof.
  unfold handleRecalculateRoute.
  set (s1 := set_error None (set_liveLocationEnabled false (cancelSimulation s))).
  assert (isSimulating s1 = false /\ simulationIntervalRef s1 = None
          /\ liveLocationEnabled s1 = false
          /\ watchIdRef s1 = watchIdRef s
          /\ actualUserLatLng s1 = actualUserLatLng s) as Hs1.
  { destruct (cancelSimulation_handles s) as (H1 & H2 & H3 & H4 & H5).
    subst s1. cbn. repeat (refine (conj _ _)); assumption || reflexivity. }
  destruct Hs1 as (H1 & H2 & H3 & H4 & H5).
  assert (let n := set_error
                     (Some "Please select an entry gate first to recalculate route.")
                     s1 in
          isSimulating n = false /\ simulationIntervalRef n = None
          /\ liveLocationEnabled n = false
          /\ watchIdRef n = watchIdRef s
          /\ (actualUserLatLng n = None \/ actualUserLatLng n = actualUserLatLng s))
    as Herr.
  { cbn. repeat (refine (conj _ _)); try assumption. now right. }
  destruct (selectedEntryGateId s) as [g|]; [|exact Herr].
  destruct (pnrDetails s); [|exact Herr].
  destruct (truthy (Some g)); [|exact Herr].
  destruct (handleEntryGateSelect_handles g s1) as (G1 & G2 & G3 & G4 & G5).
  cbn. repeat (refine (conj _ _)); try assumption; try congruence. now left.
Qed.

Lemma handle_handles (e : CancelEvent) (s : App) :
  e <> ToggleLiveLocation ->
  let n := handle e s in
  isSimulating n = false /\ simulationIntervalRef n = None
  /\ (liveLocationEnabled n = false \/ liveLocationEnabled n = liveLocationEnabled s)
  /\ watchIdRef n = watchIdRef s
  /\ (actualUserLatLng n = None \/ actualUserLatLng n = actualUserLatLng s).
Proof.
  intros He. destruct e as [| |g|p|]; [|contradiction| | |]; cbn [handle].
  - destruct (cancelSimulation_handles s) as (H1 & H2 & H3 & H4 & H5).
    cbv zeta. auto 10.
  - destruct (handleEntryGateSelect_handles g s) as (H1 & H2 & H3 & H4 & H5).
    cbv zeta. auto 10.
  - destruct (handlePNRLookup_handles p s) as (H1 & H2 & H3 & H4 & H5).
    cbv zeta. auto 10.
  - destruct (handleRecalculateRoute_handles s) as (H1 & H2 & H3 & H4 & H5).
    cbv zeta. auto 10.
Qed.

Lemma liveLocationEffect_handles (supported : bool) (s : App) :
  let n := liveLocationEffect supported s in
  liveLocationEnabled n = liveLocationEnabled s
  /\ (if liveLocationEnabled s
      then isSimulating n = false /\ simulationIntervalRef n = None
           /\ actualUserLatLng n = actualUserLatLng s
      else isSimulating n = isSimulating s
           /\ simulationIntervalRef n = simulationIntervalRef s
           /\ watchIdRef n = None /\ actualUserLatLng n = None).
Proof.
  destruct s as [pd sg pi pp er im up ub ci sim lg live al ge wr tr acc idx ly sl].
  unfold liveLocationEffect, cancelSimulation, cancelSpeech. cbn.
  destruct live, supported, tr; cbn; repeat (refine (conj _ _)); reflexivity.
Qed.

Lemma handlesHeld_liveLocationEffect (supported : bool) (s : App) :
  (isSimulating s = true <-> is_Some (simulationIntervalRef s)) ->
  handlesHeld (liveLocationEffect supported s).
Proof.
  intros H1.
  destruct (liveLocationEffect_handles supported s) as (Hl & Hrest).
  unfold handlesHeld. rewrite Hl.
  destruct (liveLocationEnabled s) eqn:El.
  - destruct Hrest as (Hs & Ht & Ha). rewrite Hs, Ht.
    refine (conj _ (conj _ (conj _ _))); try tauto; try discriminate.
    split; [discriminate|]. intros [? ?]. discriminate.
  - destruct Hrest as (Hs & Ht & Hw & Ha). rewrite Hs, Ht, Hw, Ha.
    refine (conj H1 (conj _ (conj _ _))); try tauto; try discriminate.
    intros [? ?]. discriminate.
Qed.

Lemma handlesHeld_resetEffect (s : App) :
  handlesHeld s -> handlesHeld (resetEffect s).
Proof. intros H. exact H. Qed.

Lemma handlesHeld_dispatch (supported : bool) (e : CancelEvent) (s : App) :
  handlesHeld s -> handlesHeld (dispatch supported e s).
Proof.
  intros (H1 & H2 & H3 & H4). unfold dispatch, afterRender.
  match goal with
  | |- handlesHeld (if ?c then ?a else resetEffect ?a) =>
      cut (handlesHeld a); [intros Ha; destruct c; exact Ha|]
  end.
  assert (e = ToggleLiveLocation \/ e <> ToggleLiveLocation) as [->|Hne]
    by (destruct e; (now left) || (now right)).
  - cbn [handle].
    rewrite bool_decide_eq_false_2
      by (cbn; destruct (liveLocationEnabled s); discriminate).
    apply handlesHeld_liveLocationEffect. exact H1.
  - destruct (handle_handles e s Hne) as (G1 & G2 & G3 & G4 & G5).
    case_bool_decide as Hd.
    + unfold handlesHeld. rewrite G1, G2, G4.
      refine (conj _ (conj _ (conj _ _))); try tauto.
      * split; [discriminate|]. intros [? ?]. discriminate.
      * rewrite <- Hd. exact H3.
      * rewrite <- Hd. intros Hl. destruct G5 as [->| ->]; [reflexivity|auto].
    + apply handlesHeld_liveLocationEffect. rewrite G1, G2.
      split; [discriminate|]. intros [? ?]. discriminate.
Qed.

Lemma startSimulation_handles (s : App) :
  startSimulation s = s
  \/ (isSimulating (startSimulation s) = true
      /\ simulationIntervalRef (startSimulation s)
         = Some (mkTimer (pathPointsForMap s) (pathInstructions s) (language s)
                   (pnrDetails s))
      /\ liveLocationEnabled s = false
      /\ (2 <= length (pathPointsForMap s))%nat
      /\ liveLocationEnabled (startSimulation s) = false
      /\ watchIdRef (startSimulation s) = watchIdRef s
      /\ actualUserLatLng (startSimulation s) = actualUserLatLng s).
Proof.
  destruct s as [pd sg pi pp er im up ub ci sim lg live al ge wr tr acc idx ly sl].
  unfold startSimulation, speak. cbn.
  destruct sim; [now left|]. cbn.
  case_bool_decide as Hlen; [now left|]. cbn.
  destruct live; [now left|]. right.
  assert (2 <= length pp)%nat as Hlen' by lia.
  repeat case_match; cbn; repeat (refine (conj _ _)); reflexivity || exact Hlen'.
Qed.

Lemma handlesHeld_startSimulation (s : App) :
  handlesHeld s -> handlesHeld (startSimulation s).
Proof.
  intros (H1 & H2 & H3 & H4).
  destruct (startSimulation_handles s) as [->|(G1 & G2 & G3 & _ & G5 & G6 & G7)].
  - exact (conj H1 (conj H2 (conj H3 H4))).
  - unfold handlesHeld. rewrite G1, G2, G5, G6, G7.
    refine (conj _ (conj _ (conj _ _))).
    + split; eauto.
    + discriminate.
    + intros Hw. rewrite <- G3. now apply H3.
    + intros _. now apply H4.
Qed.

Lemma tick_handles (t : Timer) (s : App) :
  simulationIntervalRef s = Some t ->
  (isSimulating (tick t s) = false /\ simulationIntervalRef (tick t s) = None)
  \/ (isSimulating (tick t s) = isSimulating s
      /\ simulationIntervalRef (tick t s) = Some t).
Proof.
  intros Ht.
  destruct (Rge_dec (totalDistanceTraveledRef s + distanceToAdvance)
              (totalPathLength (points (layout s)) (timer_pathPointsForMap t)))
    as [Hge|Hlt].
  - left. destruct (tick_complete_spec t s Hge) as (_ & _ & Hn & Hs & _). auto.
  - right. assert (totalDistanceTraveledRef s + distanceToAdvance
                   < totalPathLength (points (layout s)) (timer_pathPointsForMap t))
      as Hlt' by lra.
    destruct (tick_keeps_running t s Hlt') as (Hr & Hs & _).
    rewrite Hr, Hs. auto.
Qed.

Lemma handlesHeld_fire (s : App) : handlesHeld s -> handlesHeld (fire s).
Proof.
  intros H. unfold fire.
  destruct (simulationIntervalRef s) as [t|] eqn:Ht; [|exact H].
  destruct H as (H1 & H2 & H3 & H4).
  destruct (tick_sameRoute t s) as (_ & _ & _ & _ & _ & _ & Gl & Ga & Gw & _).
  unfold handlesHeld. rewrite Gl, Ga, Gw.
  destruct (tick_handles t s Ht) as [[Gs Gt]|[Gs Gt]]; rewrite Gs, Gt.
  - refine (conj _ (conj _ (conj H3 H4))); [|reflexivity].
    split; [discriminate|]. intros [? ?]. discriminate.
  - refine (conj _ (conj _ (conj H3 H4))).
    + rewrite H1, Ht. split; eauto.
    + intros Hl. specialize (H2 Hl). rewrite Ht in H2. discriminate.
Qed.

Lemma handlesHeld_step (supported : bool) (ev : Event) (s : App) :
  handlesHeld s -> handlesHeld (step supported ev s).
Proof.
  intros H. destruct ev as [e| | |l|p|code message|]; cbn [step].
  - apply handlesHeld_positionEffect, handlesHeld_dispatch, H.
  - apply handlesHeld_positionEffect, handlesHeld_startSimulation, H.
  - apply handlesHeld_positionEffect, handlesHeld_fire, H.
  - exact H.
  - destruct (watchIdRef s) eqn:Hw; [|exact H].
    apply handlesHeld_positionEffect.
    destruct H as (H1 & H2 & H3 & H4).
    assert (liveLocationEnabled s = true) as Hl by (apply H3; rewrite Hw; eauto).
    unfold handlesHeld, onGeolocationSuccess. cbn.
    refine (conj H1 (conj H2 (conj H3 _))). rewrite Hl. discriminate.
  - destruct (watchIdRef s) eqn:Hw; [|exact H].
    apply handlesHeld_positionEffect.
    destruct H as (H1 & H2 & H3 & H4).
    unfold handlesHeld, onGeolocationError. cbn.
    refine (conj H1 (conj H2 (conj H3 _))). reflexivity.
  - apply handlesHeld_positionEffect, handlesHeld_liveLocationEffect, H.
Qed.

Lemma handlesHeld_initial : handlesHeld initialApp.
Proof.
  unfold handlesHeld, initialApp. cbn.
  refine (conj _ (conj _ (conj _ _))); try reflexivity; try discriminate.
  - split; [discriminate|]. intros [? ?]. discriminate.
  - intros [? ?]. discriminate.
Qed.

(** X16: in every state the component can reach, the interval is
    registered exactly while [isSimulating] is set and never while live
    location is on; the position watch is registered only while live
    location is on, and no fix is kept once it is off. *)
Theorem resources_are_held_while_in_use (supported : bool) (s : App) :
  reachable supported s -> handlesHeld s.
Proof.
  induction 1 as [|ev s _ IH].
  - exact handlesHeld_initial.
  - now apply handlesHeld_step.
Qed.

Lemma resources_are_held_while_in_use_witness :
  reachable true (step true Start
                    (step true (Cancelling (SelectEntryGate "gate-a"))
                       (step true (Cancelling (LookupPNR "1234567890")) initialApp)))
  /\ handlesHeld (step true Start
                    (step true (Cancelling (SelectEntryGate "gate-a"))
                       (step true (Cancelling (LookupPNR "1234567890")) initialApp))).
Proof.
  assert (reachable true
            (step true Start
               (step true (Cancelling (SelectEntryGate "gate-a"))
                  (step true (Cancelling (LookupPNR "1234567890")) initialApp))))
    as Hr by (repeat apply reachable_step; apply reachable_init).
  split; [exact Hr|].
  exact (resources_are_held_while_in_use true _ Hr).
Defined.

(** The route state a gate selection leaves. *)
Lemma handleEntryGateSelect_route (g : string) (s : App) :
  let n := handleEntryGateSelect g s in
  pnrDetails n = pnrDetails s
  /\ selectedEntryGateId n = Some g
  /\ infoMessage n = None
  /\ match pnrDetails s with
     | Some d =>
         if bool_decide (g = EmptyString) then
           layout n = layout s /\ pathPointsForMap n = [] /\ pathInstructions n = []
           /\ userPosition n = None /\ error n = error s
         else
           let pathKey := String.append g (String.append "-" (destinationPlatformId d)) in
           match paths (layout s) !! pathKey with
           | Some instructions =>
               let m := generatePathPointsForMap (points (layout s)) instructions
                          (Some g) in
               layout n = mkLayout (mat_store m)
                            (<[pathKey := mat_instructions m]> (paths (layout s)))
               /\ pathPointsForMap n = mat_points m
               /\ pathInstructions n = mat_instructions m
               /\ userPosition n = firstLatLng (mat_store m) (mat_points m)
               /\ error n = None
           | None =>
               layout n = layout s /\ pathPointsForMap n = []
               /\ pathInstructions n = [] /\ userPosition n = None
               /\ error n
                  = Some "No path found for the selected gate and platform. Please try another gate."
           end
     | None =>
         layout n = layout s /\ pathPointsForMap n = [] /\ pathInstructions n = []
         /\ userPosition n = None /\ error n = error s
     end.
Proof.
  destruct s as [pd sg pi pp er im up ub ci sim lg live al ge wr tr acc idx ly sl].
  unfold handleEntryGateSelect, clearRoute, cancelSimulation, cancelSpeech, truthy.
  cbn -[generatePathPointsForMap].
  destruct pd as [d|];
    [|destruct tr; cbn; repeat (refine (conj _ _)); reflexivity].
  destruct (bool_decide (g = EmptyString)); cbn -[generatePathPointsForMap];
    [destruct tr; cbn; repeat (refine (conj _ _)); reflexivity|].
  destruct (paths ly !! _); destruct tr; cbn -[generatePathPointsForMap];
    repeat (refine (conj _ _)); reflexivity.
Qed.

(** X17: what a gate selection leaves.  It always stops the simulation
    and switches live location off.  Without a PNR record, with the empty
    gate id, or when the table has no route under the key of the gate and
    the platform, no route is shown and the table is not touched; a
    missing route is reported in the error message.  Otherwise the route
    under that key is materialized, stored back under its key, and shown
    from the gate on. *)
Theorem gate_selection_outcomes (g : string) (s : App) :
  let n := handleEntryGateSelect g s in
  pnrDetails n = pnrDetails s
  /\ selectedEntryGateId n = Some g
  /\ infoMessage n = None
  /\ isSimulating n = false
  /\ simulationIntervalRef n = None
  /\ liveLocationEnabled n = false
  /\ match pnrDetails s with
     | Some d =>
         if bool_decide (g = EmptyString) then
           layout n = layout s /\ pathPointsForMap n = [] /\ pathInstructions n = []
           /\ userPosition n = None /\ error n = error s
         else
           let pathKey := String.append g (String.append "-" (destinationPlatformId d)) in
           match paths (layout s) !! pathKey with
           | Some instructions =>
               let m := generatePathPointsForMap (points (layout s)) instructions
                          (Some g) in
               layout n = mkLayout (mat_store m)
                            (<[pathKey := mat_instructions m]> (paths (layout s)))
               /\ pathPointsForMap n = mat_points m
               /\ pathInstructions n = mat_instructions m
               /\ userPosition n = firstLatLng (mat_store m) (mat_points m)
               /\ error n = None
           | None =>
               layout n = layout s /\ pathPointsForMap n = []
               /\ pathInstructions n = [] /\ userPosition n = None
               /\ error n
                  = Some "No path found for the selected gate and platform. Please try another gate."
           end
     | None =>
         layout n = layout s /\ pathPointsForMap n = [] /\ pathInstructions n = []
         /\ userPosition n = None /\ error n = error s
     end.
Proof.
  intros n. unfold n.
  destruct (handleEntryGateSelect_route g s) as (H1 & H2 & H3 & H4).
  destruct (handleEntryGateSelect_handles g s) as (G1 & G2 & G3 & _).
  exact (conj H1 (conj H2 (conj H3 (conj G1 (conj G2 (conj G3 H4)))))).
Qed.

(** The route state the other handlers leave. *)
Lemma handlePNRLookup_route (p : string) (s : App) :
  let n := handlePNRLookup p s in
  layout n = layout s
  /\ pnrDetails n = getPNRDetails p
  /\ infoMessage n = None
  /\ liveLocationEnabled n = false
  /\ match getPNRDetails p with
     | Some d =>
         selectedEntryGateId n = None /\ pathPointsForMap n = []
         /\ pathInstructions n = [] /\ userPosition n = None /\ error n = None
     | None =>
         selectedEntryGateId n = selectedEntryGateId s
         /\ pathPointsForMap n = pathPointsForMap s
         /\ pathInstructions n = pathInstructions s
         /\ userPosition n = userPosition s
         /\ error n
            = Some "PNR not found. Please try a mock PNR like 1234567890, 0987654321, 1122334455, or 5544332211."
     end.
Proof.
  destruct s as [pd sg pi pp er im up ub ci sim lg live al ge wr tr acc idx ly sl].
  unfold handlePNRLookup, clearRoute, cancelSimulation, cancelSpeech.
  destruct (getPNRDetails p); destruct tr; cbn;
    repeat (refine (conj _ _)); reflexivity.
Qed.

(** X18: a PNR lookup that succeeds stores the record, clears the gate and
    the route and reports no error; one that fails clears the record,
    reports the error and leaves the gate and the route on the screen.
    Either way live location is switched off, the simulation is stopped
    and the table is not touched. *)
Theorem pnr_lookup_outcomes (p : string) (s : App) :
  let n := handlePNRLookup p s in
  layout n = layout s
  /\ pnrDetails n = getPNRDetails p
  /\ liveLocationEnabled n = false
  /\ isSimulating n = false
  /\ simulationIntervalRef n = None
  /\ match getPNRDetails p with
     | Some d =>
         pnr d = p
         /\ selectedEntryGateId n = None /\ pathPointsForMap n = []
         /\ pathInstructions n = [] /\ userPosition n = None /\ error n = None
     | None =>
         selectedEntryGateId n = selectedEntryGateId s
         /\ pathPointsForMap n = pathPointsForMap s
         /\ pathInstructions n = pathInstructions s
         /\ userPosition n = userPosition s
         /\ error n
            = Some "PNR not found. Please try a mock PNR like 1234567890, 0987654321, 1122334455, or 5544332211."
     end.
Proof.
  intros n. unfold n.
  destruct (handlePNRLookup_route p s) as (H1 & H2 & _ & H4 & H5).
  destruct (handlePNRLookup_handles p s) as (G1 & G2 & _).
  refine (conj H1 (conj H2 (conj H4 (conj G1 (conj G2 _))))).
  destruct (getPNRDetails p) as [d|] eqn:Ep; [|exact H5].
  refine (conj _ H5).
  exact (proj1 (find_bool_decide_Some (fun d => pnr d = p) _ _ Ep)).
Qed.

Lemma closureCurrent_None (s : App) :
  simulationIntervalRef s = None -> closureCurrent s.
Proof. intros H t Ht. rewrite H in Ht. discriminate. Qed.

Lemma closureCurrent_ext (s s' : App) :
  simulationIntervalRef s' = simulationIntervalRef s ->
  pathPointsForMap s' = pathPointsForMap s ->
  pathInstructions s' = pathInstructions s ->
  pnrDetails s' = pnrDetails s ->
  closureCurrent s -> closureCurrent s'.
Proof.
  intros H1 H2 H3 H4 H t Ht. rewrite H1 in Ht. rewrite H2, H3, H4. now apply H.
Qed.

Lemma liveLocationEffect_route (supported : bool) (s : App) :
  let n := liveLocationEffect supported s in
  layout n = layout s /\ pathPointsForMap n = pathPointsForMap s
  /\ pathInstructions n = pathInstructions s /\ pnrDetails n = pnrDetails s.
Proof.
  destruct s as [pd sg pi pp er im up ub ci sim lg live al ge wr tr acc idx ly sl].
  unfold liveLocationEffect, cancelSimulation, cancelSpeech. cbn.
  destruct live, supported, tr; cbn; repeat (refine (conj _ _)); reflexivity.
Qed.

Lemma closureCurrent_liveLocationEffect (supported : bool) (s : App) :
  closureCurrent s -> closureCurrent (liveLocationEffect supported s).
Proof.
  intros H.
  destruct (liveLocationEffect_route supported s) as (_ & H2 & H3 & H4).
  destruct (liveLocationEffect_handles supported s) as (_ & Hh).
  destruct (liveLocationEnabled s).
  - apply closureCurrent_None. apply Hh.
  - apply (closureCurrent_ext s); try assumption. apply Hh.
Qed.

Lemma closureCurrent_positionEffect (s : App) :
  closureCurrent s -> closureCurrent (positionEffect s).
Proof. intros H. destruct (positionEffect_fields s) as [v ->]. exact H. Qed.

Lemma closureCurrent_dispatch (supported : bool) (e : CancelEvent) (s : App) :
  closureCurrent s -> closureCurrent (dispatch supported e s).
Proof.
  intros H. unfold dispatch, afterRender.
  match goal with
  | |- closureCurrent (if ?c then ?a else resetEffect ?a) =>
      cut (closureCurrent a); [intros Ha; destruct c; exact Ha|]
  end.
  assert (closureCurrent (handle e s)) as Hn.
  { assert (e = ToggleLiveLocation \/ e <> ToggleLiveLocation) as [->|Hne]
      by (destruct e; (now left) || (now right)).
    - exact H.
    - apply closureCurrent_None. apply (handle_handles e s Hne). }
  destruct (bool_decide _); [exact Hn|].
  now apply closureCurrent_liveLocationEffect.
Qed.

Lemma closureCurrent_startSimulation (s : App) :
  closureCurrent s -> closureCurrent (startSimulation s).
Proof.
  intros H.
  destruct (startSimulation_handles s) as [->|(_ & G2 & _ & G4 & _)]; [exact H|].
  destruct (startSimulation_route s) as (R1 & R2 & _ & _ & _ & R6).
  intros t Ht. rewrite G2 in Ht. injection Ht as <-. cbn.
  rewrite R1, R2, R6. auto.
Qed.

Lemma closureCurrent_fire (s : App) : closureCurrent s -> closureCurrent (fire s).
Proof.
  intros H. unfold fire.
  destruct (simulationIntervalRef s) as [t|] eqn:Ht; [|exact H].
  destruct (tick_sameRoute t s) as (_ & R2 & R3 & R4 & _).
  destruct (tick_handles t s Ht) as [[_ Gt]|[_ Gt]].
  - now apply closureCurrent_None.
  - apply (closureCurrent_ext s); try assumption. now rewrite Gt, Ht.
Qed.

Lemma closureCurrent_step (supported : bool) (ev : Event) (s : App) :
  closureCurrent s -> closureCurrent (step supported ev s).
Proof.
  intros H. destruct ev as [e| | |l|p|code message|]; cbn [step].
  - apply closureCurrent_positionEffect, closureCurrent_dispatch, H.
  - apply closureCurrent_positionEffect, closureCurrent_startSimulation, H.
  - apply closureCurrent_positionEffect, closureCurrent_fire, H.
  - exact H.
  - destruct (watchIdRef s); [|exact H].
    apply closureCurrent_positionEffect. exact H.
  - destruct (watchIdRef s); [|exact H].
    apply closureCurrent_positionEffect. exact H.
  - apply closureCurrent_positionEffect, closureCurrent_liveLocationEffect, H.
Qed.

(** X19: in every state the component can reach, the callback of a
    registered interval works on the route and the PNR record that are on
    the screen, and that route has at least two points. *)
Theorem interval_works_on_the_current_route (supported : bool) (s : App) :
  reachable supported s -> closureCurrent s.
Proof.
  induction 1 as [|ev s _ IH].
  - now apply closureCurrent_None.
  - now apply closureCurrent_step.
Qed.

Lemma interval_works_on_the_current_route_witness :
  reachable true (step true Start
                    (step true (Cancelling (SelectEntryGate "gate-a"))
                       (step true (Cancelling (LookupPNR "1234567890")) initialApp)))
  /\ closureCurrent (step true Start
                       (step true (Cancelling (SelectEntryGate "gate-a"))
                          (step true (Cancelling (LookupPNR "1234567890"))
                             initialApp))).
Proof.
  assert (reachable true
            (step true Start
               (step true (Cancelling (SelectEntryGate "gate-a"))
                  (step true (Cancelling (LookupPNR "1234567890")) initialApp))))
    as Hr by (repeat apply reachable_step; apply reachable_init).
  split; [exact Hr|].
  exact (interval_works_on_the_current_route true _ Hr).
Defined.

Lemma tableIntact_ext (s s' : App) :
  layout s' = layout s ->
  pathPointsForMap s' = pathPointsForMap s \/ pathPointsForMap s' = [] ->
  tableIntact s -> tableIntact s'.
Proof.
  intros Hl Hp (H1 & H2 & H3). unfold tableIntact. rewrite Hl.
  refine (conj H1 (conj H2 _)).
  destruct Hp as [-> | ->]; [exact H3|constructor].
Qed.

Lemma mat_instructions_unannotated (store : list StationPoint.t)
    (instructions : list PathInstruction.t) (entryGateId : option string) :
  map unannotatedInstruction
    (mat_instructions (generatePathPointsForMap store instructions entryGateId))
  = map unannotatedInstruction instructions.
Proof.
  unfold generatePathPointsForMap. destruct entryGateId as [g|]; [|reflexivity].
  destruct (bool_decide (g = EmptyString)); [reflexivity|].
  cbn [mat_instructions]. rewrite map_map. apply map_ext. intros inst.
  apply annotateInstruction_unannotated.
Qed.

Lemma mat_points_valid (store : list StationPoint.t)
    (instructions : list PathInstruction.t) (entryGateId : option string) :
  let m := generatePathPointsForMap store instructions entryGateId in
  Forall (fun r => (r < length (mat_store m))%nat) (mat_points m).
Proof.
  unfold generatePathPointsForMap. destruct entryGateId as [g|]; [|constructor].
  destruct (bool_decide (g = EmptyString)); [constructor|].
  cbn. rewrite assignCumulative_length. apply collectPoints_valid.
Qed.

(** Materializing a route of the table and storing it back keeps the table
    intact. *)
Lemma tableIntact_materialize (s n : App) (pathKey : string)
    (instructions : list PathInstruction.t) (entryGateId : option string) :
  tableIntact s ->
  paths (layout s) !! pathKey = Some instructions ->
  let m := generatePathPointsForMap (points (layout s)) instructions entryGateId in
  layout n = mkLayout (mat_store m)
               (<[pathKey := mat_instructions m]> (paths (layout s))) ->
  pathPointsForMap n = mat_points m ->
  tableIntact n.
Proof.
  intros (H1 & H2 & _) Hk m Hl Hp. unfold tableIntact. rewrite Hl, Hp.
  cbn [points paths].
  refine (conj _ (conj _ (mat_points_valid _ _ _))).
  - unfold m. now rewrite mat_store_unannotated.
  - rewrite fmap_insert. unfold m. rewrite mat_instructions_unannotated.
    rewrite insert_id; [exact H2|].
    now rewrite lookup_fmap, Hk.
Qed.

Lemma tableIntact_handleEntryGateSelect (g : string) (s : App) :
  tableIntact s -> tableIntact (handleEntryGateSelect g s).
Proof.
  intros H.
  destruct (handleEntryGateSelect_route g s) as (_ & _ & _ & Hr).
  destruct (pnrDetails s) as [d|].
  - destruct (bool_decide (g = EmptyString)).
    + destruct Hr as (Hl & Hp & _). apply (tableIntact_ext s); auto.
    + cbv zeta in Hr.
      destruct (paths (layout s) !! _) as [instructions|] eqn:Hk.
      * destruct Hr as (Hl & Hp & _).
        exact (tableIntact_materialize s _ _ _ _ H Hk Hl Hp).
      * destruct Hr as (Hl & Hp & _). apply (tableIntact_ext s); auto.
  - destruct Hr as (Hl & Hp & _). apply (tableIntact_ext s); auto.
Qed.

Lemma tableIntact_handle (e : CancelEvent) (s : App) :
  tableIntact s -> tableIntact (handle e s).
Proof.
  intros H. destruct e as [| |g|p|]; cbn [handle].
  - apply (tableIntact_ext s); [| |exact H].
    + apply cancelSimulation_spec.
    + left. unfold cancelSimulation, cancelSpeech.
      destruct (simulationIntervalRef s); reflexivity.
  - exact H.
  - now apply tableIntact_handleEntryGateSelect.
  - destruct (handlePNRLookup_route p s) as (Hl & _ & _ & _ & Hr).
    apply (tableIntact_ext s); [exact Hl| |exact H].
    destruct (getPNRDetails p); [right|left]; apply Hr.
  - unfold handleRecalculateRoute.
    set (s1 := set_error None (set_liveLocationEnabled false (cancelSimulation s))).
    assert (tableIntact s1) as H1.
    { apply (tableIntact_ext s); [| |exact H].
      - subst s1. cbn. apply cancelSimulation_spec.
      - left. subst s1. unfold cancelSimulation, cancelSpeech.
        destruct (simulationIntervalRef s); reflexivity. }
    destruct (selectedEntryGateId s) as [g|]; [|exact H1].
    destruct (pnrDetails s); [|exact H1].
    destruct (truthy (Some g)); [|exact H1].
    exact (tableIntact_handleEntryGateSelect g s1 H1).
Qed.

Lemma tableIntact_dispatch (supported : bool) (e : CancelEvent) (s : App) :
  tableIntact s -> tableIntact (dispatch supported e s).
Proof.
  intros H. unfold dispatch, afterRender.
  match goal with
  | |- tableIntact (if ?c then ?a else resetEffect ?a) =>
      cut (tableIntact a); [intros Ha; destruct c; exact Ha|]
  end.
  pose proof (tableIntact_handle e s H) as Hn.
  destruct (bool_decide _); [exact Hn|].
  destruct (liveLocationEffect_route supported (handle e s)) as (Hl & Hp & _).
  apply (tableIntact_ext (handle e s)); auto.
Qed.

Lemma tableIntact_positionEffect (s : App) :
  tableIntact s -> tableIntact (positionEffect s).
Proof. intros H. destruct (positionEffect_fields s) as [v ->]. exact H. Qed.

Lemma tableIntact_step (supported : bool) (ev : Event) (s : App) :
  tableIntact s -> tableIntact (step supported ev s).
Proof.
  intros H. destruct ev as [e| | |l|p|code message|]; cbn [step].
  - apply tableIntact_positionEffect, tableIntact_dispatch, H.
  - apply tableIntact_positionEffect.
    destruct (startSimulation_route s) as (R1 & _ & R3 & _).
    apply (tableIntact_ext s); auto.
  - apply tableIntact_positionEffect.
    destruct (fire_sameRoute s) as (R1 & R2 & _).
    apply (tableIntact_ext s); auto.
  - exact H.
  - destruct (watchIdRef s); [|exact H].
    apply tableIntact_positionEffect. exact H.
  - destruct (watchIdRef s); [|exact H].
    apply tableIntact_positionEffect. exact H.
  - apply tableIntact_positionEffect.
    destruct (liveLocationEffect_route supported s) as (Hl & Hp & _).
    apply (tableIntact_ext s); auto.
Qed.

Lemma tableIntact_initial : tableIntact initialApp.
Proof.
  unfold tableIntact, initialApp. cbn [layout pathPointsForMap].
  refine (conj eq_refl (conj eq_refl _)). constructor.
Qed.

(** X20: in every state the component can reach, the global table still
    holds the points and the routes it was created with: only the
    annotations of points and instructions ever change, no point or route
    is added or removed, and the path on the screen refers to points of
    the table. *)
Theorem table_is_only_annotated (supported : bool) (s : App) :
  reachable supported s -> tableIntact s.
Proof.
  induction 1 as [|ev s _ IH].
  - exact tableIntact_initial.
  - now apply tableIntact_step.
Qed.

Lemma table_is_only_annotated_witness :
  reachable true (step true Interval
                    (step true Start
                       (step true (Cancelling (SelectEntryGate "gate-a"))
                          (step true (Cancelling (LookupPNR "1234567890"))
                             initialApp))))
  /\ tableIntact (step true Interval
                    (step true Start
                       (step true (Cancelling (SelectEntryGate "gate-a"))
                          (step true (Cancelling (LookupPNR "1234567890"))
                             initialApp)))).
Proof.
  assert (reachable true
            (step true Interval
               (step true Start
                  (step true (Cancelling (SelectEntryGate "gate-a"))
                     (step true (Cancelling (LookupPNR "1234567890"))
                        initialApp)))))
    as Hr by (repeat apply reachable_step; apply reachable_init).
  split; [exact Hr|].
  exact (table_is_only_annotated true _ Hr).
Defined.

Lemma reachable_tableIntact (supported : bool) (s : App) :
  reachable supported s -> tableIntact s.
Proof.
  induction 1 as [|ev s _ IH]; [exact tableIntact_initial|].
  now apply tableIntact_step.
Qed.

Lemma reachable_handlesHeld (supported : bool) (s : App) :
  reachable supported s -> handlesHeld s.
Proof.
  induction 1 as [|ev s _ IH]; [exact handlesHeld_initial|].
  now apply handlesHeld_step.
Qed.

Lemma step_pnrDetails (supported : bool) (ev : Event) (s : App) :
  pnrDetails (step supported ev s) = pnrDetails s
  \/ exists p, pnrDetails (step supported ev s) = getPNRDetails p.
Proof.
  assert (forall a, pnrDetails (positionEffect a) = pnrDetails a) as Hpos.
  { intros a. destruct (positionEffect_fields a) as [v ->]. reflexivity. }
  destruct ev as [e| | |l|p|code message|]; cbn [step].
  - rewrite Hpos. unfold dispatch.
    destruct (afterRender_spec supported s (handle e s)) as (-> & _).
    destruct e as [| |g|p|]; cbn [handle].
    + left. apply cancelSimulation_spec.
    + left. reflexivity.
    + left. apply handleEntryGateSelect_route.
    + right. exists p. apply handlePNRLookup_route.
    + left. assert (RecalculateRoute <> ToggleLiveLocation) as Hne by discriminate.
      apply (handle_spec RecalculateRoute s Hne).
  - left. rewrite Hpos. apply startSimulation_route.
  - left. rewrite Hpos. apply fire_sameRoute.
  - left. reflexivity.
  - left. destruct (watchIdRef s); [|reflexivity]. now rewrite Hpos.
  - left. destruct (watchIdRef s); [|reflexivity]. now rewrite Hpos.
  - left. rewrite Hpos. apply liveLocationEffect_route.
Qed.

Lemma reachable_pnrDetails (supported : bool) (s : App) (d : PNRDetails) :
  reachable supported s -> pnrDetails s = Some d -> d ∈ mockPNRData.
Proof.
  induction 1 as [|ev s _ IH]; [discriminate|].
  destruct (step_pnrDetails supported ev s) as [-> | [p ->]]; [exact IH|].
  intros Hp. exact (proj2 (find_bool_decide_Some (fun d => pnr d = p) _ _ Hp)).
Qed.

Lemma requestedIds_unannotated (l1 l2 : list PathInstruction.t) (g : string) :
  map unannotatedInstruction l1 = map unannotatedInstruction l2 ->
  requestedIds l1 g = requestedIds l2 g.
Proof.
  intros H. unfold requestedIds. f_equal.
  revert l2 H. induction l1 as [|a l1 IH]; intros [|b l2] H; try discriminate;
    [reflexivity|].
  cbn [map] in H.
  assert (unannotatedInstruction a = unannotatedInstruction b) as Hab by congruence.
  assert (map unannotatedInstruction l1 = map unannotatedInstruction l2) as Hl
    by congruence.
  clear H. cbn [flat_map]. rewrite (IH l2 Hl).
  pose proof (f_equal PathInstruction.path_nodes Hab) as Hn.
  pose proof (f_equal PathInstruction.to Hab) as Ht.
  cbn in Hn, Ht. now rewrite Hn, Ht.
Qed.

(** The gates of the table. *)
Lemma gates_of_the_table (store : list StationPoint.t) (p : StationPoint.t) :
  unannotated <$> store = unannotated <$> points mockStationLayout ->
  p ∈ store -> StationPoint.type p = gate ->
  StationPoint.id p ∈ ["gate-a"; "gate-b"].
Proof.
  intros Hu Hp Ht.
  assert (unannotated p ∈ filter (fun q => StationPoint.type q = gate)
                             (unannotated <$> points mockStationLayout)) as Hin.
  { apply list_elem_of_filter. split; [exact Ht|].
    rewrite <- Hu. now apply list_elem_of_fmap_2. }
  assert (StationPoint.id
          <$> filter (fun q => StationPoint.type q = gate)
                (unannotated <$> points mockStationLayout)
          = ["gate-a"; "gate-b"]) as Hg by (vm_compute; reflexivity).
  rewrite <- Hg.
  change (StationPoint.id p) with (StationPoint.id (unannotated p)).
  now apply list_elem_of_fmap_2.
Qed.

Lemma offeredGates_spec (s : App) (g : string) :
  g ∈ offeredGates s ->
  exists p, p ∈ points (layout s) /\ StationPoint.type p = gate
            /\ StationPoint.id p = g.
Proof.
  unfold offeredGates, entryGates, mapboxMarkers. rewrite elem_of_app.
  intros [H|H].
  - apply list_elem_of_fmap in H as (p & -> & Hp).
    apply list_elem_of_filter in Hp as [Ht Hp]. eauto.
  - apply list_elem_of_omap in H as (m & Hm & Hc).
    apply list_elem_of_omap in Hm as (p & Hp & Hmk).
    exists p. split; [exact Hp|].
    unfold mapboxMarker in Hmk.
    destruct (StationPoint.latLng p); [|discriminate].
    destruct (StationPoint.type p); [| | |discriminate].
    + injection Hmk as <-. cbn in Hc. injection Hc as <-. auto.
    + injection Hmk as <-. discriminate.
    + repeat case_match; try discriminate; injection Hmk as <-; discriminate.
Qed.

(** The routes of the table, by gate and PNR record. *)
Lemma table_route (g : string) (d : PNRDetails) :
  g ∈ ["gate-a"; "gate-b"] -> d ∈ mockPNRData ->
  exists route,
    paths mockStationLayout
      !! String.append g (String.append "-" (destinationPlatformId d)) = Some route
    /\ let pts := collectPoints (points mockStationLayout) route g in
       NoDup pts /\ (2 <= length pts)%nat
       /\ head (idsOf (points mockStationLayout) pts) = Some g
       /\ last (idsOf (points mockStationLayout) pts)
          = Some (destinationPlatformId d).
Proof.
  intros Hg Hd. unfold mockPNRData in Hd.
  repeat (apply elem_of_cons in Hg as [->|Hg]);
    [| |inversion Hg].
  all: repeat (apply elem_of_cons in Hd as [->|Hd]); [| | | |inversion Hd].
  all: eexists; refine (conj _ (conj _ (conj _ (conj _ _))));
    [ vm_compute; reflexivity
    | apply (bool_decide_unpack _); vm_compute; reflexivity
    | vm_compute; lia
    | vm_compute; reflexivity
    | vm_compute; reflexivity ].
Qed.

(** X21: whenever a PNR record is on the screen, every gate the user
    interface offers (an option of the gate selector or a click on a gate
    marker of the map) has a route: the record is one of the table, the
    gate is gate A or gate B, and selecting it reports no error and shows a
    path of at least two points, without repetition, that starts at that
    gate and ends at the platform of the record. *)
Theorem offered_gates_lead_to_the_platform (supported : bool) (s : App)
    (g : string) (d : PNRDetails) :
  reachable supported s ->
  pnrDetails s = Some d ->
  g ∈ offeredGates s ->
  let n := handleEntryGateSelect g s in
  g ∈ ["gate-a"; "gate-b"]
  /\ d ∈ mockPNRData
  /\ error n = None
  /\ NoDup (pathPointsForMap n)
  /\ (2 <= length (pathPointsForMap n))%nat
  /\ head (idsOf (points (layout n)) (pathPointsForMap n)) = Some g
  /\ last (idsOf (points (layout n)) (pathPointsForMap n))
     = Some (destinationPlatformId d).
Proof.
  intros Hr Hpnr Hg n.
  destruct (reachable_tableIntact _ _ Hr) as (Hpts & Hpaths & _).
  pose proof (reachable_pnrDetails _ _ _ Hr Hpnr) as Hd.
  destruct (offeredGates_spec s g Hg) as (p & Hp & Ht & <-).
  pose proof (gates_of_the_table _ p Hpts Hp Ht) as Hgate.
  set (g := StationPoint.id p) in *.
  destruct (table_route g d Hgate Hd) as (route & Hk & Hnd & Hlen & Hhead & Hlast).
  set (pathKey := String.append g (String.append "-" (destinationPlatformId d))) in *.
  assert (exists instructions,
             paths (layout s) !! pathKey = Some instructions
             /\ map unannotatedInstruction instructions
                = map unannotatedInstruction route) as (instructions & Hks & Hin).
  { pose proof (f_equal (fun m => m !! pathKey) Hpaths) as Hl. cbn beta in Hl.
    rewrite !lookup_fmap, Hk in Hl.
    destruct (paths (layout s) !! pathKey) as [instructions|]; [|discriminate].
    exists instructions. split; [reflexivity|]. cbn in Hl. now injection Hl. }
  assert (g <> EmptyString) as Hne.
  { intros E. rewrite E in Hgate.
    repeat (apply elem_of_cons in Hgate as [Hgate|Hgate]; [discriminate|]).
    inversion Hgate. }
  destruct (handleEntryGateSelect_route g s) as (_ & _ & _ & Hroute).
  fold n in Hroute. rewrite Hpnr in Hroute.
  rewrite bool_decide_eq_false_2 in Hroute by exact Hne.
  cbv zeta in Hroute. fold pathKey in Hroute. rewrite Hks in Hroute.
  destruct Hroute as (Hlay & Hpp & _ & _ & Herr).
  set (m := generatePathPointsForMap (points (layout s)) instructions (Some g)) in *.
  assert (mat_points m = collectPoints (points mockStationLayout) route g) as Hm.
  { unfold m. rewrite (generate_Some _ _ _ Hne). cbv zeta. cbn [mat_points].
    rewrite (collectPoints_ext _ _ _ _ Hpts), !collectPoints_omap.
    now rewrite (requestedIds_unannotated _ _ _ Hin). }
  assert (idsOf (points (layout n)) (pathPointsForMap n)
          = idsOf (points mockStationLayout)
              (collectPoints (points mockStationLayout) route g)) as Hids.
  { rewrite Hlay, Hpp, Hm. cbn [points]. apply idsOf_ext.
    unfold m. now rewrite mat_store_unannotated. }
  rewrite Hids, Hpp, Hm.
  exact (conj Hgate (conj Hd (conj Herr (conj Hnd (conj Hlen (conj Hhead Hlast)))))).
Qed.

Lemma offered_gates_lead_to_the_platform_witness :
  let s := step true (Cancelling (LookupPNR "1234567890")) initialApp in
  let d := mkPNR "1234567890" "12001" "1" "S1, Seat 45" "platform-1" in
  reachable true s
  /\ pnrDetails s = Some d
  /\ "gate-b" ∈ offeredGates s
  /\ error (handleEntryGateSelect "gate-b" s) = None
  /\ (2 <= length (pathPointsForMap (handleEntryGateSelect "gate-b" s)))%nat.
Proof.
  intros s d.
  assert (reachable true s) as Hr by (apply reachable_step, reachable_init).
  assert (pnrDetails s = Some d) as Hp by (vm_compute; reflexivity).
  assert ("gate-b" ∈ offeredGates s) as Hg
    by (apply (bool_decide_unpack _); vm_compute; reflexivity).
  destruct (offered_gates_lead_to_the_platform true s "gate-b" d Hr Hp Hg)
    as (_ & _ & He & _ & Hl & _).
  exact (conj Hr (conj Hp (conj Hg (conj He Hl)))).
Defined.

(** ** Live location *)

Lemma positionEffect_idem (s : App) :
  positionEffect (positionEffect s) = positionEffect s.
Proof.
  destruct s as [pd sg pi pp er im up ub ci sim lg live al ge wr tr acc idx ly sl].
  unfold positionEffect. cbn.
  destruct live, al as [a|]; cbn; try reflexivity.
  - case_bool_decide as Hlen; cbn; [|now rewrite bool_decide_eq_false_2 by exact Hlen].
    destruct sim; cbn; [now rewrite bool_decide_eq_true_2 by exact Hlen|].
    destruct up as [u|]; cbn.
    + rewrite bool_decide_eq_true_2 by exact Hlen. reflexivity.
    + rewrite bool_decide_eq_true_2 by exact Hlen. cbn.
      destruct (firstLatLng (points ly) pp); reflexivity.
  - case_bool_decide as Hlen; cbn; [|now rewrite bool_decide_eq_false_2 by exact Hlen].
    destruct sim; cbn; [now rewrite bool_decide_eq_true_2 by exact Hlen|].
    destruct up as [u|]; cbn.
    + rewrite bool_decide_eq_true_2 by exact Hlen. reflexivity.
    + rewrite bool_decide_eq_true_2 by exact Hlen. cbn.
      destruct (firstLatLng (points ly) pp); reflexivity.
Qed.

Lemma positionEffect_live (s : App) :
  liveLocationEnabled s = true ->
  userPosition (positionEffect s) = actualUserLatLng s.
Proof.
  destruct s as [pd sg pi pp er im up ub ci sim lg live al ge wr tr acc idx ly sl].
  unfold positionEffect. cbn. intros ->. destruct al; reflexivity.
Qed.

Lemma positionEffect_off (s : App) :
  liveLocationEnabled s = false ->
  userPosition (positionEffect s)
  = match pathPointsForMap s with
    | [] => None
    | _ :: _ =>
        if isSimulating s then userPosition s
        else match userPosition s with
             | Some u => Some u
             | None => firstLatLng (points (layout s)) (pathPointsForMap s)
             end
    end.
Proof.
  destruct s as [pd sg pi pp er im up ub ci sim lg live al ge wr tr acc idx ly sl].
  unfold positionEffect. cbn. intros ->.
  destruct pp as [|r pp]; cbn.
  - destruct al; reflexivity.
  - destruct al, sim, up; reflexivity.
Qed.

(** X22: the effect that mirrors the position writes nothing but the
    position shown and running it again changes nothing.  While live
    location is on, the position shown is the last fix, and none before
    the first fix.  While it is off, no position is shown without a path;
    with a path, a running simulation keeps its own position, and
    otherwise a missing position is replaced by the first point of the
    path. *)
Theorem position_mirror (s : App) :
  (exists v, positionEffect s = set_userPosition v s)
  /\ positionEffect (positionEffect s) = positionEffect s
  /\ (liveLocationEnabled s = true ->
      userPosition (positionEffect s) = actualUserLatLng s)
  /\ (liveLocationEnabled s = false ->
      userPosition (positionEffect s)
      = match pathPointsForMap s with
        | [] => None
        | _ :: _ =>
            if isSimulating s then userPosition s
            else match userPosition s with
                 | Some u => Some u
                 | None => firstLatLng (points (layout s)) (pathPointsForMap s)
                 end
        end).
Proof.
  exact (conj (positionEffect_fields s)
           (conj (positionEffect_idem s)
              (conj (positionEffect_live s) (positionEffect_off s)))).
Qed.

Lemma geolocationErrorMessage_nonempty (code : GeolocationErrorCode)
    (message : string) :
  geolocationErrorMessage code message <> EmptyString.
Proof. destruct code; discriminate. Qed.

(** X23: what the callbacks of the position watch, followed by the effect
    that mirrors the position, do to a reachable state.  A fix becomes the
    position shown, clears the location error and sets the bearing to the
    bearing from the position shown before to the fix (no bearing when none
    was shown); an error clears the fix, the position shown and the bearing
    and sets a message, which the live-location effect clears again when
    it next runs.  Neither callback touches the simulator, the route or
    the table, and a watch that is not registered delivers nothing. *)
Theorem watch_callbacks (supported : bool) (s : App) (p : LatLng)
    (code : GeolocationErrorCode) (message : string) :
  reachable supported s ->
  let ok := step supported (Fix p) s in
  let ko := step supported (FixError code message) s in
  match watchIdRef s with
  | Some _ =>
      liveLocationEnabled s = true
      /\ userPosition ok = Some p
      /\ actualUserLatLng ok = Some p
      /\ geolocationError ok = None
      /\ userBearing ok
         = match userPosition s with
           | Some u => Some (calculateBearing (lat u) (lng u) (lat p) (lng p))
           | None => None
           end
      /\ userPosition ko = None
      /\ actualUserLatLng ko = None
      /\ userBearing ko = None
      /\ geolocationError ko = Some (geolocationErrorMessage code message)
      /\ geolocationErrorMessage code message <> EmptyString
      /\ geolocationError (step supported LiveEffectAgain ko)
         = (if supported then None
            else Some "Geolocation is not supported by your browser.")
      /\ sameProgress s ok /\ sameProgress s ko
      /\ layout ok = layout s /\ layout ko = layout s
      /\ pathPointsForMap ok = pathPointsForMap s
      /\ pathPointsForMap ko = pathPointsForMap s
  | None => ok = s /\ ko = s
  end.
Proof.
  intros Hr ok ko. subst ok ko. cbn [step].
  destruct (watchIdRef s) as [w|] eqn:Hw; [|split; reflexivity].
  destruct (reachable_handlesHeld _ _ Hr) as (_ & _ & H3 & _).
  assert (liveLocationEnabled s = true) as Hl by (apply H3; rewrite Hw; eauto).
  destruct s as [pd sg pi pp er im up ub ci sim lg live al ge wr tr acc idx ly sl].
  cbn in Hl. subst live.
  unfold positionEffect, onGeolocationSuccess, onGeolocationError, sameProgress,
    liveLocationEffect, cancelSimulation, cancelSpeech.
  cbn.
  repeat (refine (conj _ _)); try reflexivity.
  - apply geolocationErrorMessage_nonempty.
  - destruct supported, tr; reflexivity.
Qed.

Lemma watch_callbacks_witness :
  let s := step true (Cancelling ToggleLiveLocation) initialApp in
  reachable true s
  /\ watchIdRef s = Some ()
  /\ userPosition (step true (Fix (mkLatLng 28.6435 77.2222)) s)
     = Some (mkLatLng 28.6435 77.2222).
Proof.
  intros s.
  assert (reachable true s) as Hr by (apply reachable_step, reachable_init).
  assert (watchIdRef s = Some ()) as Hw by reflexivity.
  pose proof (watch_callbacks true s (mkLatLng 28.6435 77.2222) TIMEOUT
                EmptyString Hr) as H.
  cbv zeta in H. rewrite Hw in H.
  exact (conj Hr (conj Hw (proj1 (proj2 H)))).
Defined.

(** Switching live location on from a state where it is off. *)
Lemma toggle_on (supported : bool) (s : App) :
  handlesHeld s ->
  liveLocationEnabled s = false ->
  let on := step supported (Cancelling ToggleLiveLocation) s in
  liveLocationEnabled on = true
  /\ userPosition on = None
  /\ actualUserLatLng on = None
  /\ simulationIntervalRef on = None
  /\ isSimulating on = false
  /\ watchIdRef on = (if supported then Some () else watchIdRef s)
  /\ geolocationError on
     = (if supported then None
        else Some "Geolocation is not supported by your browser.")
  /\ sameProgress s on
  /\ layout on = layout s
  /\ pathPointsForMap on = pathPointsForMap s
  /\ pathInstructions on = pathInstructions s.
Proof.
  intros (_ & _ & _ & H4) Hl. specialize (H4 Hl).
  destruct s as [pd sg pi pp er im up ub ci sim lg live al ge wr tr acc idx ly sl].
  cbn in Hl, H4. subst live al.
  unfold step, dispatch, afterRender, handle, liveLocationEffect, positionEffect,
    cancelSimulation, cancelSpeech, sameProgress.
  cbn. rewrite bool_decide_eq_true_2 by (split; reflexivity).
  destruct supported, tr; cbn; repeat (refine (conj _ _)); reflexivity.
Qed.

(** Switching live location off from a state where it is on. *)
Lemma toggle_off (supported : bool) (s : App) :
  handlesHeld s ->
  liveLocationEnabled s = true ->
  let off := step supported (Cancelling ToggleLiveLocation) s in
  liveLocationEnabled off = false
  /\ userPosition off
     = match pathPointsForMap s with
       | [] => None
       | _ :: _ =>
           match userPosition s with
           | Some u => Some u
           | None => firstLatLng (points (layout s)) (pathPointsForMap s)
           end
       end
  /\ actualUserLatLng off = None
  /\ watchIdRef off = None
  /\ geolocationError off = None
  /\ simulationIntervalRef off = None
  /\ isSimulating off = false
  /\ sameProgress s off
  /\ layout off = layout s
  /\ pathPointsForMap off = pathPointsForMap s
  /\ pathInstructions off = pathInstructions s.
Proof.
  intros (H1 & H2 & _ & _) Hl. specialize (H2 Hl).
  destruct s as [pd sg pi pp er im up ub ci sim lg live al ge wr tr acc idx ly sl].
  cbn in Hl, H1, H2. subst live tr.
  assert (sim = false) as ->.
  { destruct sim; [|reflexivity]. destruct (proj1 H1 eq_refl). discriminate. }
  unfold step, dispatch, afterRender, handle, liveLocationEffect, positionEffect,
    cancelSimulation, cancelSpeech, sameProgress.
  cbn. rewrite bool_decide_eq_true_2 by (split; reflexivity).
  destruct pp as [|r pp], up; cbn; repeat (refine (conj _ _)); reflexivity.
Qed.

(** X24: switching live location on and off again.  Switching it on stops
    the simulation and shows no position until the first fix; switching it
    off again releases the watch, forgets the fix and puts the marker back
    on the first point of the path, while the accumulator and the
    instruction index keep the values the walk had reached. *)
Theorem live_location_round_trip (supported : bool) (s : App) :
  reachable supported s ->
  liveLocationEnabled s = false ->
  let on := step supported (Cancelling ToggleLiveLocation) s in
  let off := step supported (Cancelling ToggleLiveLocation) on in
  (liveLocationEnabled on = true /\ userPosition on = None
   /\ simulationIntervalRef on = None /\ isSimulating on = false)
  /\ liveLocationEnabled off = false
  /\ userPosition off = firstLatLng (points (layout s)) (pathPointsForMap s)
  /\ actualUserLatLng off = None
  /\ watchIdRef off = None
  /\ isSimulating off = false
  /\ sameProgress s off
  /\ layout off = layout s
  /\ pathPointsForMap off = pathPointsForMap s
  /\ pathInstructions off = pathInstructions s.
Proof.
  intros Hr Hl on off.
  pose proof (reachable_handlesHeld _ _ Hr) as Hh.
  destruct (toggle_on supported s Hh Hl)
    as (A1 & A2 & A3 & A4 & A5 & _ & _ & [A8 A8'] & A9 & A10 & A11).
  fold on in A1, A2, A3, A4, A5, A8, A8', A9, A10, A11.
  assert (handlesHeld on) as Hon by (apply handlesHeld_step; exact Hh).
  destruct (toggle_off supported on Hon A1)
    as (B1 & B2 & B3 & B4 & _ & _ & B7 & [B8 B8'] & B9 & B10 & B11).
  fold off in B1, B2, B3, B4, B7, B8, B8', B9, B10, B11.
  refine (conj (conj A1 (conj A2 (conj A4 A5))) (conj B1 (conj _ (conj B3
            (conj B4 (conj B7 (conj _ (conj _ (conj _ _))))))))).
  - rewrite B2, A2, A9, A10. unfold firstLatLng.
    destruct (pathPointsForMap s); reflexivity.
  - unfold sameProgress. split; congruence.
  - congruence.
  - congruence.
  - congruence.
Qed.

Lemma live_location_round_trip_witness :
  let s := step true (Cancelling (SelectEntryGate "gate-a"))
             (step true (Cancelling (LookupPNR "1234567890")) initialApp) in
  let off := step true (Cancelling ToggleLiveLocation)
               (step true (Cancelling ToggleLiveLocation) s) in
  reachable true s
  /\ liveLocationEnabled s = false
  /\ userPosition off = firstLatLng (points (layout s)) (pathPointsForMap s).
Proof.
  intros s off.
  assert (reachable true s) as Hr
    by (repeat apply reachable_step; apply reachable_init).
  assert (liveLocationEnabled s = false) as Hl by (vm_compute; reflexivity).
  destruct (live_location_round_trip true s Hr Hl) as (_ & _ & H & _).
  exact (conj Hr (conj Hl H)).
Defined.

(** ** The voice announcer *)

(** X25: the voice an utterance gets is a voice of the list in the language
    asked for; it is a remote voice only if the list has no local voice in
    that language; and the utterance gets no voice exactly when the list
    has no voice in that language. *)
Theorem selectVoice_spec (voices : list Voice) (lang : Language) :
  (forall v,
      selectVoice voices lang = Some v ->
      v ∈ voices
      /\ voice_lang v = languageTag lang
      /\ (voice_localService v = false ->
          forall w, w ∈ voices -> voice_lang w = languageTag lang ->
                    voice_localService w = false))
  /\ (selectVoice voices lang = None
      <-> forall w, w ∈ voices -> voice_lang w <> languageTag lang).
Proof.
  unfold selectVoice.
  destruct (find (fun voice => bool_decide (voice_lang voice = languageTag lang)
                               && voice_localService voice) voices)
    as [v0|] eqn:Hlocal.
  - apply find_some in Hlocal as [Hin Hv].
    apply andb_true_iff in Hv as [Hlang Hloc].
    apply bool_decide_eq_true in Hlang. split.
    + intros v [= <-]. refine (conj _ (conj Hlang _)).
      * now apply list_elem_of_In.
      * intros Hf. rewrite Hf in Hloc. discriminate.
    + split; [discriminate|]. intros Hn. exfalso.
      apply (Hn v0); [now apply list_elem_of_In|exact Hlang].
  - pose proof (find_none _ _ Hlocal) as Hnone. split.
    + intros v Hv.
      apply (find_bool_decide_Some (fun w => voice_lang w = languageTag lang))
        in Hv as [Hlang Hin].
      refine (conj Hin (conj Hlang _)).
      intros _ w Hw Hwl. apply list_elem_of_In in Hw.
      specialize (Hnone w Hw). cbn beta in Hnone.
      rewrite bool_decide_eq_true_2 in Hnone by exact Hwl. exact Hnone.
    + exact (find_bool_decide_None (fun w => voice_lang w = languageTag lang) _).
Qed.

Lemma submitted_snoc (synthesis : bool) (voices : list Voice)
    (log : list SpeechCall) (c : SpeechCall) :
  submitted synthesis voices (log ++ [c])
  = hookCall synthesis voices (submitted synthesis voices log) c.
Proof. unfold submitted. now rewrite fold_left_app. Qed.

Lemma submitted_length (synthesis : bool) (voices : list Voice)
    (log : list SpeechCall) :
  (length (submitted synthesis voices log) <= 1)%nat.
Proof.
  induction log as [|c log IH] using rev_ind; [cbn; lia|].
  rewrite submitted_snoc. destruct synthesis; [destruct c; cbn; lia|exact IH].
Qed.

Lemma submitted_without_synthesis (voices : list Voice) (log : list SpeechCall) :
  submitted false voices log = [].
Proof.
  induction log as [|c log IH] using rev_ind; [reflexivity|].
  rewrite submitted_snoc. exact IH.
Qed.

(** X26: what is left in the queue of the announcer.  Every call of the
    hook empties the queue first, so at most one utterance is ever
    pending (none at all without speech synthesis).  After a tick that
    moves on to a next instruction it is that instruction, in the language
    of the interval and with the voice selected for it.  After the tick
    that completes the walk nothing is pending: the destination message is
    cancelled by the same callback that submits it. *)
Theorem announcer_queue_after_a_tick (synthesis : bool) (voices : list Voice)
    (t : Timer) (s : App) :
  let traveled := totalDistanceTraveledRef s + distanceToAdvance in
  let total := totalPathLength (points (layout s)) (timer_pathPointsForMap t) in
  (forall log, (length (submitted synthesis voices log) <= 1)%nat)
  /\ (traveled >= total -> submitted synthesis voices (speechLog (tick t s)) = [])
  /\ (traveled < total ->
      forall inst target next,
        timer_pathInstructions t !! currentInstructionIdxRef s = Some inst ->
        PathInstruction.cumulativeDistanceToTarget inst = Some target ->
        target <= traveled ->
        timer_pathInstructions t !! S (currentInstructionIdxRef s) = Some next ->
        submitted synthesis voices (speechLog (tick t s))
        = if synthesis then
            [mkUtterance (instructionText (timer_language t) next)
               (languageTag (timer_language t))
               (selectVoice voices (timer_language t))]
          else []).
Proof.
  intros traveled total.
  refine (conj (submitted_length synthesis voices) (conj _ _)).
  - intros Hge. destruct synthesis; [|apply submitted_without_synthesis].
    destruct (tick_complete_spec t s Hge) as (_ & -> & _).
    change (speechLog s ++ [?a; CancelSpeech])
      with (speechLog s ++ [a] ++ [CancelSpeech]).
    rewrite app_assoc. now rewrite submitted_snoc.
  - intros Hlt inst target next Hi Ht Hle Hn.
    destruct synthesis; [|apply submitted_without_synthesis].
    rewrite (tick_not_complete t s Hlt).
    set (s1 := moveUser (points (layout s)) (timer_pathPointsForMap t)
                 (set_totalDistanceTraveledRef
                    (totalDistanceTraveledRef s + distanceToAdvance) s)).
    destruct (moveUser_frame (points (layout s)) (timer_pathPointsForMap t)
                (set_totalDistanceTraveledRef
                   (totalDistanceTraveledRef s + distanceToAdvance) s))
      as (Ha & Hidx & _).
    fold s1 in Ha, Hidx. cbn in Ha, Hidx.
    assert (timer_pathInstructions t !! currentInstructionIdxRef s1 = Some inst)
      as Hi1 by now rewrite Hidx.
    assert (target <= totalDistanceTraveledRef s1) as Hle1 by now rewrite Ha.
    destruct (advanceInstruction_step t s1 inst target Hi1 Ht Hle1)
      as (_ & _ & ->).
    rewrite Hidx, Hn. now rewrite submitted_snoc.
Qed.

Lemma announcer_queue_after_a_tick_witness :
  let s := ticks 4085 walking in
  totalDistanceTraveledRef s + distanceToAdvance
  >= totalPathLength (points (layout s)) (timer_pathPointsForMap timerGateA)
  /\ submitted true [] (speechLog (tick timerGateA s)) = [].
Proof.
  destruct walk_at_4085 as (total & inst & _ & _ & Htot & _ & _ & _ & Ha & Hb).
  pose proof distanceToAdvance_value as Hstep.
  cbv zeta in *.
  assert (totalDistanceTraveledRef (ticks 4085 walking) + distanceToAdvance
          >= totalPathLength (points (layout (ticks 4085 walking)))
               (timer_pathPointsForMap timerGateA)) as Hge
    by (rewrite Htot, Ha, Hstep; lra).
  split; [exact Hge|].
  exact (proj1 (proj2 (announcer_queue_after_a_tick true [] timerGateA
                         (ticks 4085 walking))) Hge).
Defined.

(** ** The route on the screen *)

Lemma append_cons (c : Ascii.ascii) (a b : string) :
  String.append (String c a) b = String c (String.append a b).
Proof. reflexivity. Qed.

Lemma append_empty (b : string) : String.append EmptyString b = b.
Proof. reflexivity. Qed.

Lemma append_length (a b : string) :
  String.length (String.append a b) = (String.length a + String.length b)%nat.
Proof.
  induction a as [|c a IH]; [reflexivity|].
  rewrite append_cons. cbn [String.length]. now rewrite IH.
Qed.

(** Two concatenations with tails of the same length have the same
    head. *)
Lemma append_cancel (a b s t : string) :
  String.length s = String.length t ->
  String.append a s = String.append b t -> a = b.
Proof.
  revert b. induction a as [|c a IH]; intros [|c' b] Hlen H.
  - reflexivity.
  - exfalso. pose proof (f_equal String.length H) as Hl.
    rewrite append_empty, append_length in Hl. cbn [String.length] in Hl. lia.
  - exfalso. pose proof (f_equal String.length H) as Hl.
    rewrite append_empty, append_length in Hl. cbn [String.length] in Hl. lia.
  - rewrite !append_cons in H. injection H as -> H. f_equal. now apply IH.
Qed.

(** A key of the table built from a gate id and the platform of a record
    of the PNR table names gate A or gate B. *)
Lemma key_gate (g : string) (d : PNRDetails) (route : list PathInstruction.t) :
  d ∈ mockPNRData ->
  paths mockStationLayout
    !! String.append g (String.append "-" (destinationPlatformId d)) = Some route ->
  g ∈ ["gate-a"; "gate-b"].
Proof.
  intros Hd Hk. apply authored_routes in Hk. unfold mockPNRData in Hd.
  assert (String.length (String.append "-" (destinationPlatformId d)) = 11%nat)
    as Hlen.
  { repeat (apply elem_of_cons in Hd as [->|Hd]; [reflexivity|]). inversion Hd. }
  repeat (apply elem_of_cons in Hk as [Hk|Hk];
          [injection Hk as Hk _;
           first
             [ apply (append_cancel g "gate-a" _ "-platform-1") in Hk
             | apply (append_cancel g "gate-a" _ "-platform-2") in Hk
             | apply (append_cancel g "gate-a" _ "-platform-3") in Hk
             | apply (append_cancel g "gate-a" _ "-platform-4") in Hk
             | apply (append_cancel g "gate-b" _ "-platform-1") in Hk
             | apply (append_cancel g "gate-b" _ "-platform-2") in Hk
             | apply (append_cancel g "gate-b" _ "-platform-3") in Hk
             | apply (append_cancel g "gate-b" _ "-platform-4") in Hk ];
           [rewrite Hk; repeat constructor|rewrite Hlen; reflexivity]|]).
  inversion Hk.
Qed.

(** A route of the table, materialized from the table of a state that is
    intact. *)
Lemma materialized_table_route (s : App) (g : string) (d : PNRDetails)
    (instructions : list PathInstruction.t) :
  tableIntact s ->
  d ∈ mockPNRData ->
  paths (layout s) !! String.append g (String.append "-" (destinationPlatformId d))
  = Some instructions ->
  let m := generatePathPointsForMap (points (layout s)) instructions (Some g) in
  NoDup (mat_points m)
  /\ (2 <= length (mat_points m))%nat
  /\ chained (mat_store m) (mat_points m)
  /\ located (mat_store m) (mat_points m).
Proof.
  intros (Hpts & Hpaths & _) Hd Hks m.
  set (pathKey := String.append g (String.append "-" (destinationPlatformId d))) in *.
  assert (exists route,
             paths mockStationLayout !! pathKey = Some route
             /\ map unannotatedInstruction instructions
                = map unannotatedInstruction route) as (route & Hk & Hin).
  { pose proof (f_equal (fun m => m !! pathKey) Hpaths) as Hl. cbn beta in Hl.
    rewrite !lookup_fmap, Hks in Hl.
    destruct (paths mockStationLayout !! pathKey) as [route|]; [|discriminate].
    exists route. split; [reflexivity|]. cbn in Hl. now injection Hl. }
  pose proof (key_gate g d route Hd Hk) as Hgate.
  destruct (table_route g d Hgate Hd) as (route' & Hk' & Hnd & Hlen & _).
  fold pathKey in Hk'. rewrite Hk in Hk'. injection Hk' as <-.
  assert (g <> EmptyString) as Hne.
  { intros E. rewrite E in Hgate.
    repeat (apply elem_of_cons in Hgate as [Hgate|Hgate]; [discriminate|]).
    inversion Hgate. }
  assert (mat_points m = collectPoints (points mockStationLayout) route g) as Hm.
  { unfold m. rewrite (generate_Some _ _ _ Hne). cbv zeta. cbn [mat_points].
    rewrite (collectPoints_ext _ _ _ _ Hpts), !collectPoints_omap.
    now rewrite (requestedIds_unannotated _ _ _ Hin). }
  assert (NoDup (mat_points m)) as Hnd' by now rewrite Hm.
  refine (conj Hnd' (conj _ (conj _ _))).
  - now rewrite Hm.
  - exact (materialized_chained _ _ _ Hne Hnd').
  - apply table_located.
    + unfold m. now rewrite mat_store_unannotated.
    + apply mat_points_valid.
Qed.

Lemma routeShown_ext (s s' : App) :
  layout s' = layout s ->
  pathPointsForMap s' = pathPointsForMap s \/ pathPointsForMap s' = [] ->
  routeShown s -> routeShown s'.
Proof.
  intros Hl [Hp|Hp] H; [|now left].
  unfold routeShown. now rewrite Hl, Hp.
Qed.

Lemma routeShown_handleEntryGateSelect (g : string) (s : App) :
  tableIntact s ->
  (forall d, pnrDetails s = Some d -> d ∈ mockPNRData) ->
  routeShown (handleEntryGateSelect g s).
Proof.
  intros Ht Hpnr.
  destruct (handleEntryGateSelect_route g s) as (_ & _ & _ & Hr).
  destruct (pnrDetails s) as [d|]; [|left; apply Hr].
  destruct (bool_decide (g = EmptyString)); [left; apply Hr|].
  cbv zeta in Hr.
  destruct (paths (layout s) !! _) as [instructions|] eqn:Hk; [|left; apply Hr].
  destruct Hr as (Hl & Hp & _). right. rewrite Hl, Hp. cbn [points].
  exact (materialized_table_route s g d instructions Ht (Hpnr d eq_refl) Hk).
Qed.

Lemma cancelSimulation_route (s : App) :
  layout (cancelSimulation s) = layout s
  /\ pathPointsForMap (cancelSimulation s) = pathPointsForMap s
  /\ pnrDetails (cancelSimulation s) = pnrDetails s.
Proof.
  unfold cancelSimulation, cancelSpeech.
  destruct (simulationIntervalRef s); repeat (refine (conj _ _)); reflexivity.
Qed.

Lemma routeShown_handle (e : CancelEvent) (s : App) :
  tableIntact s ->
  (forall d, pnrDetails s = Some d -> d ∈ mockPNRData) ->
  routeShown s -> routeShown (handle e s).
Proof.
  intros Ht Hpnr H. destruct e as [| |g|p|]; cbn [handle].
  - destruct (cancelSimulation_route s) as (Hl & Hp & _).
    apply (routeShown_ext s); auto.
  - exact H.
  - now apply routeShown_handleEntryGateSelect.
  - destruct (handlePNRLookup_route p s) as (Hl & _ & _ & _ & Hr).
    apply (routeShown_ext s); [exact Hl| |exact H].
    destruct (getPNRDetails p); [right|left]; apply Hr.
  - unfold handleRecalculateRoute.
    set (s1 := set_error None (set_liveLocationEnabled false (cancelSimulation s))).
    destruct (cancelSimulation_route s) as (Hl & Hp & Hd).
    assert (routeShown s1) as H1 by (apply (routeShown_ext s); auto).
    assert (tableIntact s1) as Ht1 by (apply (tableIntact_ext s); auto).
    assert (forall d, pnrDetails s1 = Some d -> d ∈ mockPNRData) as Hpnr1.
    { intros d Hd1. apply Hpnr. rewrite <- Hd. exact Hd1. }
    destruct (selectedEntryGateId s) as [g|]; [|exact H1].
    destruct (pnrDetails s); [|exact H1].
    destruct (truthy (Some g)); [|exact H1].
    exact (routeShown_handleEntryGateSelect g s1 Ht1 Hpnr1).
Qed.

Lemma routeShown_positionEffect (s : App) :
  routeShown s -> routeShown (positionEffect s).
Proof. intros H. destruct (positionEffect_fields s) as [v ->]. exact H. Qed.

Lemma routeShown_step (supported : bool) (ev : Event) (s : App) :
  tableIntact s ->
  (forall d, pnrDetails s = Some d -> d ∈ mockPNRData) ->
  routeShown s -> routeShown (step supported ev s).
Proof.
  intros Ht Hpnr H. destruct ev as [e| | |l|p|code message|]; cbn [step].
  - apply routeShown_positionEffect. unfold dispatch, afterRender.
    match goal with
    | |- routeShown (if ?c then ?a else resetEffect ?a) =>
        cut (routeShown a); [intros Ha; destruct c; exact Ha|]
    end.
    pose proof (routeShown_handle e s Ht Hpnr H) as Hn.
    destruct (bool_decide _); [exact Hn|].
    destruct (liveLocationEffect_route supported (handle e s)) as (Hl & Hp & _).
    apply (routeShown_ext (handle e s)); auto.
  - apply routeShown_positionEffect.
    destruct (startSimulation_route s) as (R1 & _ & R3 & _).
    apply (routeShown_ext s); auto.
  - apply routeShown_positionEffect.
    destruct (fire_sameRoute s) as (R1 & R2 & _).
    apply (routeShown_ext s); auto.
  - exact H.
  - destruct (watchIdRef s); [|exact H].
    apply routeShown_positionEffect. exact H.
  - destruct (watchIdRef s); [|exact H].
    apply routeShown_positionEffect. exact H.
  - apply routeShown_positionEffect.
    destruct (liveLocationEffect_route supported s) as (Hl & Hp & _).
    apply (routeShown_ext s); auto.
Qed.

Lemma reachable_routeShown (supported : bool) (s : App) :
  reachable supported s -> routeShown s.
Proof.
  induction 1 as [|ev s Hr IH]; [now left|].
  apply routeShown_step; [now apply (reachable_tableIntact supported)| |exact IH].
  intros d. now apply (reachable_pnrDetails supported).
Qed.

Lemma reachable_closureCurrent (supported : bool) (s : App) :
  reachable supported s -> closureCurrent s.
Proof.
  induction 1 as [|ev s _ IH]; [now apply closureCurrent_None|].
  now apply closureCurrent_step.
Qed.

Lemma chained_total_nonneg (store : list StationPoint.t) (pts : list nat) :
  chained store pts -> 0 <= totalPathLength store pts.
Proof.
  intros [Hhead Hchain]. unfold totalPathLength.
  destruct (last pts) as [rl|] eqn:El; [|cbn; lra].
  cbn [mbind option_bind]. 
  destruct (cumulativeOf store rl) as [dl|] eqn:Hdl; [|cbn; lra].
  cbn [default from_option]. unfold Datatypes.id.
  destruct pts as [|r0 rest]; [discriminate|].
  pose proof (Hhead r0 eq_refl) as H0.
  rewrite last_lookup in El.
  apply (cumulative_monotone store (r0 :: rest) Hchain 0%nat
           (pred (length (r0 :: rest))) r0 rl 0 dl); auto.
  lia.
Qed.

Lemma startSimulation_traveled (s : App) :
  totalDistanceTraveledRef (startSimulation s) = totalDistanceTraveledRef s
  \/ totalDistanceTraveledRef (startSimulation s) = 0.
Proof.
  destruct s as [pd sg pi pp er im up ub ci sim lg live al ge wr tr acc idx ly sl].
  unfold startSimulation, speak. cbn.
  repeat case_match; cbn; auto.
Qed.

Lemma dispatch_traveled (supported : bool) (e : CancelEvent) (s : App) :
  totalDistanceTraveledRef (dispatch supported e s) = totalDistanceTraveledRef s
  \/ totalDistanceTraveledRef (dispatch supported e s) = 0.
Proof.
  unfold dispatch.
  destruct (afterRender_spec supported s (handle e s))
    as (_ & _ & _ & _ & _ & _ & _ & Hreset).
  assert (totalDistanceTraveledRef (handle e s) = totalDistanceTraveledRef s) as Hh.
  { assert (e = ToggleLiveLocation \/ e <> ToggleLiveLocation) as [->|Hne]
      by (destruct e; (now left) || (now right)).
    - reflexivity.
    - apply (handle_spec e s Hne). }
  destruct (bool_decide _).
  - left. destruct Hreset as [[Ha _] _]. congruence.
  - right. apply Hreset.
Qed.

Lemma reachable_traveled_nonneg (supported : bool) (s : App) :
  reachable supported s -> 0 <= totalDistanceTraveledRef s.
Proof.
  assert (forall a, totalDistanceTraveledRef (positionEffect a)
                    = totalDistanceTraveledRef a) as Hpos.
  { intros a. destruct (positionEffect_fields a) as [v ->]. reflexivity. }
  induction 1 as [|ev s Hr IH]; [cbn; lra|].
  destruct ev as [e| | |l|p|code message|]; cbn [step].
  - rewrite Hpos. destruct (dispatch_traveled supported e s) as [-> | ->]; lra.
  - rewrite Hpos. destruct (startSimulation_traveled s) as [-> | ->]; lra.
  - rewrite Hpos. unfold fire.
    destruct (simulationIntervalRef s) as [t|] eqn:Ht; [|exact IH].
    rewrite tick_traveled.
    destruct (reachable_closureCurrent _ _ Hr t Ht) as (Hp & _ & _ & Hlen).
    destruct (reachable_routeShown _ _ Hr) as [He|(_ & _ & Hc & _)].
    { rewrite He in Hlen. cbn in Hlen. lia. }
    rewrite Hp. pose proof (chained_total_nonneg _ _ Hc) as Htot.
    pose proof distanceToAdvance_value as Hstep.
    unfold Rmin. destruct (Rle_dec _ _); lra.
  - exact IH.
  - destruct (watchIdRef s); [|exact IH]. now rewrite Hpos.
  - destruct (watchIdRef s); [|exact IH]. now rewrite Hpos.
  - rewrite Hpos.
    destruct (liveLocationEffect_spec supported s) as (_ & _ & [-> _] & _).
    exact IH.
Qed.

(** X27: in every state the component can reach, the route on the screen
    is empty or a path of at least two points without repetition whose
    points carry their coordinates and the distance walked up to them, and
    the accumulator is not negative; the path a registered interval works
    on is such a path. *)
Theorem shown_route_is_a_simple_annotated_path (supported : bool) (s : App) :
  reachable supported s ->
  routeShown s
  /\ 0 <= totalDistanceTraveledRef s
  /\ (forall t, simulationIntervalRef s = Some t ->
        NoDup (timer_pathPointsForMap t)
        /\ chained (points (layout s)) (timer_pathPointsForMap t)
        /\ located (points (layout s)) (timer_pathPointsForMap t)).
Proof.
  intros Hr.
  pose proof (reachable_routeShown _ _ Hr) as Hs.
  refine (conj Hs (conj (reachable_traveled_nonneg _ _ Hr) _)).
  intros t Ht.
  destruct (reachable_closureCurrent _ _ Hr t Ht) as (Hp & _ & _ & Hlen).
  rewrite Hp.
  destruct Hs as [He|(Hnd & _ & Hc & Hl)]; [|auto].
  rewrite He in Hlen. cbn in Hlen. lia.
Qed.

Lemma shown_route_is_a_simple_annotated_path_witness :
  let s := step true (Cancelling (SelectEntryGate "gate-a"))
             (step true (Cancelling (LookupPNR "1234567890")) initialApp) in
  reachable true s /\ routeShown s /\ 0 <= totalDistanceTraveledRef s.
Proof.
  intros s.
  assert (reachable true s) as Hr
    by (repeat apply reachable_step; apply reachable_init).
  destruct (shown_route_is_a_simple_annotated_path true s Hr) as (H1 & H2 & _).
  exact (conj Hr (conj H1 H2)).
Defined.

(** ** After the arrival *)

Lemma startSimulation_resumed (s : App) :
  isSimulating s = false ->
  liveLocationEnabled s = false ->
  (2 <= length (pathPointsForMap s))%nat ->
  userPosition s <> None ->
  totalDistanceTraveledRef s <> 0 ->
  let s' := startSimulation s in
  totalDistanceTraveledRef s' = totalDistanceTraveledRef s
  /\ currentInstructionIdxRef s' = currentInstructionIdxRef s
  /\ userPosition s' = userPosition s
  /\ layout s' = layout s
  /\ simulationIntervalRef s'
     = Some (mkTimer (pathPointsForMap s) (pathInstructions s) (language s)
               (pnrDetails s))
  /\ speechLog s'
     = speechLog s
       ++ match pathInstructions s !! currentInstructionIdxRef s with
          | Some inst => [Speak (instructionText (language s) inst) (language s)]
          | None => []
          end.
Proof.
  intros Hsim Hlive Hlen Hpos Hacc.
  destruct s as [pd sg pi pp er im up ub ci sim lg live al ge wr tr acc idx ly sl].
  cbn in Hsim, Hlive, Hlen, Hpos, Hacc. subst sim live.
  unfold startSimulation, speak. cbn.
  rewrite bool_decide_eq_false_2 by lia. cbn.
  rewrite (bool_decide_eq_false_2 (up = None)) by exact Hpos. cbn.
  destruct (Req_dec_T acc 0) as [E|_]; [contradiction|]. cbn.
  destruct (pi !! idx); cbn; rewrite ?app_nil_r;
    repeat (refine (conj _ _)); reflexivity.
Qed.

(** X28: pressing start after the walk has arrived does not replay it.  It
    announces the current instruction again, and the first firing of the
    new interval completes at once: the destination message is submitted
    and cancelled, the simulation stops, and the position, the accumulator
    and the instruction index stay where the walk ended. *)
Theorem start_after_arrival (s : App) :
  let total := totalPathLength (points (layout s)) (pathPointsForMap s) in
  isSimulating s = false ->
  liveLocationEnabled s = false ->
  (2 <= length (pathPointsForMap s))%nat ->
  userPosition s <> None ->
  totalDistanceTraveledRef s <> 0 ->
  total <= totalDistanceTraveledRef s + distanceToAdvance ->
  let s' := fire (startSimulation s) in
  isSimulating s' = false
  /\ simulationIntervalRef s' = None
  /\ totalDistanceTraveledRef s' = total
  /\ userPosition s' = userPosition s
  /\ currentInstructionIdxRef s' = currentInstructionIdxRef s
  /\ speechLog s'
     = speechLog s
       ++ match pathInstructions s !! currentInstructionIdxRef s with
          | Some inst => [Speak (instructionText (language s) inst) (language s)]
          | None => []
          end
       ++ [Speak (destinationMessage (language s) (pnrDetails s)) (language s);
           CancelSpeech].
Proof.
  intros total Hsim Hlive Hlen Hpos Hacc Htot s'.
  destruct (startSimulation_resumed s Hsim Hlive Hlen Hpos Hacc)
    as (Ga & Gi & Gp & Gl & Gt & Glog).
  unfold s', fire. rewrite Gt.
  set (t := mkTimer (pathPointsForMap s) (pathInstructions s) (language s)
              (pnrDetails s)).
  assert (totalDistanceTraveledRef (startSimulation s) + distanceToAdvance
          >= totalPathLength (points (layout (startSimulation s)))
               (timer_pathPointsForMap t)) as Hge.
  { rewrite Ga, Gl. cbn [timer_pathPointsForMap t]. fold total. lra. }
  destruct (tick_complete_spec t (startSimulation s) Hge)
    as (Ha & Hlog & Hn & Hs & _ & Hp & Hi & _).
  rewrite Gl in Ha. cbn [timer_pathPointsForMap t] in Ha. fold total in Ha.
  refine (conj Hs (conj Hn (conj Ha (conj _ (conj _ _))))).
  - now rewrite Hp.
  - now rewrite Hi.
  - rewrite Hlog, Glog, <- app_assoc. reflexivity.
Qed.

(** The walk from gate A when it has arrived. *)
Lemma arrived_facts :
  let s := ticks 4086 walking in
  isSimulating s = false
  /\ liveLocationEnabled s = false
  /\ (2 <= length (pathPointsForMap s))%nat
  /\ userPosition s <> None
  /\ totalDistanceTraveledRef s <> 0
  /\ totalPathLength (points (layout s)) (pathPointsForMap s)
     <= totalDistanceTraveledRef s + distanceToAdvance.
Proof.
  cbv zeta.
  destruct walking_facts as (Ht & Hacc & _ & _ & _ & Hlive & Hstore & _).
  destruct atGateA_facts as (Hpath & _).
  destruct gateA_walk
    as (d1 & d2 & d3 & d4 & (_ & Htot & _ & _ & _ & Hd4) & _ & _ & _ & P3).
  pose proof distanceToAdvance_value as Hstep.
  destruct (P3 4084%nat ltac:(lia)) as ((Ht84 & _ & Hp84) & _ & _ & Ha84).
  destruct (P3 4085%nat ltac:(lia)) as ((Ht85 & _ & Hp85) & _ & _ & Ha85).
  rewrite (INR_literal 4084 4084 eq_refl) in Ha84.
  rewrite (INR_literal 4085 4085 eq_refl) in Ha85.
  set (s84 := ticks 4084 walking) in *.
  set (s85 := ticks 4085 walking) in *.
  assert (s85 = tick timerGateA s84) as E85.
  { unfold s85, s84. rewrite ticks_S. unfold fire. fold s84. now rewrite Ht84. }
  assert (ticks 4086 walking = tick timerGateA s85) as ->.
  { rewrite ticks_S. fold s85. unfold fire. now rewrite Ht85. }
  change (timer_pathPointsForMap timerGateA)
    with (mat_points materializedGateA) in *.
  assert (totalPathLength (points (layout s85))
            (timer_pathPointsForMap timerGateA) = d4) as Htot85.
  { rewrite Hp85. exact Htot. }
  assert (totalDistanceTraveledRef s85 + distanceToAdvance
          >= totalPathLength (points (layout s85))
               (timer_pathPointsForMap timerGateA)) as Hge
    by (rewrite Htot85, Ha85, Hstep; lra).
  destruct (tick_complete_spec timerGateA s85 Hge)
    as (Ha & _ & _ & Hs & _ & Hp & _).
  destruct (tick_sameRoute timerGateA s85)
    as (Hl86 & Hpp86 & _ & _ & _ & _ & Hlive86 & _).
  destruct (ticks_sameRoute 4085 walking)
    as (_ & Hpp85 & _ & _ & _ & _ & Hlive85 & _).
  fold s85 in Hpp85, Hlive85.
  assert (pathPointsForMap s85 = mat_points materializedGateA) as Hpts85.
  { rewrite Hpp85. unfold walking.
    now rewrite (proj1 (startSimulation_route atGateA)). }
  refine (conj Hs (conj _ (conj _ (conj _ (conj _ _))))).
  - now rewrite Hlive86, Hlive85.
  - rewrite Hpp86, Hpts85. vm_compute. lia.
  - rewrite Hp, E85.
    assert (chained (points (layout s84)) (timer_pathPointsForMap timerGateA))
      as H1 by (rewrite Hp84; exact materializedGateA_chained).
    assert (located (points (layout s84)) (timer_pathPointsForMap timerGateA))
      as H2 by (rewrite Hp84; exact materializedGateA_located).
    destruct (tick_position timerGateA s84 H1 H2)
      as (i & p1 & p2 & f & _ & _ & _ & _ & Hpos & _).
    + rewrite Ha84. lra.
    + rewrite Hp84, Ha84, Hstep.
      change (timer_pathPointsForMap timerGateA)
        with (mat_points materializedGateA).
      rewrite Htot. lra.
    + rewrite Hpos. discriminate.
  - rewrite Ha, Htot85. lra.
  - rewrite Ha, Hl86, Hpp86, Hpts85, Htot85.
    change (totalPathLength (points (layout s85)) (mat_points materializedGateA))
      with (totalPathLength (points (layout s85))
              (timer_pathPointsForMap timerGateA)).
    rewrite Htot85, Hstep. lra.
Qed.

Lemma start_after_arrival_witness :
  let s := ticks 4086 walking in
  isSimulating s = false
  /\ liveLocationEnabled s = false
  /\ (2 <= length (pathPointsForMap s))%nat
  /\ userPosition s <> None
  /\ totalDistanceTraveledRef s <> 0
  /\ totalPathLength (points (layout s)) (pathPointsForMap s)
     <= totalDistanceTraveledRef s + distanceToAdvance
  /\ isSimulating (fire (startSimulation s)) = false
  /\ userPosition (fire (startSimulation s)) = userPosition s.
Proof.
  destruct arrived_facts as (H1 & H2 & H3 & H4 & H5 & H6).
  destruct (start_after_arrival (ticks 4086 walking) H1 H2 H3 H4 H5 H6)
    as (G1 & _ & _ & G4 & _).
  exact (conj H1 (conj H2 (conj H3 (conj H4 (conj H5 (conj H6 (conj G1 G4))))))).
Defined.

Lemma tick_index_bound (t : Timer) (s : App) :
  PathInstruction.cumulativeDistanceToTarget <$> last (timer_pathInstructions t)
  = Some (Some (totalPathLength (points (layout s)) (timer_pathPointsForMap t))) ->
  (currentInstructionIdxRef s < length (timer_pathInstructions t))%nat ->
  (currentInstructionIdxRef (tick t s) < length (timer_pathInstructions t))%nat.
Proof.
  intros Hlast Hidx.
  set (total := totalPathLength (points (layout s)) (timer_pathPointsForMap t)) in *.
  destruct (Rge_dec (totalDistanceTraveledRef s + distanceToAdvance) total)
    as [Hge|Hlt].
  - destruct (tick_complete_spec t s Hge) as (_ & _ & _ & _ & _ & _ & -> & _).
    exact Hidx.
  - assert (totalDistanceTraveledRef s + distanceToAdvance < total) as Hlt' by lra.
    rewrite (tick_not_complete t s Hlt').
    set (s1 := moveUser (points (layout s)) (timer_pathPointsForMap t)
                 (set_totalDistanceTraveledRef
                    (totalDistanceTraveledRef s + distanceToAdvance) s)).
    destruct (moveUser_frame (points (layout s)) (timer_pathPointsForMap t)
                (set_totalDistanceTraveledRef
                   (totalDistanceTraveledRef s + distanceToAdvance) s))
      as (Ha & Hi & _).
    fold s1 in Ha, Hi. cbn in Ha, Hi.
    destruct (advanceInstruction_frame t s1) as (_ & _ & _ & _ & _ & [E|E] & _);
      rewrite E, Hi; [exact Hidx|].
    (* the index moved: the instruction was not the last one *)
    destruct (decide (S (currentInstructionIdxRef s)
                      < length (timer_pathInstructions t))%nat) as [Hok|Hno];
      [exact Hok|exfalso].
    assert (currentInstructionIdxRef s1
            = pred (length (timer_pathInstructions t))) as Hpred
      by (rewrite Hi; lia).
    destruct (last (timer_pathInstructions t)) as [inst|] eqn:El;
      [|discriminate].
    cbn in Hlast. injection Hlast as Htarget.
    rewrite last_lookup, <- Hpred in El.
    assert (totalDistanceTraveledRef s1 < total) as Hlt1 by (rewrite Ha; lra).
    rewrite (advanceInstruction_stay t s1 inst total El Htarget Hlt1) in E.
    lia.
Qed.

(** X29: while the interval works on a route whose last instruction has
    the total length of the path as its threshold (as every materialized
    route whose last target resolves has), the instruction index never
    runs past the last instruction, however often the interval fires: the
    walk ends on the last instruction, not after it. *)
Theorem index_never_passes_the_last_instruction (n : nat) (t : Timer) (s : App) :
  simulationIntervalRef s = Some t ->
  PathInstruction.cumulativeDistanceToTarget <$> last (timer_pathInstructions t)
  = Some (Some (totalPathLength (points (layout s)) (timer_pathPointsForMap t))) ->
  (currentInstructionIdxRef s < length (timer_pathInstructions t))%nat ->
  (currentInstructionIdxRef (ticks n s) < length (timer_pathInstructions t))%nat.
Proof.
  intros Ht Hlast Hidx.
  assert ((simulationIntervalRef (ticks n s) = Some t
           \/ simulationIntervalRef (ticks n s) = None)
          /\ (currentInstructionIdxRef (ticks n s)
              < length (timer_pathInstructions t))%nat) as [_ H]; [|exact H].
  induction n as [|n [Hrun IH]]; [split; [now left|exact Hidx]|].
  rewrite ticks_S.
  destruct Hrun as [Hrun|Hrun]; [|rewrite (fire_stopped _ Hrun); auto].
  assert (fire (ticks n s) = tick t (ticks n s)) as ->
    by (unfold fire; now rewrite Hrun).
  split.
  - destruct (tick_handles t (ticks n s) Hrun) as [[_ G]|[_ G]]; auto.
  - apply tick_index_bound; [|exact IH].
    destruct (ticks_sameRoute n s) as (-> & _). exact Hlast.
Qed.

Lemma index_never_passes_the_last_instruction_witness :
  simulationIntervalRef walking = Some timerGateA
  /\ PathInstruction.cumulativeDistanceToTarget
       <$> last (timer_pathInstructions timerGateA)
     = Some (Some (totalPathLength (points (layout walking))
                     (timer_pathPointsForMap timerGateA)))
  /\ (currentInstructionIdxRef walking
      < length (timer_pathInstructions timerGateA))%nat
  /\ (currentInstructionIdxRef (ticks 5000 walking)
      < length (timer_pathInstructions timerGateA))%nat.
Proof.
  destruct walking_facts as (Ht & _ & Hidx & _ & _ & _ & Hstore & _).
  assert (PathInstruction.cumulativeDistanceToTarget
            <$> last (timer_pathInstructions timerGateA)
          = Some (Some (totalPathLength (points (layout walking))
                          (timer_pathPointsForMap timerGateA)))) as Hlast.
  { destruct gateA_distances as (d1 & d2 & d3 & d4 & Hmap & Htot & _).
    rewrite Hstore.
    change (timer_pathPointsForMap timerGateA) with (mat_points materializedGateA).
    change (timer_pathInstructions timerGateA)
      with (mat_instructions materializedGateA).
    rewrite Htot.
    change (PathInstruction.cumulativeDistanceToTarget
              <$> last (mat_instructions materializedGateA))
      with (PathInstruction.cumulativeDistanceToTarget
              <$> last (mat_instructions materializedGateA)).
    rewrite <- fmap_last.
    change (PathInstruction.cumulativeDistanceToTarget
              <$> mat_instructions materializedGateA)
      with (map PathInstruction.cumulativeDistanceToTarget
              (mat_instructions materializedGateA)).
    rewrite Hmap. reflexivity. }
  assert (currentInstructionIdxRef walking
          < length (timer_pathInstructions timerGateA))%nat as Hlt.
  { rewrite Hidx. vm_compute. lia. }
  exact (conj Ht (conj Hlast (conj Hlt
           (index_never_passes_the_last_instruction 5000 timerGateA walking
              Ht Hlast Hlt)))).
Defined.
